(** * circles.py: concentric-ring classification, training loop and plots

    A shallow embedding of [circles.py] and the properties its
    specification states.

    - Tensors of floating-point numbers are read as lists of real numbers
      ([R]), integer tensors as lists of [nat].  The arithmetic that
      generates the data is an explicit argument, [Arith], with binary32
      rounding and exact arithmetic as instances; the operations of the
      model, the softmax and the grid are the exact ones over [R].
    - Calls that can raise in Python return a [result]; the mutable objects
      of the script (parameters, their gradients, the generator's position,
      standard output) are threaded through the monad [M].
    - The random generator is an explicit argument: a record of the streams
      it yields.  A data loader is given by the batches it yields on each
      iteration.
    - Automatic differentiation is the backend's: it enters as a variable,
      assumed only to return gradients of the parameters' shapes.

    The file has three parts: the embedding of the program, the vocabulary
    in which the properties are stated, and the properties with their
    proofs. *)

From Stdlib Require Import String DecimalString.
From Stdlib Require Import List Arith Bool Lia ZArith QArith Qround.
From Stdlib Require Import Permutation Sorted.
From Stdlib Require Import Reals Lra.
Import ListNotations.

Local Open Scope nat_scope.

(* ================================================================== *)
(** ** Exceptions and the error monad *)

Inductive exn : Type :=
| ValueError     (* max() of an empty sequence, unknown colour, batch sizes differ *)
| IndexError     (* index or class target out of range *)
| ShapeError     (* RuntimeError: mat1 and mat2 shapes cannot be multiplied *)
| ReshapeError   (* RuntimeError: shape is invalid for input of that size *)
| RangeError.    (* RuntimeError: random_ expects 'from' to be less than 'to' *)

Inductive result (A : Type) : Type :=
| Ok (a : A)
| Raise (e : exn).

Arguments Ok {A} a.
Arguments Raise {A} e.

Definition rbind {A B : Type} (r : result A) (k : A -> result B) : result B :=
  match r with
  | Ok a => k a
  | Raise e => Raise e
  end.

Declare Scope result_scope.
Delimit Scope result_scope with result.
Notation "x <- r ;; k" := (rbind r (fun x => k))
  (at level 61, r at next level, right associativity) : result_scope.

Fixpoint mapM {A B : Type} (f : A -> result B) (l : list A) : result (list B) :=
  match l with
  | [] => Ok []
  | a :: l' =>
      (b <- f a ;;
       bs <- mapM f l' ;;
       Ok (b :: bs))%result
  end.

Definition lookup {A : Type} (l : list A) (i : nat) : result A :=
  match nth_error l i with
  | Some a => Ok a
  | None => Raise IndexError
  end.

(* ================================================================== *)
(** ** Tensors *)

(** A 2-D tensor: its rows, and [shape[1]] kept explicitly so that a tensor
    with no rows still has a width. *)
Record Tensor2 : Type := mkTensor2 {
  ncol : nat;
  rows : list (list R)
}.

Definition nrow (t : Tensor2) : nat := length (rows t).

Definition well_shaped (t : Tensor2) : Prop :=
  Forall (fun r => length r = ncol t) (rows t).

Definition rsum (l : list R) : R := fold_right Rplus 0%R l.

Definition dot (u v : list R) : R :=
  rsum (map (fun p => (fst p * snd p)%R) (combine u v)).

(** Python's builtin [max] on a non-empty sequence of numbers. *)
Definition py_max (l : list R) : result R :=
  match l with
  | [] => Raise ValueError
  | x :: xs => Ok (fold_left Rmax xs x)
  end.

(** [torch.nn.Softmax(dim=-1)] on one row: exp(x_i) / sum_j exp(x_j). *)
Definition softmax_row (r : list R) : list R :=
  let z := rsum (map exp r) in
  map (fun x => (exp x / z)%R) r.

Definition Softmax (t : Tensor2) : Tensor2 :=
  {| ncol := ncol t; rows := map softmax_row (rows t) |}.

(** [torch.matmul] of two 2-D tensors; [b] is given by its rows. *)
Definition column (b : Tensor2) (j : nat) : list R :=
  map (fun r => nth j r 0%R) (rows b).

Definition matmul (a b : Tensor2) : result Tensor2 :=
  if ncol a =? nrow b then
    Ok {| ncol := ncol b;
          rows := map (fun r => map (fun j => dot r (column b j)) (seq 0 (ncol b)))
                      (rows a) |}
  else Raise ShapeError.

(* ================================================================== *)
(** ** The random generator *)

(** What the generator yields, as streams: raw integers (reduced to a range
    by [randint]), standard normal samples, uniform samples of [0, 1), and
    the result of its k-th call of [randperm(n)]. *)
Record Generator : Type := mkGenerator {
  next_int : nat -> nat;
  next_normal : nat -> R;
  next_uniform : nat -> R;
  next_perm : nat -> nat -> list nat
}.

(** [torch.randint(high, (n,))]: raises unless [0 < high]; each raw draw is
    reduced modulo the range. *)
Definition randint (g : Generator) (high n : nat) : result (list nat) :=
  if high =? 0 then Raise RangeError
  else Ok (map (fun i => next_int g i mod high) (seq 0 n)).

Definition randn (g : Generator) (n : nat) : list R :=
  map (next_normal g) (seq 0 n).

Definition rand (g : Generator) (n : nat) : list R :=
  map (next_uniform g) (seq 0 n).

(* ================================================================== *)
(** ** Floating-point arithmetic *)

(** The arithmetic of the tensor library on float32 tensors, as far as
    [CircleData] uses it: how a Python number enters a tensor operation,
    sums, products, cosine and sine.  What these return is the
    library's, so the arithmetic is an argument of the embedding. *)
Record Arith : Type := mkArith {
  fl_const : R -> R;
  fl_add : R -> R -> R;
  fl_mul : R -> R -> R;
  fl_cos : R -> R;
  fl_sin : R -> R
}.

(** Arithmetic without rounding. *)
Definition exact_arith : Arith :=
  {| fl_const := fun x => x;
     fl_add := Rplus;
     fl_mul := Rmult;
     fl_cos := cos;
     fl_sin := sin |}.

(** IEEE 754 binary32, the format of float32 tensors: 24 significant bits,
    exponents from -126, results rounded to the nearest number of the
    format, ties to the even one.  Numbers beyond the largest finite one
    become infinities in the format; they have no counterpart here. *)
Definition mag (x : R) : Z := Int_part (ln (Rabs x) / ln 2).

Definition ulp32 (x : R) : R := powerRZ 2 (Z.max (mag x) (-126) - 23).

Definition nearest_even (y : R) : Z :=
  let f := Int_part y in
  if Rlt_dec (y - IZR f) (1 / 2) then f
  else if Rlt_dec (1 / 2) (y - IZR f) then (f + 1)%Z
  else if Z.even f then f else (f + 1)%Z.

Definition round32 (x : R) : R :=
  (IZR (nearest_even (x / ulp32 x)) * ulp32 x)%R.

(** Its cosine and sine are taken correctly rounded; the library's are
    within a unit in the last place of these. *)
Definition binary32 : Arith :=
  {| fl_const := round32;
     fl_add := fun a b => round32 (a + b);
     fl_mul := fun a b => round32 (a * b);
     fl_cos := fun t => round32 (cos t);
     fl_sin := fun t => round32 (sin t) |}.

(* ================================================================== *)
(** ** CircleData *)

Record CircleData : Type := mkCircleData {
  inputs : Tensor2;
  cats : list nat;
  n_dpt : nat
}.

(** [CircleData.__init__].  The radii, [std], 2 and [torch.pi] are Python
    numbers that enter float32 operations; [torch.pi] is read as the number
    pi, which rounds to the same binary32 number as the float it is. *)
Definition CircleData_init (fl : Arith) (g : Generator) (radii : list R)
    (n : nat) (std : R) : result CircleData :=
  (cs <- randint g (length radii) n ;;
   picked <- mapM (lookup radii) cs ;;
   let pt_radii :=
     map (fun p => fl_add fl (fl_const fl (fst p))
                     (fl_mul fl (snd p) (fl_const fl std)))
         (combine picked (randn g n)) in
   let angles := rand g n in
   Ok {| inputs :=
           {| ncol := 2;
              rows := map (fun p =>
                             [ fl_mul fl (fst p)
                                 (fl_cos fl (fl_mul fl (fl_mul fl (snd p) (fl_const fl 2))
                                               (fl_const fl PI))) ;
                               fl_mul fl (fst p)
                                 (fl_sin fl (fl_mul fl (fl_mul fl (snd p) (fl_const fl 2))
                                               (fl_const fl PI))) ])
                          (combine pt_radii angles) |};
         cats := cs;
         n_dpt := n |})%result.

(** [CircleData.__len__]. *)
Definition CircleData_len (d : CircleData) : nat := n_dpt d.

(** [CircleData.__getitem__]. *)
Definition CircleData_getitem (d : CircleData) (i : nat)
  : result (list R * nat) :=
  (x <- lookup (rows (inputs d)) i ;;
   c <- lookup (cats d) i ;;
   Ok (x, c))%result.

(** Iterating a dataset ([for x, y in dataset]): [__getitem__] at 0, 1, ...
    until it raises [IndexError]. *)
Fixpoint iterate_from (d : CircleData) (i fuel : nat) : list (list R * nat) :=
  match fuel with
  | 0 => []
  | S fuel' =>
      match CircleData_getitem d i with
      | Ok s => s :: iterate_from d (S i) fuel'
      | Raise _ => []
      end
  end.

Definition iterate (d : CircleData) : list (list R * nat) :=
  iterate_from d 0 (S (nrow (inputs d))).

(** Euclidean distance of a 2-D point from the origin. *)
Definition norm2 (x : list R) : R :=
  sqrt (nth 0 x 0 * nth 0 x 0 + nth 1 x 0 * nth 1 x 0)%R.

(* ================================================================== *)
(** ** The model: nn.Sequential(nn.Linear, nn.ReLU, nn.Linear) *)

Record Linear : Type := mkLinear {
  in_features : nat;
  out_features : nat;
  weight : list (list R);   (* out_features rows of in_features entries *)
  bias : list R             (* out_features entries *)
}.

(** [nn.Linear(i, o)]: the shapes are fixed by the constructor, the entries
    are whatever the initialisation draws. *)
Definition nn_Linear (i o : nat) (w0 : nat -> nat -> R) (b0 : nat -> R) : Linear :=
  {| in_features := i;
     out_features := o;
     weight := map (fun r => map (w0 r) (seq 0 i)) (seq 0 o);
     bias := map b0 (seq 0 o) |}.

(** One input row through a linear layer: x W^T + b. *)
Definition affine (l : Linear) (x : list R) : list R :=
  map (fun wb => (dot x (fst wb) + snd wb)%R) (combine (weight l) (bias l)).

Definition Linear_forward (l : Linear) (x : Tensor2) : result Tensor2 :=
  if ncol x =? in_features l then
    Ok {| ncol := out_features l; rows := map (affine l) (rows x) |}
  else Raise ShapeError.

Definition ReLU (x : Tensor2) : Tensor2 :=
  {| ncol := ncol x; rows := map (map (Rmax 0)) (rows x) |}.

Record Sequential : Type := mkSequential {
  fc1 : Linear;
  fc2 : Linear
}.

Definition Sequential_forward (m : Sequential) (x : Tensor2) : result Tensor2 :=
  (h <- Linear_forward (fc1 m) x ;;
   Linear_forward (fc2 m) (ReLU h))%result.

(** [nn.CrossEntropyLoss()] with the default mean reduction. *)
Definition nll_row (r : list R) (y : nat) : result R :=
  (p <- lookup (softmax_row r) y ;;
   Ok (- ln p)%R)%result.

Definition CrossEntropyLoss (pred : Tensor2) (labels : list nat) : result R :=
  if nrow pred =? length labels then
    (ls <- mapM (fun ry => nll_row (fst ry) (snd ry)) (combine (rows pred) labels) ;;
     Ok (rsum ls / INR (nrow pred))%R)%result
  else Raise ValueError.

(** Gradients: one tensor per parameter, of the parameter's shape. *)
Record LinearGrad : Type := mkLinearGrad {
  weight_grad : list (list R);
  bias_grad : list R
}.

Record Grads : Type := mkGrads {
  fc1_grad : LinearGrad;
  fc2_grad : LinearGrad
}.

Definition vzip (f : R -> R -> R) (u v : list R) : list R :=
  map (fun p => f (fst p) (snd p)) (combine u v).

Definition mzip (f : R -> R -> R) (a b : list (list R)) : list (list R) :=
  map (fun p => vzip f (fst p) (snd p)) (combine a b).

Definition LinearGrad_zip (f : R -> R -> R) (a b : LinearGrad) : LinearGrad :=
  {| weight_grad := mzip f (weight_grad a) (weight_grad b);
     bias_grad := vzip f (bias_grad a) (bias_grad b) |}.

(** [p.grad += g] on every parameter. *)
Definition Grads_add (a b : Grads) : Grads :=
  {| fc1_grad := LinearGrad_zip Rplus (fc1_grad a) (fc1_grad b);
     fc2_grad := LinearGrad_zip Rplus (fc2_grad a) (fc2_grad b) |}.

(** [p.grad.zero_()] on every parameter. *)
Definition LinearGrad_zero (a : LinearGrad) : LinearGrad :=
  {| weight_grad := map (map (fun _ => 0%R)) (weight_grad a);
     bias_grad := map (fun _ => 0%R) (bias_grad a) |}.

Definition Grads_zero (a : Grads) : Grads :=
  {| fc1_grad := LinearGrad_zero (fc1_grad a);
     fc2_grad := LinearGrad_zero (fc2_grad a) |}.

(** [p.add_(p.grad, alpha=-lr)] on the parameters of one layer. *)
Definition Linear_update (lr : R) (l : Linear) (g : LinearGrad) : Linear :=
  {| in_features := in_features l;
     out_features := out_features l;
     weight := mzip (fun p d => (p - lr * d)%R) (weight l) (weight_grad g);
     bias := vzip (fun p d => (p - lr * d)%R) (bias l) (bias_grad g) |}.

Definition sgd_update (lr : R) (m : Sequential) (g : Grads) : Sequential :=
  {| fc1 := Linear_update lr (fc1 m) (fc1_grad g);
     fc2 := Linear_update lr (fc2 m) (fc2_grad g) |}.

(** Shapes. *)
Definition mshape (a : list (list R)) : list nat := map (@length R) a.

Definition Linear_ok (l : Linear) : Prop :=
  mshape (weight l) = repeat (in_features l) (out_features l) /\
  length (bias l) = out_features l.

Definition Sequential_ok (m : Sequential) : Prop :=
  Linear_ok (fc1 m) /\ Linear_ok (fc2 m) /\
  out_features (fc1 m) = in_features (fc2 m).

Definition LinearGrad_fits (g : LinearGrad) (l : Linear) : Prop :=
  mshape (weight_grad g) = mshape (weight l) /\
  length (bias_grad g) = length (bias l).

Definition Grads_fit (g : Grads) (m : Sequential) : Prop :=
  LinearGrad_fits (fc1_grad g) (fc1 m) /\ LinearGrad_fits (fc2_grad g) (fc2 m).

(* ================================================================== *)
(** ** The interpreter state and its monad *)

(** A batch as the data loader yields it: stacked inputs and labels. *)
Definition Batch : Type := (Tensor2 * list nat)%type.

(** A data loader with [shuffle=True]: the size of its dataset, and the
    batches it yields on its k-th iteration (each iteration draws a new
    permutation from the generator). *)
Record DataLoader : Type := mkDataLoader {
  dataset_size : nat;
  yields : nat -> list Batch
}.

(** The default collation of a batch of samples: inputs stacked into a
    tensor, labels into a tensor. *)
Definition collate (samples : list (list R * nat)) : Batch :=
  ({| ncol := match samples with
              | [] => 0
              | s :: _ => length (fst s)
              end;
      rows := map fst samples |},
   map snd samples).

(** The samples at the indices a sampler hands out; a sampler only hands
    out indices of its dataset. *)
Definition fetch (samples : list (list R * nat)) (indices : list nat)
  : list (list R * nat) :=
  flat_map (fun i => match nth_error samples i with
                     | Some s => [s]
                     | None => []
                     end) indices.

(** Runs of [size] indices; the last one may be shorter. *)
Fixpoint batched (fuel size : nat) (l : list nat) : list (list nat) :=
  match fuel with
  | 0 => []
  | S fuel' =>
      match l with
      | [] => []
      | _ :: _ => firstn size l :: batched fuel' size (skipn size l)
      end
  end.

(** [DataLoader(dataset, batch_size=..., shuffle=True)]: iteration k takes
    the indices in the order [sampler k], a fresh random permutation, cuts
    them into batches and collates the samples of each. *)
Definition DataLoader_init (dataset : list (list R * nat)) (batch_size : nat)
    (sampler : nat -> list nat) : DataLoader :=
  {| dataset_size := length dataset;
     yields := fun k =>
       map (fun indices => collate (fetch dataset indices))
           (batched (length (sampler k)) batch_size (sampler k)) |}.

(** What [print] received: the loss, [current] and [size]. *)
Record LogLine : Type := mkLogLine {
  log_loss : R;
  log_current : nat;
  log_size : nat
}.

(** The mutable objects of the script: the model's parameters, their
    [.grad] (absent until the first backward pass), how many shuffles the
    generator has handed out, and standard output. *)
Record World : Type := mkWorld {
  model : Sequential;
  grad : option Grads;
  shuffles : nat;
  stdout : list LogLine
}.

Definition M (A : Type) : Type := World -> result (A * World).

Definition ret {A : Type} (a : A) : M A := fun w => Ok (a, w).

Definition bind {A B : Type} (c : M A) (k : A -> M B) : M B :=
  fun w =>
    match c w with
    | Ok (a, w') => k a w'
    | Raise e => Raise e
    end.

Definition lift {A : Type} (r : result A) : M A :=
  fun w =>
    match r with
    | Ok a => Ok (a, w)
    | Raise e => Raise e
    end.

Declare Scope world_scope.
Delimit Scope world_scope with world.
Notation "x <- c ;; k" := (bind c (fun x => k))
  (at level 61, c at next level, right associativity) : world_scope.
Notation "c ;; k" := (bind c (fun _ => k))
  (at level 61, right associativity) : world_scope.

(** A tensor that remembers what it was computed from, as far as the
    backward pass needs it. *)
Record Scores : Type := mkScores {
  scores : Tensor2;
  scores_from : Sequential * Tensor2
}.

Record Loss : Type := mkLoss {
  item : R;
  loss_from : Sequential * Tensor2 * list nat
}.

(** [torch.optim.SGD(model.parameters(), lr=...)]. *)
Record SGD : Type := mkSGD {
  lr : R
}.

(** [model(inputs)]. *)
Definition model_call (x : Tensor2) : M Scores :=
  fun w =>
    match Sequential_forward (model w) x with
    | Ok s => Ok ({| scores := s; scores_from := (model w, x) |}, w)
    | Raise e => Raise e
    end.

(** [loss_fn(pred, labels)]. *)
Definition loss_fn (pred : Scores) (labels : list nat) : M Loss :=
  lift (v <- CrossEntropyLoss (scores pred) labels ;;
        Ok {| item := v;
              loss_from := (fst (scores_from pred), snd (scores_from pred), labels) |})%result.

(** [print(...)]. *)
Definition print (l : LogLine) : M unit :=
  fun w => Ok (tt, {| model := model w; grad := grad w;
                      shuffles := shuffles w; stdout := stdout w ++ [l] |}).

(** [enumerate(dataloader)]: one iteration of the loader. *)
Definition iter_dataloader (dl : DataLoader) : M (list Batch) :=
  fun w => Ok (yields dl (shuffles w),
               {| model := model w; grad := grad w;
                  shuffles := S (shuffles w); stdout := stdout w |}).

(** [nn.Softmax(dim=-1)(model(mesh))]. *)
Definition predict (mesh : Tensor2) : M Tensor2 :=
  (p <- model_call mesh ;;
   ret (Softmax (scores p)))%world.

Section Autograd.

(** The backend's automatic differentiation: the gradient, with respect to
    the parameters, of the cross-entropy loss of the model on a batch. *)
Variable autograd : Sequential -> Tensor2 -> list nat -> Grads.

(** [Optimizer.zero_grad]'s [set_to_none]: the gradients are dropped, or
    zeroed in place. *)
Variable set_to_none : bool.

(** [optimizer.zero_grad()]. *)
Definition zero_grad (opt : SGD) : M unit :=
  fun w => Ok (tt, {| model := model w;
                      grad := if set_to_none then None
                              else option_map Grads_zero (grad w);
                      shuffles := shuffles w; stdout := stdout w |}).

(** [loss.backward()]: adds the gradient of this loss to [.grad]. *)
Definition backward (l : Loss) : M unit :=
  fun w =>
    let '(m, x, y) := loss_from l in
    let g := autograd m x y in
    Ok (tt, {| model := model w;
               grad := match grad w with
                       | None => Some g
                       | Some a => Some (Grads_add a g)
                       end;
               shuffles := shuffles w; stdout := stdout w |}).

(** [optimizer.step()]: parameters without a gradient are skipped. *)
Definition optimizer_step (opt : SGD) : M unit :=
  fun w => Ok (tt, {| model := match grad w with
                               | None => model w
                               | Some g => sgd_update (lr opt) (model w) g
                               end;
                      grad := grad w;
                      shuffles := shuffles w; stdout := stdout w |}).

(** The body of the loop of [train_loop], on batch number [i]. *)
Definition train_batch (size : nat) (opt : SGD) (verbose : bool)
    (i : nat) (data : Batch) : M unit :=
  (let '(inputs, labels) := data in
   pred <- model_call inputs ;;
   loss <- loss_fn pred labels ;;
   zero_grad opt ;;
   backward loss ;;
   optimizer_step opt ;;
   if (i mod 100 =? 0) && verbose then
     print {| log_loss := item loss;
              log_current := (i + 1) * nrow inputs;
              log_size := size |}
   else ret tt)%world.

Fixpoint for_enumerate (body : nat -> Batch -> M unit) (i : nat)
    (l : list Batch) : M unit :=
  match l with
  | [] => ret tt
  | data :: rest => (body i data ;; for_enumerate body (S i) rest)%world
  end.

(** [train_loop(dataloader, model, loss_fn, optimizer, verbose)]. *)
Definition train_loop (dataloader : DataLoader) (opt : SGD) (verbose : bool)
  : M unit :=
  (let size := dataset_size dataloader in
   batches <- iter_dataloader dataloader ;;
   for_enumerate (train_batch size opt verbose) 0 batches)%world.

(* ================================================================== *)
(** ** The script: literals, evaluation grid and epochs *)

Definition radii : list R := [1; 2; 3; 4; 5; 6]%R.
Definition n_cats : nat := length radii.
Definition batch_size : nat := 64.
Definition n_epochs : nat := 500.
Definition learning_rate : R := 0.1%R.
Definition npoints : nat := 101.
Definition epochs_to_plot : list nat := [0; 10; 20; 50; 100; 500].

(** [dataset = CircleData(radii, 50 * n_cats, std=0.5)]. *)
Definition make_dataset (fl : Arith) (g : Generator) : result CircleData :=
  CircleData_init fl g radii (50 * n_cats) 0.5%R.

(** The model of the script; [w1 b1 w2 b2] are the initial entries. *)
Definition make_model (w1 : nat -> nat -> R) (b1 : nat -> R)
    (w2 : nat -> nat -> R) (b2 : nat -> R) : Sequential :=
  {| fc1 := nn_Linear 2 32 w1 b1; fc2 := nn_Linear 32 n_cats w2 b2 |}.

Definition optimizer : SGD := {| lr := learning_rate |}.

(** [max(max(radii) * 1.5, max([max(abs(x)) for x, _ in dataset]))]. *)
Definition ax_length_of (rs : list R) (dataset : CircleData) : result R :=
  (r <- py_max rs ;;
   per_point <- mapM (fun s => py_max (map Rabs (fst s))) (iterate dataset) ;;
   d <- py_max per_point ;;
   Ok (Rmax (r * 1.5) d))%result.

(** [torch.linspace(a, b, steps)]. *)
Definition linspace (a b : R) (steps : nat) : list R :=
  map (fun i => (a + INR i * ((b - a) / INR (steps - 1)))%R) (seq 0 steps).

(** [torch.meshgrid(u, v, indexing="ij")]. *)
Definition meshgrid_ij (u v : list R) : list (list R) * list (list R) :=
  (map (fun a => map (fun _ => a) v) u, map (fun _ => v) u).

Definition ravel (a : list (list R)) : list R := concat a.

(** [torch.stack((a, b), axis=1)] of two 1-D tensors. *)
Definition stack_axis1 (a b : list R) : Tensor2 :=
  {| ncol := 2; rows := map (fun p => [fst p; snd p]) (combine a b) |}.

(** Lines 131 to 133: [ls], [x], [y] and [mesh] from [ax_length]. *)
Definition grid_xy (ax_length : R) : list (list R) * list (list R) :=
  let ls := linspace (- ax_length) ax_length npoints in
  meshgrid_ij ls ls.

Definition make_mesh (ax_length : R) : Tensor2 :=
  let '(x, y) := grid_xy ax_length in
  stack_axis1 (ravel x) (ravel y).

(** One turn of the loop over [range(n_epochs)]. *)
Definition epoch (train_dataloader : DataLoader) (mesh : Tensor2) (t : nat)
    (epoch_mesh_preds : list Tensor2) : M (list Tensor2) :=
  (train_loop train_dataloader optimizer false ;;
   if existsb (Nat.eqb (t + 1)) epochs_to_plot then
     p <- predict mesh ;;
     ret (epoch_mesh_preds ++ [p])
   else ret epoch_mesh_preds)%world.

Fixpoint for_range (body : nat -> list Tensor2 -> M (list Tensor2))
    (ts : list nat) (acc : list Tensor2) : M (list Tensor2) :=
  match ts with
  | [] => ret acc
  | t :: ts' => (acc' <- body t acc ;; for_range body ts' acc')%world
  end.

(** Lines 135 to 140: the probability fields stored by the script. *)
Definition training (train_dataloader : DataLoader) (mesh : Tensor2)
  : M (list Tensor2) :=
  (p0 <- predict mesh ;;
   for_range (epoch train_dataloader mesh) (seq 0 n_epochs) [p0])%world.

End Autograd.

(** The state in which the script starts training. *)
Definition initial_world (m : Sequential) : World :=
  {| model := m; grad := None; shuffles := 0; stdout := [] |}.

(* ================================================================== *)
(** ** Splitting the dataset *)

(** Modelled from the spec: [random_split] comes from the tensor library and
    is not among the sources; the spec (section 4.2) gives each group the
    floor of its share of the [n] indices. *)
Definition floor_share (n : nat) (frac : Q) : nat :=
  Z.to_nat (Qfloor (inject_Z (Z.of_nat n) * frac)).

(** Modelled from the spec: the sizes must sum to the total, and the
    remainder goes to the first group. *)
Definition split_sizes (n : nat) (fracs : Q * Q) : nat * nat :=
  let a := floor_share n (fst fracs) in
  let b := floor_share n (snd fracs) in
  (a + (n - (a + b)), b).

(** Modelled from the spec: [random_split(dataset, [f1, f2])] on a dataset
    of [n] samples deals the indices out along a random permutation [perm]
    of [0 .. n-1], the first group first. *)
Definition random_split (n : nat) (fracs : Q * Q) (perm : list nat)
  : list nat * list nat :=
  let '(a, b) := split_sizes n fracs in
  (firstn a perm, firstn b (skipn a perm)).

(** [Subset(dataset, indices)], iterated. *)
Definition Subset (d : CircleData) (indices : list nat)
  : result (list (list R * nat)) :=
  mapM (CircleData_getitem d) indices.

(* ================================================================== *)
(** ** Plotting *)

Local Open Scope string_scope.

(** [matplotlib.colors.to_rgb] on the single-letter base colours; any other
    name is treated as unknown here. *)
Definition to_rgb (col : string) : result (list R) :=
  if String.eqb col "r" then Ok [1; 0; 0]%R
  else if String.eqb col "b" then Ok [0; 0; 1]%R
  else if String.eqb col "g" then Ok [0; 0.5; 0]%R
  else if String.eqb col "c" then Ok [0; 0.75; 0.75]%R
  else if String.eqb col "m" then Ok [0.75; 0; 0.75]%R
  else if String.eqb col "y" then Ok [0.75; 0.75; 0]%R
  else if String.eqb col "k" then Ok [0; 0; 0]%R
  else if String.eqb col "w" then Ok [1; 1; 1]%R
  else Raise ValueError.

Definition default_cols : list string := ["r"; "b"; "g"; "c"; "m"; "y"; "k"].

Local Close Scope string_scope.

(** [torch.tensor(col_rgb)] for a list of RGB triples. *)
Definition tensor_of_rgb (col_rgb : list (list R)) : Tensor2 :=
  {| ncol := 3; rows := col_rgb |}.

Fixpoint chunks (fuel size : nat) (l : list R) : list (list R) :=
  match fuel with
  | 0 => []
  | S fuel' => firstn size l :: chunks fuel' size (skipn size l)
  end.

(** [t.reshape(n, n, -1)]: the entries in row-major order, cut into n rows
    of n cells; the size of a cell is inferred. *)
Definition reshape_grid (n : nat) (t : Tensor2) : result (list (list (list R))) :=
  let flat := concat (rows t) in
  let total := nrow t * ncol t in
  if (total =? 0) || negb (total mod (n * n) =? 0) then Raise ReshapeError
  else
    let depth := total / (n * n) in
    Ok (map (fun i => chunks n depth (skipn (i * (n * depth)) flat)) (seq 0 n)).

(** What an [Axes] has been asked to draw. *)
Record Scatter : Type := mkScatter {
  sc_x : list R;
  sc_y : list R;
  sc_c : list nat;
  sc_cmap : list string;
  sc_marker : string
}.

Record Axes : Type := mkAxes {
  ax_x : list (list R);
  ax_y : list (list R);
  ax_mesh_cols : list (list (list R));
  ax_cmap : list string;
  ax_alpha : R;
  ax_title : string;
  ax_scatter : list Scatter
}.

(** [add_scatter(ax, dataset, marker, cols)], for samples whose points
    have two coordinates, as the rows of the script's datasets do; on
    points of other lengths [torch.stack] or the indexing raises, which is
    not modelled. *)
Definition add_scatter (dataset : list (list R * nat)) (marker : string)
    (cols : list string) : result Scatter :=
  match dataset with
  | [] => Raise ValueError
  | _ :: _ =>
      let scatter_pt := map fst dataset in
      let scatter_col := map snd dataset in
      Ok {| sc_x := map (fun p => nth 0 p 0%R) scatter_pt;
            sc_y := map (fun p => nth 1 p 0%R) scatter_pt;
            sc_c := scatter_col;
            sc_cmap := firstn (list_max scatter_col + 1) cols;
            sc_marker := marker |}
  end.

(** [torch.matmul(mesh_pred, col_rgb_arr.T)] with
    [col_rgb_arr = torch.tensor(col_rgb).T]: the product with the k x 3
    matrix of the colours.  An empty [col_rgb] makes a 1-D tensor without
    entries and the product a matrix-vector product; its result, one number
    per row, is kept as rows of one entry. *)
Definition matmul_rgb (mesh_pred : Tensor2) (col_rgb : list (list R))
  : result Tensor2 :=
  match col_rgb with
  | [] =>
      if ncol mesh_pred =? 0 then
        Ok {| ncol := 1; rows := map (fun _ => [0%R]) (rows mesh_pred) |}
      else Raise ShapeError
  | _ :: _ => matmul mesh_pred (tensor_of_rgb col_rgb)
  end.

(** [plot_ax(ax, x, y, mesh_pred, title, trn_dset, tst_dset, alpha, cols)]. *)
Definition plot_ax (x y : list (list R)) (mesh_pred : Tensor2) (title : string)
    (trn_dset tst_dset : list (list R * nat)) (alpha : R) (cols : list string)
  : result Axes :=
  (let cols := firstn (ncol mesh_pred) cols in
   col_rgb <- mapM to_rgb cols ;;
   mesh_cols <- matmul_rgb mesh_pred col_rgb ;;
   image <- reshape_grid npoints mesh_cols ;;
   s1 <- add_scatter trn_dset "o"%string cols ;;
   s2 <- add_scatter tst_dset "x"%string cols ;;
   Ok {| ax_x := x; ax_y := y; ax_mesh_cols := image;
         ax_cmap := cols; ax_alpha := alpha; ax_title := title;
         ax_scatter := [s1; s2] |})%result.

(** Lines 142 to 148: one panel per stored field, titled by its epoch. *)
Definition n_ax : nat := length epochs_to_plot.
Definition n_row : nat := Nat.sqrt n_ax.
Definition n_col : nat := (n_ax + n_row - 1) / n_row.

Definition str (n : nat) : string := NilEmpty.string_of_uint (Nat.to_uint n).

(** Lines 143 and 144 for any number of panels: [int(n_ax ** 0.5)] rows and
    [math.ceil(n_ax / n_row)] columns; the division raises
    [ZeroDivisionError] when there is no row, which is [None] here. *)
Definition subplot_shape (panels_wanted : nat) : option (nat * nat) :=
  let rows_ := Nat.sqrt panels_wanted in
  if rows_ =? 0 then None
  else Some (rows_, (panels_wanted + rows_ - 1) / rows_).

Definition panels (epoch_mesh_preds : list Tensor2) : list (Tensor2 * nat) :=
  firstn (n_row * n_col) (combine epoch_mesh_preds epochs_to_plot).

Definition figure (x y : list (list R)) (epoch_mesh_preds : list Tensor2)
    (train_dataset test_dataset : list (list R * nat)) : result (list Axes) :=
  mapM (fun p => plot_ax x y (fst p) ("Epoch " ++ str (snd p))%string
                   train_dataset test_dataset 0.5%R default_cols)
       (panels epoch_mesh_preds).

(* ================================================================== *)
(** ** The script as a whole *)

(** Lines 109 to 148, from the generator and the initial parameters to the
    panels of the figure. *)
Definition script (autograd : Sequential -> Tensor2 -> list nat -> Grads)
    (set_to_none : bool) (fl : Arith) (g : Generator)
    (w1 : nat -> nat -> R) (b1 : nat -> R) (w2 : nat -> nat -> R) (b2 : nat -> R)
  : result (list Axes) :=
  (dataset <- make_dataset fl g ;;
   let split := random_split (CircleData_len dataset) (0.8, 0.2)%Q
                  (next_perm g 0 (CircleData_len dataset)) in
   train_dataset <- Subset dataset (fst split) ;;
   test_dataset <- Subset dataset (snd split) ;;
   let train_dataloader :=
     DataLoader_init train_dataset batch_size
       (fun k => next_perm g (S k) (length train_dataset)) in
   let model := make_model w1 b1 w2 b2 in
   ax_length <- ax_length_of radii dataset ;;
   let mesh := make_mesh ax_length in
   run <- match training autograd set_to_none train_dataloader mesh
                  (initial_world model) with
          | Ok (epoch_mesh_preds, _) => Ok epoch_mesh_preds
          | Raise e => Raise e
          end ;;
   figure (fst (grid_xy ax_length)) (snd (grid_xy ax_length)) run
     train_dataset test_dataset)%result.

(* ================================================================== *)
(** * Specification vocabulary *)

(** ** Closed forms of the generated data *)

(** Sample [i] of a dataset, from what the generator drew for it. *)
Definition drawn_cat (g : Generator) (rs : list R) (i : nat) : nat :=
  next_int g i mod length rs.

Definition drawn_radius (fl : Arith) (g : Generator) (rs : list R) (std : R)
    (i : nat) : R :=
  fl_add fl (fl_const fl (nth (drawn_cat g rs i) rs 0%R))
    (fl_mul fl (next_normal g i) (fl_const fl std)).

Definition drawn_angle (fl : Arith) (g : Generator) (i : nat) : R :=
  fl_mul fl (fl_mul fl (next_uniform g i) (fl_const fl 2)) (fl_const fl PI).

Definition drawn_point (fl : Arith) (g : Generator) (rs : list R) (std : R)
    (i : nat) : list R :=
  [ fl_mul fl (drawn_radius fl g rs std i) (fl_cos fl (drawn_angle fl g i)) ;
    fl_mul fl (drawn_radius fl g rs std i) (fl_sin fl (drawn_angle fl g i)) ].

(** ** Accuracy of an arithmetic *)

(** Every finite binary32 number is an integer multiple of 2^-149. *)
Definition binary32_value (x : R) : Prop :=
  exists m : Z, x = (IZR m / 2 ^ 149)%R.

(** The unit roundoff of binary32 and half its smallest positive number. *)
Definition eps32 : R := (/ 2 ^ 24)%R.
Definition eta32 : R := (/ 2 ^ 150)%R.

(** An arithmetic whose products are off by at most the relative error [u]
    and the absolute error [eta], whose cosine and sine are off by at most
    [delta], and which is exact where binary floating point is: on zero,
    on a product with zero, and on adding zero to a number it holds. *)
Definition Arith_within (fl : Arith) (u delta eta : R) : Prop :=
  (0 <= u)%R /\ (0 <= delta)%R /\ (0 <= eta)%R /\
  fl_const fl 0%R = 0%R /\
  (forall a, fl_mul fl a 0%R = 0%R) /\
  (forall a, fl_const fl a = a -> fl_add fl a 0%R = a) /\
  (forall a b, (Rabs (fl_mul fl a b - a * b) <= u * Rabs (a * b) + eta)%R) /\
  (forall t, (Rabs (fl_cos fl t - cos t) <= delta)%R) /\
  (forall t, (Rabs (fl_sin fl t - sin t) <= delta)%R).

(** An arithmetic whose products are numbers of the binary32 format. *)
Definition Arith_binary (fl : Arith) : Prop :=
  forall a b, binary32_value (fl_mul fl a b).

(** How far from the ring of radius [r] a point computed with such an
    arithmetic can lie: each coordinate is off by at most
    [e = r * (delta + u + u * delta) + eta]. *)
Definition ring_error (r u delta eta : R) : R :=
  let e := (r * (delta + u + u * delta) + eta)%R in
  ((4 * r * e + 2 * e * e) / r)%R.

(** The largest element of a list. *)
Definition largest (m : R) (l : list R) : Prop :=
  In m l /\ forall x, In x l -> (x <= m)%R.

(** All absolute coordinates of the points of a dataset. *)
Definition magnitudes (d : CircleData) : list R :=
  flat_map (fun s => map Rabs (fst s)) (iterate d).

(** A probability distribution over [k] classes. *)
Definition distribution (k : nat) (p : list R) : Prop :=
  length p = k /\ Forall (fun q => (0 <= q <= 1)%R) p /\ rsum p = 1%R.

(** ** Well-formed batches and states *)

(** [randperm(n)] returns a permutation of [0 .. n-1]. *)
Definition Generator_ok (g : Generator) : Prop :=
  forall k n, Permutation (next_perm g k n) (seq 0 n).

(** A sample of the script: a point of the plane and a class. *)
Definition Sample_ok (s : list R * nat) : Prop :=
  length (fst s) = 2 /\ snd s < n_cats.

(** A batch the model and the loss accept. *)
Definition Batch_ok (width classes : nat) (b : Batch) : Prop :=
  ncol (fst b) = width /\
  nrow (fst b) = length (snd b) /\
  Forall (fun y => y < classes) (snd b).

(** States in which training can proceed: the parameters have the shapes
    their layers declare, and a stored gradient has the parameters' shapes. *)
Definition World_ok (w : World) : Prop :=
  Sequential_ok (model w) /\
  match grad w with
  | None => True
  | Some a => Grads_fit a (model w)
  end.

(** ** Gradient descent as a recurrence *)

(** Minibatch gradient descent as a recurrence on the parameters: every
    batch moves them along the gradient of its own loss. *)
Definition sgd_batch (autograd : Sequential -> Tensor2 -> list nat -> Grads)
    (rate : R) (m : Sequential) (b : Batch) : Sequential :=
  sgd_update rate m (autograd m (fst b) (snd b)).

Definition sgd_pass (autograd : Sequential -> Tensor2 -> list nat -> Grads)
    (rate : R) (m : Sequential) (batches : list Batch) : Sequential :=
  fold_left (sgd_batch autograd rate) batches m.

(** The gradient left in [.grad] by a pass: that of its last batch. *)
Fixpoint last_grad (autograd : Sequential -> Tensor2 -> list nat -> Grads)
    (rate : R) (m : Sequential) (old : option Grads) (batches : list Batch)
  : option Grads :=
  match batches with
  | [] => old
  | b :: rest =>
      last_grad autograd rate (sgd_batch autograd rate m b)
        (Some (autograd m (fst b) (snd b))) rest
  end.

(** The parameters after [e] whole epochs, the k-th of which runs over the
    k-th yield of the loader (counted from [k0]). *)
Fixpoint model_after (autograd : Sequential -> Tensor2 -> list nat -> Grads)
    (dl : DataLoader) (k0 : nat) (m : Sequential) (e : nat) : Sequential :=
  match e with
  | 0 => m
  | S e' =>
      sgd_pass autograd learning_rate
        (model_after autograd dl k0 m e') (yields dl (k0 + e'))
  end.

(** [e] calls of [train_loop] in a row, as the script makes them. *)
Fixpoint train_epochs (autograd : Sequential -> Tensor2 -> list nat -> Grads)
    (set_to_none : bool) (dl : DataLoader) (e : nat) : M unit :=
  match e with
  | 0 => ret tt
  | S e' =>
      (train_epochs autograd set_to_none dl e' ;;
       train_loop autograd set_to_none dl optimizer false)%world
  end.

(** ** Losses and printed lines *)

(** The loss of the model on a batch, and its value where it is defined. *)
Definition batch_loss (m : Sequential) (b : Batch) : result R :=
  (s <- Sequential_forward m (fst b) ;;
   CrossEntropyLoss s (snd b))%result.

Definition loss_value (m : Sequential) (b : Batch) : R :=
  match batch_loss m b with
  | Ok v => v
  | Raise _ => 0%R
  end.

(** The line printed for batch [i] of a pass that started from [m]. *)
Definition log_line (autograd : Sequential -> Tensor2 -> list nat -> Grads)
    (rate : R) (size : nat) (m : Sequential) (batches : list Batch) (i : nat)
  : LogLine :=
  let b := nth i batches ({| ncol := 0; rows := [] |}, []) in
  {| log_loss := loss_value (sgd_pass autograd rate m (firstn i batches)) b;
     log_current := (i + 1) * nrow (fst b);
     log_size := size |}.

(** What a verbose pass prints: a line for every batch whose index is a
    multiple of 100. *)
Definition printed (autograd : Sequential -> Tensor2 -> list nat -> Grads)
    (rate : R) (size : nat) (m : Sequential) (batches : list Batch)
  : list LogLine :=
  map (log_line autograd rate size m batches)
      (filter (fun i => i mod 100 =? 0) (seq 0 (length batches))).

(** The same, batch after batch, for a loop that starts counting at [i]. *)
Fixpoint log_from (autograd : Sequential -> Tensor2 -> list nat -> Grads)
    (rate : R) (size : nat) (i : nat) (m : Sequential) (batches : list Batch)
  : list LogLine :=
  match batches with
  | [] => []
  | b :: rest =>
      (if i mod 100 =? 0 then
         [ {| log_loss := loss_value m b;
              log_current := (i + 1) * nrow (fst b);
              log_size := size |} ]
       else []) ++
      log_from autograd rate size (S i) (sgd_batch autograd rate m b) rest
  end.

(** ** Probability fields and their colours *)

(** The scores of one input row. *)
Definition score_row (m : Sequential) (x : list R) : list R :=
  affine (fc2 m) (map (Rmax 0) (affine (fc1 m) x)).

(** The probability field of a model over a grid. *)
Definition evaluate (m : Sequential) (mesh : Tensor2) : result Tensor2 :=
  (s <- Sequential_forward m mesh ;;
   Ok (Softmax s))%result.

Definition field_of (m : Sequential) (mesh : Tensor2) : Tensor2 :=
  Softmax {| ncol := out_features (fc2 m); rows := map (score_row m) (rows mesh) |}.

(** Membership in [epochs_to_plot]. *)
Definition to_plot (e : nat) : bool := existsb (Nat.eqb e) epochs_to_plot.

(** The sum over the classes of probability times colour, channel by
    channel: what a blend of the palette with weights [p] is. *)
Definition weighted_sum (p : list R) (palette : list (list R)) : list R :=
  fold_right (fun pc acc => vzip Rplus (map (Rmult (fst pc)) (snd pc)) acc)
             [0; 0; 0]%R (combine p palette).

(** The RGB colours of the six classes of the script. *)
Definition script_palette : list (list R) :=
  [[1; 0; 0]; [0; 0; 1]; [0; 0.5; 0]; [0; 0.75; 0.75]; [0.75; 0; 0.75];
   [0.75; 0.75; 0]]%R.

(** ** Outcomes apart from standard output *)

(** What a call leaves behind when its output is disregarded: the
    parameters, their gradients and the generator's position, or the
    exception it raised. *)
Definition silent (r : result (unit * World))
  : result (Sequential * option Grads * nat) :=
  match r with
  | Ok (_, w) => Ok (model w, grad w, shuffles w)
  | Raise e => Raise e
  end.

(** ** The samples of a batch *)

(** The samples a batch was collated from: its rows with their labels. *)
Definition batch_samples (b : Batch) : list (list R * nat) :=
  combine (rows (fst b)) (snd b).

(** ** Examples *)

(** A backend for the examples: the gradient of half the squared norm of
    the parameters, which is the parameters themselves. *)
Definition ridge_autograd (m : Sequential) (x : Tensor2) (y : list nat) : Grads :=
  {| fc1_grad := {| weight_grad := weight (fc1 m); bias_grad := bias (fc1 m) |};
     fc2_grad := {| weight_grad := weight (fc2 m); bias_grad := bias (fc2 m) |} |}.

(** Examples: a small loader and an initial model. *)
Definition example_batch : Batch :=
  ({| ncol := 2; rows := [[1; 0]; [0; 2]]%R |}, [0; 1]).

Definition example_loader : DataLoader :=
  {| dataset_size := 2; yields := fun _ => [example_batch] |}.

Definition example_model : Sequential :=
  make_model (fun _ _ => 1%R) (fun _ => 0%R) (fun _ _ => 1%R) (fun _ => 0%R).

(** A dataset of two points for the examples. *)
Definition example_dataset : CircleData :=
  {| inputs := {| ncol := 2; rows := [[1; 0]; [0; -2]]%R |};
     cats := [0; 1];
     n_dpt := 2 |}.

(** A generator for the examples. *)
Definition example_generator : Generator :=
  {| next_int := fun i => i;
     next_normal := fun _ => 0%R;
     next_uniform := fun _ => 0%R;
     next_perm := fun _ n => seq 0 n |}.

(** A generator whose every uniform draw is 1/8, an eighth of a turn. *)
Definition eighth_turn : Generator :=
  {| next_int := fun _ => 0;
     next_normal := fun _ => 1%R;
     next_uniform := fun _ => (1 / 8)%R;
     next_perm := fun _ n => seq 0 n |}.

(** Examples: the state before training and a grid. *)
Definition example_world : World := initial_world example_model.

Definition example_mesh : Tensor2 := make_mesh 9%R.

(** A field that gives every grid point equal chances of two classes. *)
Definition example_field : Tensor2 :=
  {| ncol := 2; rows := repeat [0.5; 0.5]%R (npoints * npoints) |}.

Definition example_samples : list (list R * nat) := [([1; 0]%R, 0); ([0; 2]%R, 1)].

(* ================================================================== *)
(** * Properties *)

(** ** Lists and the error monad *)

Lemma combine_map_same {A B C : Type} (f : A -> B) (g : A -> C) (l : list A) :
  combine (map f l) (map g l) = map (fun a => (f a, g a)) l.
Proof.
  induction l as [|a l IH]; simpl; [reflexivity|].
  now rewrite IH.
Qed.

Lemma mapM_Ok_map {A B : Type} (f : A -> result B) (g : A -> B) (l : list A) :
  Forall (fun a => f a = Ok (g a)) l -> mapM f l = Ok (map g l).
Proof.
  induction 1 as [|a l Ha _ IH]; simpl; [reflexivity|].
  now rewrite Ha, IH.
Qed.

Lemma mapM_Ok_Forall2 {A B : Type} (f : A -> result B) (l : list A) (bs : list B) :
  mapM f l = Ok bs -> Forall2 (fun a b => f a = Ok b) l bs.
Proof.
  revert bs; induction l as [|a l IH]; simpl; intros bs H.
  - injection H as <-. constructor.
  - destruct (f a) as [b|e] eqn:Ea; simpl in H; [|discriminate].
    destruct (mapM f l) as [bs'|e] eqn:El; simpl in H; [|discriminate].
    injection H as <-. constructor; auto.
Qed.

Lemma lookup_lt {A : Type} (l : list A) (i : nat) (d : A) :
  i < length l -> lookup l i = Ok (nth i l d).
Proof.
  intros H. unfold lookup.
  now rewrite (nth_error_nth' l d H).
Qed.

Lemma lookup_Ok_lt {A : Type} (l : list A) (i : nat) (a : A) :
  lookup l i = Ok a -> i < length l.
Proof.
  unfold lookup. destruct (nth_error l i) eqn:E; [|discriminate].
  intros _. apply nth_error_Some. congruence.
Qed.

(** ** Softmax *)

Lemma rsum_app (u v : list R) : rsum (u ++ v) = (rsum u + rsum v)%R.
Proof.
  induction u as [|a u IH]; simpl; [lra|].
  fold (rsum (u ++ v)); fold (rsum u). rewrite IH. lra.
Qed.

Lemma rsum_map_scale {A : Type} (f : A -> R) (c : R) (l : list A) :
  rsum (map (fun a => (f a * c)%R) l) = (rsum (map f l) * c)%R.
Proof.
  induction l as [|a l IH]; simpl; [lra|].
  fold (rsum (map (fun a => (f a * c)%R) l)); fold (rsum (map f l)).
  rewrite IH. lra.
Qed.

Lemma rsum_nonneg (l : list R) :
  Forall (fun x => (0 <= x)%R) l -> (0 <= rsum l)%R.
Proof.
  induction 1 as [|a l Ha _ IH]; simpl; [lra|].
  fold (rsum l). lra.
Qed.

Lemma rsum_exp_nonneg (r : list R) : (0 <= rsum (map exp r))%R.
Proof.
  apply rsum_nonneg, Forall_forall. intros y Hy.
  apply in_map_iff in Hy as (x & <- & _).
  left; apply exp_pos.
Qed.

Lemma rsum_exp_pos (r : list R) : r <> [] -> (0 < rsum (map exp r))%R.
Proof.
  destruct r as [|x r]; [congruence|]. intros _. simpl.
  fold (rsum (map exp r)).
  pose proof (exp_pos x). pose proof (rsum_exp_nonneg r). lra.
Qed.

Lemma exp_le_rsum (r : list R) (x : R) :
  In x r -> (exp x <= rsum (map exp r))%R.
Proof.
  induction r as [|a r IH]; simpl; [tauto|].
  fold (rsum (map exp r)).
  pose proof (exp_pos a) as Ha. pose proof (rsum_exp_nonneg r) as Hr.
  intros [->|Hin]; [lra|]. specialize (IH Hin). lra.
Qed.

Lemma softmax_row_length (r : list R) : length (softmax_row r) = length r.
Proof. unfold softmax_row. apply length_map. Qed.

Lemma softmax_row_sum (r : list R) : r <> [] -> rsum (softmax_row r) = 1%R.
Proof.
  intros H. unfold softmax_row. cbv zeta.
  pose proof (rsum_exp_pos r H) as Hz.
  unfold Rdiv. rewrite (rsum_map_scale exp).
  field. lra.
Qed.

Lemma softmax_row_range (r : list R) :
  Forall (fun p => (0 <= p <= 1)%R) (softmax_row r).
Proof.
  apply Forall_forall. intros p Hp. unfold softmax_row in Hp. cbv zeta in Hp.
  apply in_map_iff in Hp as (x & <- & Hx).
  assert (Hne : r <> []) by (intros ->; inversion Hx).
  pose proof (rsum_exp_pos r Hne) as Hz.
  pose proof (exp_le_rsum r x Hx) as Hle.
  pose proof (exp_pos x) as Hx0.
  split.
  - apply Rlt_le, Rdiv_lt_0_compat; assumption.
  - apply (Rmult_le_reg_r (rsum (map exp r))); [assumption|].
    unfold Rdiv. rewrite Rmult_assoc, Rinv_l by lra. lra.
Qed.

Lemma softmax_row_distribution (r : list R) :
  r <> [] -> distribution (length r) (softmax_row r).
Proof.
  intros H. repeat split.
  - apply softmax_row_length.
  - apply softmax_row_range.
  - now apply softmax_row_sum.
Qed.

Example softmax_row_even : softmax_row [0; 0]%R = [1 / 2; 1 / 2]%R.
Proof.
  unfold softmax_row, rsum. cbn. rewrite exp_0. repeat f_equal; lra.
Qed.

(** ** CircleData *)

Lemma randint_Ok (g : Generator) (high n : nat) :
  0 < high ->
  randint g high n = Ok (map (fun i => next_int g i mod high) (seq 0 n)).
Proof.
  intros H. unfold randint.
  destruct (Nat.eqb_spec high 0); [lia|reflexivity].
Qed.

Lemma randint_Raise (g : Generator) (n : nat) :
  randint g 0 n = Raise RangeError.
Proof. reflexivity. Qed.

Lemma CircleData_init_Ok (fl : Arith) (g : Generator) (rs : list R) (n : nat)
    (std : R) :
  rs <> [] ->
  CircleData_init fl g rs n std =
  Ok {| inputs := {| ncol := 2; rows := map (drawn_point fl g rs std) (seq 0 n) |};
        cats := map (drawn_cat g rs) (seq 0 n);
        n_dpt := n |}.
Proof.
  intros Hrs.
  assert (Hlen : 0 < length rs) by (destruct rs; [congruence|simpl; lia]).
  unfold CircleData_init. rewrite (randint_Ok g _ n Hlen). simpl rbind.
  rewrite (mapM_Ok_map _ (fun c => nth c rs 0%R)).
  2:{ apply Forall_forall. intros c Hc. apply in_map_iff in Hc as (i & <- & _).
      apply lookup_lt. now apply Nat.mod_upper_bound, Nat.neq_0_lt_0. }
  simpl rbind. unfold randn, rand.
  rewrite map_map, combine_map_same, map_map, combine_map_same, map_map.
  reflexivity.
Qed.

Lemma CircleData_init_Raise (fl : Arith) (g : Generator) (n : nat) (std : R) :
  CircleData_init fl g [] n std = Raise RangeError.
Proof. reflexivity. Qed.

Lemma skipn_cons_nth {A : Type} (l : list A) (i : nat) (d : A) :
  i < length l -> skipn i l = nth i l d :: skipn (S i) l.
Proof.
  revert i; induction l as [|a l IH]; simpl; intros i H; [lia|].
  destruct i as [|i]; [reflexivity|].
  simpl. apply IH. lia.
Qed.

Lemma iterate_from_skipn (d : CircleData) (fuel i : nat) :
  length (rows (inputs d)) = length (cats d) ->
  length (cats d) - i < fuel ->
  iterate_from d i fuel = skipn i (combine (rows (inputs d)) (cats d)).
Proof.
  intros Hlen. revert i; induction fuel as [|fuel IH]; intros i Hi; [lia|].
  simpl. unfold CircleData_getitem.
  destruct (Nat.lt_ge_cases i (length (cats d))) as [Hlt|Hge].
  - rewrite (lookup_lt _ i []) by lia. rewrite (lookup_lt _ i 0) by lia.
    simpl. rewrite IH by lia.
    rewrite (skipn_cons_nth _ i ([], 0)).
    + now rewrite combine_nth.
    + rewrite length_combine. lia.
  - unfold lookup at 1.
    destruct (nth_error (rows (inputs d)) i) eqn:E.
    + assert (i < length (rows (inputs d))) by (apply nth_error_Some; congruence).
      lia.
    + simpl. symmetry. apply skipn_all2. rewrite length_combine. lia.
Qed.

Lemma iterate_combine (d : CircleData) :
  length (rows (inputs d)) = length (cats d) ->
  iterate d = combine (rows (inputs d)) (cats d).
Proof.
  intros H. unfold iterate, nrow.
  rewrite iterate_from_skipn by lia. reflexivity.
Qed.

Lemma iterate_init (fl : Arith) (g : Generator) (rs : list R) (n : nat) (std : R)
    (d : CircleData) :
  CircleData_init fl g rs n std = Ok d ->
  rs <> [] /\
  iterate d = map (fun i => (drawn_point fl g rs std i, drawn_cat g rs i)) (seq 0 n).
Proof.
  intros H.
  assert (Hrs : rs <> []).
  { intros ->. rewrite CircleData_init_Raise in H. discriminate. }
  split; [assumption|].
  rewrite (CircleData_init_Ok fl g rs n std Hrs) in H. injection H as <-.
  rewrite iterate_combine; cbn [inputs rows cats].
  - apply combine_map_same.
  - now rewrite !length_map.
Qed.

(** ** Binary32 rounding *)

Local Open Scope R_scope.

Lemma nearest_even_error (y : R) : Rabs (IZR (nearest_even y) - y) <= 1 / 2.
Proof.
  unfold nearest_even. cbv zeta.
  destruct (base_Int_part y) as [Hlo Hhi].
  destruct (Rlt_dec (y - IZR (Int_part y)) (1 / 2)) as [H1|H1].
  - apply Rabs_le. lra.
  - destruct (Rlt_dec (1 / 2) (y - IZR (Int_part y))) as [H2|H2].
    + rewrite plus_IZR. apply Rabs_le. lra.
    + destruct (Z.even (Int_part y)); [|rewrite plus_IZR]; apply Rabs_le; lra.
Qed.

Lemma nearest_even_IZR (z : Z) : nearest_even (IZR z) = z.
Proof.
  unfold nearest_even. cbv zeta.
  assert (E : Int_part (IZR z) = z) by (symmetry; apply Int_part_spec; lra).
  rewrite E. destruct (Rlt_dec (IZR z - IZR z) (1 / 2)); [reflexivity|lra].
Qed.

Lemma ln_2_pos : 0 < ln 2.
Proof. rewrite <- ln_1. apply ln_increasing; lra. Qed.

Lemma powerRZ_2_exp (z : Z) : powerRZ 2 z = exp (IZR z * ln 2).
Proof. rewrite powerRZ_Rpower by lra. reflexivity. Qed.

Lemma mag_lower (x : R) : x <> 0 -> powerRZ 2 (mag x) <= Rabs x.
Proof.
  intros Hx. assert (Hpos : 0 < Rabs x) by now apply Rabs_pos_lt.
  rewrite powerRZ_2_exp.
  apply Rle_trans with (exp (ln (Rabs x))); [|rewrite exp_ln by exact Hpos; lra].
  destruct (base_Int_part (ln (Rabs x) / ln 2)) as [Hlo _]. fold (mag x) in Hlo.
  pose proof ln_2_pos as H2.
  assert (IZR (mag x) * ln 2 <= ln (Rabs x)).
  { apply (Rmult_le_compat_r (ln 2)) in Hlo; [|lra].
    unfold Rdiv in Hlo. rewrite Rmult_assoc, Rinv_l, Rmult_1_r in Hlo by lra. exact Hlo. }
  destruct (Rle_lt_or_eq_dec _ _ H) as [Hlt| ->]; [|lra].
  left. now apply exp_increasing.
Qed.

Lemma ulp32_pos (x : R) : 0 < ulp32 x.
Proof. apply powerRZ_lt. lra. Qed.

Lemma round32_0 : round32 0 = 0.
Proof.
  unfold round32. unfold Rdiv at 1. rewrite Rmult_0_l.
  change 0 with (IZR 0) at 1. rewrite nearest_even_IZR. apply Rmult_0_l.
Qed.

Lemma round32_value (x : R) : binary32_value (round32 x).
Proof.
  unfold round32, ulp32.
  set (n := nearest_even _). set (E := Z.max (mag x) (-126)).
  exists (n * 2 ^ (E + 126))%Z.
  assert (HE : (0 <= E + 126)%Z) by (unfold E; lia).
  rewrite mult_IZR.
  replace (E - 23)%Z with ((E + 126) + Z.opp 149)%Z by lia.
  rewrite powerRZ_add by lra.
  assert (H1 : powerRZ 2 (E + 126) = IZR (2 ^ (E + 126))).
  { destruct (Z_of_nat_complete _ HE) as [k ->].
    rewrite <- pow_powerRZ. now rewrite pow_IZR. }
  assert (H2 : powerRZ 2 (Z.opp 149) = / 2 ^ 149).
  { rewrite powerRZ_neg'. change 149%Z with (Z.of_nat 149).
    now rewrite <- pow_powerRZ. }
  rewrite H1, H2. unfold Rdiv. ring.
Qed.

Lemma round32_error (x : R) : Rabs (round32 x - x) <= eps32 * Rabs x + eta32.
Proof.
  assert (He : 0 < eps32) by (apply Rinv_0_lt_compat, pow_lt; lra).
  assert (Hh : 0 < eta32) by (apply Rinv_0_lt_compat, pow_lt; lra).
  destruct (Req_dec x 0) as [->|Hx].
  { rewrite round32_0, Rminus_0_r, Rabs_R0. lra. }
  pose proof (ulp32_pos x) as Hu.
  assert (Herr : Rabs (round32 x - x) <= ulp32 x / 2).
  { unfold round32.
    pose proof (nearest_even_error (x / ulp32 x)) as Hn.
    replace (IZR (nearest_even (x / ulp32 x)) * ulp32 x - x)
      with ((IZR (nearest_even (x / ulp32 x)) - x / ulp32 x) * ulp32 x)
      by (field; lra).
    rewrite Rabs_mult, (Rabs_pos_eq (ulp32 x)) by lra.
    apply (Rmult_le_compat_r (ulp32 x)) in Hn; lra. }
  assert (Hulp : ulp32 x <= 2 * eps32 * Rabs x + 2 * eta32).
  { unfold ulp32. pose proof (mag_lower x Hx) as Hm.
    pose proof (Rabs_pos x) as Hap.
    destruct (Z.max_spec (mag x) (-126)) as [[_ ->]|[_ ->]].
    - change (-126 - 23)%Z with (Z.opp 149). rewrite powerRZ_neg'.
      change 149%Z with (Z.of_nat 149). rewrite <- pow_powerRZ.
      unfold eta32. replace (2 * / 2 ^ 150) with (/ 2 ^ 149).
      + assert (0 <= eps32 * Rabs x) by (apply Rmult_le_pos; lra). lra.
      + change (2 ^ 150) with (2 * 2 ^ 149). field; try (apply pow_nonzero; lra).
    - replace (mag x - 23)%Z with (mag x + Z.opp 23)%Z by lia.
      rewrite powerRZ_add by lra.
      assert (H23 : powerRZ 2 (Z.opp 23) = 2 * eps32).
      { rewrite powerRZ_neg'. change 23%Z with (Z.of_nat 23).
        rewrite <- pow_powerRZ. unfold eps32.
        change (2 ^ 24) with (2 * 2 ^ 23). field; try (apply pow_nonzero; lra). }
      rewrite H23. 
      assert (powerRZ 2 (mag x) * (2 * eps32) <= Rabs x * (2 * eps32))
        by (apply Rmult_le_compat_r; lra).
      lra. }
  lra.
Qed.

Lemma mag_1 : mag 1 = 0%Z.
Proof.
  unfold mag. rewrite Rabs_R1, ln_1. unfold Rdiv. rewrite Rmult_0_l.
  symmetry. apply Int_part_spec. lra.
Qed.

Lemma mag_2 : mag 2 = 1%Z.
Proof.
  unfold mag. rewrite (Rabs_pos_eq 2) by lra.
  pose proof ln_2_pos. unfold Rdiv. rewrite Rinv_r by lra.
  symmetry. apply Int_part_spec. lra.
Qed.

Lemma round32_exact (x : R) (m : Z) (k : nat) :
  ulp32 x = / 2 ^ k -> x = IZR m / 2 ^ k -> round32 x = x.
Proof.
  intros Hu Hx. unfold round32. rewrite Hu.
  assert (Hk : 2 ^ k <> 0) by (apply pow_nonzero; lra).
  replace (x / / 2 ^ k) with (IZR m) by (rewrite Hx; field; exact Hk).
  rewrite nearest_even_IZR. rewrite Hx. reflexivity.
Qed.

Lemma round32_1 : round32 1 = 1.
Proof.
  apply (round32_exact 1 8388608 23).
  - unfold ulp32. rewrite mag_1. reflexivity.
  - replace (2 ^ 23) with 8388608 by (simpl; lra). lra.
Qed.

Lemma round32_2 : round32 2 = 2.
Proof.
  apply (round32_exact 2 8388608 22).
  - unfold ulp32. rewrite mag_2. reflexivity.
  - replace (2 ^ 22) with 4194304 by (simpl; lra). lra.
Qed.

Lemma sum_of_squares_pow4 (N : nat) :
  forall A B : Z, (A * A + B * B = 4 ^ Z.of_nat N)%Z -> A = 0%Z \/ B = 0%Z.
Proof.
  induction N as [|N IH]; intros A B H.
  - change (4 ^ Z.of_nat 0)%Z with 1%Z in H.
    destruct (Z.eq_dec A 0) as [|HA]; [now left|].
    destruct (Z.eq_dec B 0) as [|HB]; [now right|]. nia.
  - rewrite Nat2Z.inj_succ, Z.pow_succ_r in H by lia.
    set (K := (4 ^ Z.of_nat N)%Z) in *.
    pose proof (Z.div_mod A 2 ltac:(lia)) as HA.
    pose proof (Z.mod_pos_bound A 2 ltac:(lia)) as HAr.
    pose proof (Z.div_mod B 2 ltac:(lia)) as HB.
    pose proof (Z.mod_pos_bound B 2 ltac:(lia)) as HBr.
    set (a := (A / 2)%Z) in *. set (ra := (A mod 2)%Z) in *.
    set (b := (B / 2)%Z) in *. set (rb := (B mod 2)%Z) in *.
    assert (Hra : ra = 0%Z /\ rb = 0%Z).
    { assert (Hc : (ra = 0 \/ ra = 1)%Z) by lia.
      assert (Hd : (rb = 0 \/ rb = 1)%Z) by lia.
      rewrite HA, HB in H.
      destruct Hc as [-> | ->], Hd as [-> | ->]; [now split|exfalso..];
        ring_simplify in H; lia. }
    destruct Hra as [Ea Eb]. rewrite Ea in HA. rewrite Eb in HB.
    assert (Hab : (a * a + b * b = K)%Z) by (rewrite HA, HB in H; lia).
    destruct (IH a b Hab) as [-> | ->]; [left|right]; lia.
Qed.

Lemma pow4_IZR (N : nat) : IZR (4 ^ Z.of_nat N) = (2 ^ N) * (2 ^ N).
Proof.
  rewrite <- pow_IZR. rewrite <- Rpow_mult_distr. f_equal; lra.
Qed.

(** A point with binary32 coordinates lies exactly on a circle of radius
    2^j about the origin only where the circle meets the axes. *)
Lemma binary32_on_ring (x y : R) (j : nat) :
  binary32_value x -> binary32_value y ->
  x * x + y * y = 2 ^ j * 2 ^ j -> x = 0 \/ y = 0.
Proof.
  intros [m Hm] [n Hn] H.
  assert (HD : 2 ^ 149 <> 0) by (apply pow_nonzero; lra).
  assert (HZ : (m * m + n * n = 4 ^ Z.of_nat (j + 149))%Z).
  { apply eq_IZR. rewrite plus_IZR, !mult_IZR, pow4_IZR, pow_add.
    rewrite Hm, Hn in H.
    replace (IZR m * IZR m + IZR n * IZR n)
      with ((IZR m / 2 ^ 149 * (IZR m / 2 ^ 149) +
             IZR n / 2 ^ 149 * (IZR n / 2 ^ 149)) * (2 ^ 149 * 2 ^ 149))
      by (field; exact HD).
    rewrite H. ring. }
  destruct (sum_of_squares_pow4 _ m n HZ) as [-> | ->]; [left|right];
    [rewrite Hm|rewrite Hn]; unfold Rdiv; apply Rmult_0_l.
Qed.

Lemma eps32_small : 0 < eps32 <= / 128.
Proof.
  unfold eps32. split; [apply Rinv_0_lt_compat, pow_lt; lra|].
  apply Rinv_le_contravar; [lra|].
  change 24%nat with (7 + 17)%nat. rewrite pow_add.
  pose proof (pow_R1_Rle 2 17 ltac:(lra)). 
  replace (2 ^ 7) with 128 by (simpl; lra). nra.
Qed.

Lemma eta32_small : 0 < eta32 <= / 1024.
Proof.
  unfold eta32. split; [apply Rinv_0_lt_compat, pow_lt; lra|].
  apply Rinv_le_contravar; [lra|].
  change 150%nat with (10 + 140)%nat. rewrite pow_add.
  pose proof (pow_R1_Rle 2 140 ltac:(lra)).
  replace (2 ^ 10) with 1024 by (simpl; lra). nra.
Qed.

Lemma round32_near (x : R) :
  / 8 <= x -> x * (63 / 64) <= round32 x <= x * (65 / 64).
Proof.
  intros Hx. pose proof (round32_error x) as H.
  rewrite (Rabs_pos_eq x) in H by lra.
  pose proof eps32_small. pose proof eta32_small.
  assert (eps32 * x <= x / 128) by nra.
  unfold Rabs in H. destruct (Rcase_abs (round32 x - x)); split; lra.
Qed.

Lemma exact_arith_within : Arith_within exact_arith 0 0 0.
Proof.
  unfold Arith_within. cbn [exact_arith fl_const fl_add fl_mul fl_cos fl_sin].
  do 3 (split; [lra|]).
  split; [reflexivity|]. split; [intros a; apply Rmult_0_r|].
  split; [intros a _; apply Rplus_0_r|].
  split; [intros a b|split; intros t];
    rewrite Rminus_diag, Rabs_R0; lra.
Qed.

Lemma binary32_within : Arith_within binary32 eps32 (eps32 + eta32) eta32.
Proof.
  pose proof eps32_small as He. pose proof eta32_small as Hh.
  unfold Arith_within. cbn [binary32 fl_const fl_add fl_mul fl_cos fl_sin].
  split; [lra|]. split; [lra|]. split; [lra|].
  split; [exact round32_0|].
  split; [intros a; rewrite Rmult_0_r; exact round32_0|].
  split; [intros a Ha; now rewrite Rplus_0_r|].
  split; [intros a b; apply round32_error|].
  split; intros t.
  - pose proof (round32_error (cos t)) as H.
    pose proof (COS_bound t) as Hc.
    assert (Rabs (cos t) <= 1) by (apply Rabs_le; lra). nra.
  - pose proof (round32_error (sin t)) as H.
    pose proof (SIN_bound t) as Hc.
    assert (Rabs (sin t) <= 1) by (apply Rabs_le; lra). nra.
Qed.

Lemma binary32_binary : Arith_binary binary32.
Proof. intros a b. apply round32_value. Qed.

(** ** Points near their ring *)

(** A coordinate, computed as the rounded product of the radius with a
    rounded cosine or sine, against the exact one. *)
Lemma coordinate_error (fl : Arith) (u delta eta rho t0 c0 : R)
    (f : R -> R) :
  Arith_within fl u delta eta ->
  0 <= rho -> -1 <= c0 <= 1 -> Rabs (f t0 - c0) <= delta ->
  Rabs (fl_mul fl rho (f t0) - rho * c0)
  <= rho * (delta + u + u * delta) + eta.
Proof.
  intros (Hu & Hd & Hh & _ & _ & _ & Hmul & _) Hrho Hc Hf.
  pose proof (Hmul rho (f t0)) as Hm.
  assert (Hc' : Rabs (f t0) <= 1 + delta).
  { unfold Rabs in *. destruct (Rcase_abs (f t0)), (Rcase_abs (f t0 - c0)); lra. }
  rewrite Rabs_mult, (Rabs_pos_eq rho) in Hm by exact Hrho.
  assert (Hp : rho * Rabs (f t0) <= rho * (1 + delta))
    by (apply Rmult_le_compat_l; assumption).
  assert (Hq : u * (rho * Rabs (f t0)) <= u * (rho * (1 + delta)))
    by (apply Rmult_le_compat_l; assumption).
  assert (Hr : Rabs (rho * f t0 - rho * c0) <= rho * delta).
  { rewrite <- Rmult_minus_distr_l, Rabs_mult, (Rabs_pos_eq rho) by exact Hrho.
    apply Rmult_le_compat_l; assumption. }
  replace (fl_mul fl rho (f t0) - rho * c0)
    with ((fl_mul fl rho (f t0) - rho * f t0) + (rho * f t0 - rho * c0)) by ring.
  eapply Rle_trans; [apply Rabs_triang|]. lra.
Qed.

(** Two coordinates within [e] of a point of the circle of radius [rho]. *)
Lemma squared_distance_error (X Y rho c0 s0 e : R) :
  0 <= rho -> c0 * c0 + s0 * s0 = 1 ->
  Rabs (X - rho * c0) <= e -> Rabs (Y - rho * s0) <= e ->
  Rabs (X * X + Y * Y - rho * rho) <= 4 * rho * e + 2 * e * e.
Proof.
  intros Hrho Hcs HX HY.
  assert (He : 0 <= e) by (pose proof (Rabs_pos (X - rho * c0)); lra).
  set (a := X - rho * c0) in *. set (b := Y - rho * s0) in *.
  assert (Ha : - e <= a <= e) by (unfold Rabs in HX; destruct (Rcase_abs a); lra).
  assert (Hb : - e <= b <= e) by (unfold Rabs in HY; destruct (Rcase_abs b); lra).
  assert (Hc : -1 <= c0 <= 1) by (split; nra).
  assert (Hs : -1 <= s0 <= 1) by (split; nra).
  assert (Hac : - e <= a * c0 <= e) by (split; nra).
  assert (Hbs : - e <= b * s0 <= e) by (split; nra).
  assert (Haa : 0 <= a * a <= e * e) by (split; nra).
  assert (Hbb : 0 <= b * b <= e * e) by (split; nra).
  replace (X * X + Y * Y - rho * rho)
    with (a * a + b * b + 2 * rho * (a * c0 + b * s0))
    by (unfold a, b; replace (rho * rho) with (rho * rho * (c0 * c0 + s0 * s0))
          by (rewrite Hcs; ring); ring).
  assert (Hm : - (2 * e) <= a * c0 + b * s0 <= 2 * e) by lra.
  assert (Hn : - (rho * (2 * e)) <= rho * (a * c0 + b * s0) <= rho * (2 * e))
    by (split; nra).
  apply Rabs_le. lra.
Qed.

Lemma distance_error (s r B : R) :
  0 <= s -> 0 < r -> Rabs (s - r * r) <= B -> Rabs (sqrt s - r) <= B / r.
Proof.
  intros Hs Hr HB.
  pose proof (sqrt_pos s) as Hn. pose proof (sqrt_sqrt s Hs) as Hnn.
  set (n := sqrt s) in *.
  assert (H : Rabs (n - r) * r <= B).
  { unfold Rabs in *. destruct (Rcase_abs (s - r * r)), (Rcase_abs (n - r)); nra. }
  unfold Rdiv. apply (Rmult_le_reg_r r); [exact Hr|].
  rewrite Rmult_assoc, Rinv_l, Rmult_1_r by lra. exact H.
Qed.

(** For binary32 and the radii 1 and 2 the bound is below a millionth. *)
Lemma binary32_ring_error (r : R) :
  r = 1 \/ r = 2 ->
  ring_error r eps32 (eps32 + eta32) eta32 <= / 1000000.
Proof.
  intros Hr.
  assert (He : 0 < eps32 <= / 16700000).
  { unfold eps32. split; [apply Rinv_0_lt_compat, pow_lt; lra|].
    apply Rinv_le_contravar; [lra|]. simpl. lra. }
  assert (Hh : 0 < eta32 <= / 1000000000).
  { unfold eta32. split; [apply Rinv_0_lt_compat, pow_lt; lra|].
    apply Rinv_le_contravar; [lra|].
    change 150%nat with (30 + 120)%nat. rewrite pow_add.
    pose proof (pow_R1_Rle 2 120 ltac:(lra)).
    replace (2 ^ 30) with 1073741824 by (simpl; lra). nra. }
  unfold ring_error. cbv zeta.
  set (e := r * (eps32 + eta32 + eps32 + eps32 * (eps32 + eta32)) + eta32).
  assert (Hp : 0 <= eps32 * (eps32 + eta32) <= / 1000000000000).
  { split; [nra|].
    apply Rle_trans with (/ 16700000 * (/ 16700000 + / 1000000000)); [|lra].
    apply Rmult_le_compat; lra. }
  assert (Hb : 0 <= e <= r * (121 / 1000000000) + / 1000000000)
    by (unfold e; destruct Hr as [-> | ->]; split; lra).
  assert (Hee : e * e <= e * (1 / 1000000))
    by (apply Rmult_le_compat_l; destruct Hr as [-> | ->]; lra).
  destruct Hr as [-> | ->].
  - replace ((4 * 1 * e + 2 * e * e) / 1) with (4 * e + 2 * (e * e)) by field. lra.
  - replace ((4 * 2 * e + 2 * e * e) / 2) with (4 * e + e * e) by field. lra.
Qed.

(** The angle binary32 computes for a uniform draw of 1/8 lies between a
    twelfth and a sixth of a turn. *)
Lemma eighth_turn_angle (i : nat) :
  PI / 6 <= drawn_angle binary32 eighth_turn i <= PI / 3.
Proof.
  unfold drawn_angle.
  cbn [binary32 fl_mul fl_const eighth_turn next_uniform].
  rewrite round32_2.
  pose proof PI2_1 as Hlo. pose proof PI_4 as Hhi.
  pose proof (round32_near (1 / 8 * 2) ltac:(lra)) as Ha.
  pose proof (round32_near PI ltac:(lra)) as Hp.
  set (a := round32 (1 / 8 * 2)) in *. set (P := round32 PI) in *.
  assert (Hl : 1 / 8 * 2 * (63 / 64) * (PI * (63 / 64)) <= a * P)
    by (apply Rmult_le_compat; lra).
  assert (Hu : a * P <= 1 / 8 * 2 * (65 / 64) * (PI * (65 / 64)))
    by (apply Rmult_le_compat; lra).
  pose proof (round32_near (a * P) ltac:(lra)) as Ht.
  split; lra.
Qed.

(** So both coordinates of the point are numbers of the format other than
    zero. *)
Lemma eighth_turn_point (i : nat) :
  exists X Y,
    drawn_point binary32 eighth_turn [1; 2] 0 i = [X; Y] /\
    binary32_value X /\ binary32_value Y /\ 0 < X /\ 0 < Y.
Proof.
  unfold drawn_point. do 2 eexists. split; [reflexivity|].
  assert (Hrho : drawn_radius binary32 eighth_turn [1; 2] 0 i = 1).
  { unfold drawn_radius, drawn_cat.
    cbn [binary32 fl_add fl_mul fl_const eighth_turn next_int next_normal
         length Nat.modulo Nat.divmod fst snd Nat.sub nth].
    now rewrite round32_0, Rmult_0_r, round32_0, Rplus_0_r, !round32_1. }
  rewrite Hrho. cbn [binary32 fl_mul fl_cos fl_sin].
  destruct (eighth_turn_angle i) as [Hlo Hhi].
  set (t0 := drawn_angle binary32 eighth_turn i) in *.
  pose proof PI2_1 as Hpi. pose proof PI_4 as Hpi4.
  assert (Hc : 1 / 2 <= cos t0).
  { rewrite <- cos_PI3. apply cos_decr_1; lra. }
  assert (Hs : 1 / 2 <= sin t0).
  { rewrite <- sin_PI6. apply sin_incr_1; lra. }
  pose proof (round32_near (cos t0) ltac:(lra)) as Hc'.
  pose proof (round32_near (sin t0) ltac:(lra)) as Hs'.
  pose proof (round32_near (1 * round32 (cos t0)) ltac:(lra)) as HX.
  pose proof (round32_near (1 * round32 (sin t0)) ltac:(lra)) as HY.
  split; [apply round32_value|]. split; [apply round32_value|]. split; lra.
Qed.

Local Close Scope R_scope.

(** C5 (amended). Whatever the configuration, either the constructor
    raises (empty list of radii) or every label it generates is below the
    number of radii.  With radii [1, 2], 20 samples and no noise, every
    generated sample lies at distance radii[label] from the origin (1 or
    2, as its label says) up to the rounding of the arithmetic: within
    [ring_error], which is 0 for exact arithmetic and below a millionth
    for binary32.  And when the coordinates are numbers of the binary32
    format, the distance is exactly radii[label] only where the ring meets
    an axis. *)
Theorem CircleData_rings_up_to_rounding :
  (forall (fl : Arith) (u delta eta : R) (g : Generator),
     Arith_within fl u delta eta ->
     fl_const fl 1%R = 1%R -> fl_const fl 2%R = 2%R ->
     exists d,
       CircleData_init fl g [1; 2]%R 20 0%R = Ok d /\
       length (iterate d) = 20 /\
       forall x c, In (x, c) (iterate d) ->
                   c < 2 /\ length x = 2 /\
                   (Rabs (norm2 x - nth c [1; 2] 0)
                    <= ring_error (nth c [1; 2] 0) u delta eta)%R /\
                   (Arith_binary fl ->
                    norm2 x = nth c [1; 2]%R 0%R ->
                    nth 0 x 0%R = 0%R \/ nth 1 x 0%R = 0%R)) /\
  (forall (fl : Arith) (g : Generator) (rs : list R) (n : nat) (std : R),
     match CircleData_init fl g rs n std with
     | Ok d =>
         length (cats d) = n /\
         Forall (fun c => c < length rs) (cats d) /\
         forall x c, In (x, c) (iterate d) -> c < length rs
     | Raise _ => rs = []
     end).
Proof.
  split.
  - intros fl u delta eta g Hfl H1 H2.
    assert (E := CircleData_init_Ok fl g [1; 2]%R 20 0%R ltac:(discriminate)).
    eexists. split; [exact E|].
    destruct (iterate_init _ _ _ _ _ _ E) as [_ ->].
    split; [now rewrite length_map, length_seq|].
    intros x c Hin. apply in_map_iff in Hin as (i & Hi & _).
    injection Hi as <- <-.
    assert (Hc : drawn_cat g [1; 2]%R i < 2)
      by (apply Nat.mod_upper_bound; discriminate).
    split; [exact Hc|]. split; [reflexivity|].
    set (r := nth (drawn_cat g [1; 2]%R i) [1; 2]%R 0%R).
    assert (Hr : (r = 1 \/ r = 2)%R).
    { unfold r. destruct (drawn_cat g [1; 2]%R i) as [|[|k]];
        [now left|now right|lia]. }
    assert (Hrc : fl_const fl r = r) by (destruct Hr as [-> | ->]; assumption).
    pose proof Hfl as (Hu & Hd & Hh & H0 & Hm0 & Ha0 & Hmul & Hcos & Hsin).
    assert (Hrho : drawn_radius fl g [1; 2]%R 0%R i = r).
    { unfold drawn_radius. fold r. rewrite H0, Hm0, Hrc. now apply Ha0. }
    unfold drawn_point. rewrite Hrho.
    set (t0 := drawn_angle fl g i).
    assert (Hr0 : (0 < r)%R) by (destruct Hr as [-> | ->]; lra).
    pose proof (COS_bound t0) as Hcb. pose proof (SIN_bound t0) as Hsb.
    pose proof (coordinate_error fl u delta eta r t0 (cos t0) (fl_cos fl)
                  Hfl ltac:(lra) Hcb (Hcos t0)) as HX.
    pose proof (coordinate_error fl u delta eta r t0 (sin t0) (fl_sin fl)
                  Hfl ltac:(lra) Hsb (Hsin t0)) as HY.
    assert (Hcs : (cos t0 * cos t0 + sin t0 * sin t0 = 1)%R).
    { pose proof (sin2_cos2 t0) as H. unfold Rsqr in H. lra. }
    pose proof (squared_distance_error _ _ r _ _ _ ltac:(lra) Hcs HX HY) as Hsq.
    set (X := fl_mul fl r (fl_cos fl t0)) in *.
    set (Y := fl_mul fl r (fl_sin fl t0)) in *.
    assert (Hpos : (0 <= X * X + Y * Y)%R) by nra.
    unfold norm2. cbn [nth]. split.
    + exact (distance_error _ r _ Hpos Hr0 Hsq).
    + intros Hbin Hn.
      assert (Hxy : (X * X + Y * Y = r * r)%R).
      { rewrite <- (sqrt_sqrt _ Hpos). now rewrite Hn. }
      destruct Hr as [Er | Er]; rewrite Er in Hxy.
      * apply (binary32_on_ring X Y 0); [apply Hbin|apply Hbin|].
        rewrite Hxy. simpl. lra.
      * apply (binary32_on_ring X Y 1); [apply Hbin|apply Hbin|].
        rewrite Hxy. simpl. lra.
  - intros fl g rs n std.
    destruct (CircleData_init fl g rs n std) as [d|e] eqn:E.
    + destruct (iterate_init _ _ _ _ _ _ E) as [Hrs Hit].
      rewrite (CircleData_init_Ok fl g rs n std Hrs) in E. injection E as <-.
      assert (Hb : forall i, drawn_cat g rs i < length rs).
      { intros i. apply Nat.mod_upper_bound.
        destruct rs; [congruence|discriminate]. }
      cbn [cats]. repeat split.
      * now rewrite length_map, length_seq.
      * apply Forall_forall. intros c Hc.
        apply in_map_iff in Hc as (i & <- & _). apply Hb.
      * intros x c Hin. rewrite Hit in Hin.
        apply in_map_iff in Hin as (i & Hi & _).
        injection Hi as <- <-. apply Hb.
    + destruct rs as [|r rs]; [reflexivity|].
      rewrite CircleData_init_Ok in E by discriminate. discriminate.
Qed.

(** ** Splitting the dataset *)

Lemma floor_share_08 (n : nat) : floor_share n 0.8 = n * 8 / 10.
Proof.
  unfold floor_share. cbn [Qmult inject_Z Qnum Qden Qfloor].
  rewrite <- (Nat2Z.id (n * 8 / 10)). f_equal.
  now rewrite Nat2Z.inj_div, Nat2Z.inj_mul.
Qed.

Lemma floor_share_02 (n : nat) : floor_share n 0.2 = n * 2 / 10.
Proof.
  unfold floor_share. cbn [Qmult inject_Z Qnum Qden Qfloor].
  rewrite <- (Nat2Z.id (n * 2 / 10)). f_equal.
  now rewrite Nat2Z.inj_div, Nat2Z.inj_mul.
Qed.

Example split_sizes_300 : split_sizes 300 (0.8, 0.2)%Q = (240, 60).
Proof. reflexivity. Qed.

Example split_sizes_7 : split_sizes 7 (0.8, 0.2)%Q = (6, 1).
Proof. reflexivity. Qed.

Example random_split_7 :
  random_split 7 (0.8, 0.2)%Q [3; 1; 4; 0; 6; 2; 5] = ([3; 1; 4; 0; 6; 2], [5]).
Proof. reflexivity. Qed.

Lemma shares_08_02 (n : nat) :
  n * 8 / 10 + n * 2 / 10 <= n /\ n - (n * 8 / 10 + n * 2 / 10) <= 1.
Proof.
  pose proof (Nat.div_mod_eq (n * 8) 10) as H8.
  pose proof (Nat.div_mod_eq (n * 2) 10) as H2.
  pose proof (Nat.mod_upper_bound (n * 8) 10) as B8.
  pose proof (Nat.mod_upper_bound (n * 2) 10) as B2.
  lia.
Qed.

Lemma split_sizes_08_02 (n : nat) :
  split_sizes n (0.8, 0.2)%Q = (n - n * 2 / 10, n * 2 / 10).
Proof.
  unfold split_sizes. cbn [fst snd].
  rewrite floor_share_08, floor_share_02.
  pose proof (shares_08_02 n). f_equal. lia.
Qed.

Lemma Permutation_seq_NoDup (n : nat) (perm : list nat) :
  Permutation perm (seq 0 n) -> NoDup perm /\ length perm = n.
Proof.
  intros H. split.
  - apply (Permutation_NoDup (Permutation_sym H)), seq_NoDup.
  - rewrite (Permutation_length H). apply length_seq.
Qed.

Lemma NoDup_app_apart {A : Type} (u v : list A) (a : A) :
  NoDup (u ++ v) -> In a u -> ~ In a v.
Proof.
  intros Hnd Hu Hv.
  apply in_split in Hv as (v1 & v2 & ->).
  rewrite app_assoc in Hnd. apply NoDup_remove_2 in Hnd.
  apply Hnd. rewrite <- app_assoc. apply in_or_app. now left.
Qed.

(** C4. Splitting n indices with the ratio pair (0.8, 0.2) along a random
    permutation gives two groups that are disjoint, cover all n indices and
    whose sizes sum to n: the second has the floor of its share, the first
    the floor of its share plus the remainder (at most one); 300 samples
    split into 240 and 60. *)
Theorem random_split_partition (n : nat) (perm : list nat) :
  Permutation perm (seq 0 n) ->
  let train := fst (random_split n (0.8, 0.2)%Q perm) in
  let test := snd (random_split n (0.8, 0.2)%Q perm) in
  let remainder := n - (floor_share n 0.8 + floor_share n 0.2) in
  (forall i, In i train -> ~ In i test) /\
  (forall i, i < n <-> In i train \/ In i test) /\
  NoDup train /\ NoDup test /\
  length train + length test = n /\
  length train = floor_share n 0.8 + remainder /\
  length test = floor_share n 0.2 /\
  remainder <= 1 /\
  (n = 300 -> length train = 240 /\ length test = 60).
Proof.
  intros Hperm train test remainder.
  destruct (Permutation_seq_NoDup n perm Hperm) as [Hnd Hlen].
  pose proof (shares_08_02 n) as [Hle Hrem].
  assert (Htrain : train = firstn (n - n * 2 / 10) perm).
  { unfold train, random_split. now rewrite split_sizes_08_02. }
  assert (Htest : test = skipn (n - n * 2 / 10) perm).
  { unfold test, random_split. rewrite split_sizes_08_02. cbn [snd].
    apply firstn_all2. rewrite length_skipn. lia. }
  assert (Happ : perm = train ++ test).
  { rewrite Htrain, Htest. symmetry. apply firstn_skipn. }
  assert (Hl1 : length train = n - n * 2 / 10).
  { rewrite Htrain, length_firstn. lia. }
  assert (Hl2 : length test = n * 2 / 10).
  { rewrite Htest, length_skipn. lia. }
  rewrite Happ in Hnd.
  unfold remainder. rewrite floor_share_08, floor_share_02.
  repeat split.
  - intros i. now apply NoDup_app_apart.
  - intros Hi. apply in_app_or. rewrite <- Happ.
    apply (Permutation_in _ (Permutation_sym Hperm)), in_seq. lia.
  - intros Hi. assert (Hin : In i perm) by (rewrite Happ; now apply in_or_app).
    apply (Permutation_in _ Hperm), in_seq in Hin. lia.
  - now apply NoDup_app_remove_r in Hnd.
  - now apply NoDup_app_remove_l in Hnd.
  - lia.
  - lia.
  - lia.
  - lia.
  - match goal with H : n = 300 |- _ => rewrite Hl1, H end. reflexivity.
  - match goal with H : n = 300 |- _ => rewrite Hl2, H end. reflexivity.
Qed.

Lemma random_split_partition_witness :
  let perm := rev (seq 0 300) in
  let train := fst (random_split 300 (0.8, 0.2)%Q perm) in
  let test := snd (random_split 300 (0.8, 0.2)%Q perm) in
  let remainder := 300 - (floor_share 300 0.8 + floor_share 300 0.2) in
  (forall i, In i train -> ~ In i test) /\
  (forall i, i < 300 <-> In i train \/ In i test) /\
  NoDup train /\ NoDup test /\
  length train + length test = 300 /\
  length train = floor_share 300 0.8 + remainder /\
  length test = floor_share 300 0.2 /\
  remainder <= 1 /\
  (300 = 300 -> length train = 240 /\ length test = 60).
Proof.
  apply (random_split_partition 300 (rev (seq 0 300))).
  apply Permutation_sym, Permutation_rev.
Defined.

Lemma In_firstn_skipn {A : Type} (a : nat) (l : list A) (x : A) :
  In x (firstn a l) \/ In x (skipn a l) -> In x l.
Proof.
  intros H. rewrite <- (firstn_skipn a l). now apply in_or_app.
Qed.

Lemma Subset_Ok (d : CircleData) (indices : list nat) :
  length (rows (inputs d)) = length (cats d) ->
  Forall (fun i => i < length (cats d)) indices ->
  Subset d indices =
  Ok (map (fun i => (nth i (rows (inputs d)) [], nth i (cats d) 0)) indices).
Proof.
  intros Hlen Hidx. unfold Subset. apply mapM_Ok_map.
  eapply Forall_impl; [|exact Hidx]. intros i Hi. cbv beta in Hi.
  unfold CircleData_getitem.
  rewrite (lookup_lt _ i []) by lia. now rewrite (lookup_lt _ i 0) by lia.
Qed.

(** Lines 111 and 112 of the script: the 300 generated samples are split
    into 240 training and 60 test samples, each a point of two coordinates
    with a label below the number of radii. *)
Lemma script_split (fl : Arith) (g : Generator) (perm : list nat) :
  Permutation perm (seq 0 300) ->
  exists d train_dataset test_dataset,
    make_dataset fl g = Ok d /\
    CircleData_len d = 300 /\
    Subset d (fst (random_split (CircleData_len d) (0.8, 0.2)%Q perm))
    = Ok train_dataset /\
    Subset d (snd (random_split (CircleData_len d) (0.8, 0.2)%Q perm))
    = Ok test_dataset /\
    length train_dataset = 240 /\ length test_dataset = 60 /\
    Forall Sample_ok (train_dataset ++ test_dataset).
Proof.
  intros Hperm.
  assert (E := CircleData_init_Ok fl g radii (50 * n_cats) 0.5%R ltac:(discriminate)).
  set (d := {| inputs := {| ncol := 2;
                            rows := map (drawn_point fl g radii 0.5)
                                      (seq 0 (50 * n_cats)) |};
               cats := map (drawn_cat g radii) (seq 0 (50 * n_cats));
               n_dpt := 50 * n_cats |}) in E.
  assert (Hcats : length (cats d) = 300)
    by (cbn [cats d]; now rewrite length_map, length_seq).
  assert (Hrows : length (rows (inputs d)) = length (cats d))
    by (cbn [cats rows inputs d]; now rewrite !length_map).
  assert (Hin : forall i, In i perm -> i < length (cats d)).
  { intros i Hi. apply (Permutation_in _ Hperm), in_seq in Hi. lia. }
  destruct (Permutation_seq_NoDup 300 perm Hperm) as [_ Hlen].
  exists d. do 2 eexists. split; [exact E|]. split; [reflexivity|].
  change (CircleData_len d) with 300.
  unfold random_split. rewrite split_sizes_08_02.
  change (300 - 300 * 2 / 10) with 240. change (300 * 2 / 10) with 60.
  cbn [fst snd].
  split; [|split; [|split; [|split]]].
  - apply Subset_Ok; [exact Hrows|]. apply Forall_forall. intros i Hi.
    apply Hin, (In_firstn_skipn 240). now left.
  - apply Subset_Ok; [exact Hrows|]. apply Forall_forall. intros i Hi.
    apply Hin, (In_firstn_skipn 240). right.
    apply (In_firstn_skipn 60). now left.
  - rewrite length_map, length_firstn. lia.
  - rewrite length_map, length_firstn, length_skipn. lia.
  - rewrite <- map_app. apply Forall_forall. intros s Hs.
    apply in_map_iff in Hs as (i & <- & Hi). unfold Sample_ok. cbn [fst snd].
    assert (Hi' : i < length (cats d)).
    { apply Hin. apply in_app_or in Hi as [Hi|Hi].
      - apply (In_firstn_skipn 240). now left.
      - apply (In_firstn_skipn 240). right. apply (In_firstn_skipn 60). now left. }
    rewrite Hcats in Hi'. cbn [rows inputs cats d].
    change (50 * n_cats) with 300.
    rewrite (nth_indep _ [] (drawn_point fl g radii 0.5 0))
      by (rewrite length_map, length_seq; lia).
    rewrite (nth_indep _ 0 (drawn_cat g radii 0))
      by (rewrite length_map, length_seq; lia).
    rewrite (map_nth (drawn_point fl g radii 0.5)), (map_nth (drawn_cat g radii)).
    split; [reflexivity|]. apply Nat.mod_upper_bound. discriminate.
Qed.

(** ** The data loader *)

Lemma batched_runs (size : nat) :
  0 < size ->
  forall (fuel : nat) (l : list nat),
    Forall (fun run => run <> [] /\ forall i, In i run -> In i l)
           (batched fuel size l).
Proof.
  intros Hsize. induction fuel as [|fuel IH]; intros l; [constructor|].
  cbn [batched]. destruct l as [|a l]; constructor.
  - split.
    + destruct size; [lia|discriminate].
    + intros i Hi. apply (In_firstn_skipn size). now left.
  - eapply Forall_impl; [|apply IH]. intros run [Hne Hin].
    split; [exact Hne|]. intros i Hi.
    apply (In_firstn_skipn size). right. now apply Hin.
Qed.

Lemma fetch_samples (samples : list (list R * nat)) (indices : list nat) :
  Forall Sample_ok samples ->
  Forall (fun i => i < length samples) indices ->
  indices <> [] ->
  fetch samples indices <> [] /\ Forall Sample_ok (fetch samples indices).
Proof.
  intros Hs Hidx Hne. split.
  - destruct indices as [|i indices]; [congruence|].
    inversion Hidx as [|? ? Hi _]; subst. unfold fetch. cbn [flat_map].
    destruct (nth_error samples i) eqn:E; [discriminate|].
    apply nth_error_None in E. lia.
  - unfold fetch. apply Forall_forall. intros s Hin.
    apply in_flat_map in Hin as (i & _ & Hi).
    destruct (nth_error samples i) eqn:E; [|inversion Hi].
    destruct Hi as [<-|[]]. apply nth_error_In in E.
    rewrite Forall_forall in Hs. now apply Hs.
Qed.

Lemma collate_ok (samples : list (list R * nat)) :
  samples <> [] -> Forall Sample_ok samples ->
  Batch_ok 2 n_cats (collate samples).
Proof.
  intros Hne Hs. destruct samples as [|s samples]; [congruence|].
  unfold Batch_ok, collate, nrow. cbn [fst snd ncol rows].
  split; [|split].
  - inversion Hs as [|? ? [H2 _] _]; subst. exact H2.
  - now rewrite !length_map.
  - apply Forall_forall. intros y Hy. apply in_map_iff in Hy as (s' & <- & Hin).
    rewrite Forall_forall in Hs. now apply Hs.
Qed.

(** A loader over well-formed samples yields well-formed batches. *)
Lemma DataLoader_init_ok (samples : list (list R * nat)) (size : nat)
    (sampler : nat -> list nat) :
  0 < size ->
  Forall Sample_ok samples ->
  (forall k, Forall (fun i => i < length samples) (sampler k)) ->
  forall k, Forall (Batch_ok 2 n_cats)
                   (yields (DataLoader_init samples size sampler) k).
Proof.
  intros Hsize Hs Hidx k. cbn [yields DataLoader_init].
  apply Forall_forall. intros b Hb.
  apply in_map_iff in Hb as (run & <- & Hrun).
  pose proof (batched_runs size Hsize (length (sampler k)) (sampler k)) as Hruns.
  rewrite Forall_forall in Hruns. destruct (Hruns run Hrun) as [Hne Hin].
  destruct (fetch_samples samples run Hs) as [Hf1 Hf2]; [|exact Hne|].
  - apply Forall_forall. intros i Hi.
    specialize (Hidx k). rewrite Forall_forall in Hidx. now apply Hidx, Hin.
  - now apply collate_ok.
Qed.

Example batched_240 :
  map (@length nat) (batched 240 batch_size (seq 0 240)) = [64; 64; 64; 48].
Proof. vm_compute. reflexivity. Qed.

(** ** Shapes of parameters and gradients *)

Lemma length_vzip (f : R -> R -> R) (u v : list R) :
  length v = length u -> length (vzip f u v) = length u.
Proof.
  intros H. unfold vzip. rewrite length_map, length_combine. lia.
Qed.

Lemma mshape_mzip (f : R -> R -> R) (a b : list (list R)) :
  mshape b = mshape a -> mshape (mzip f a b) = mshape a.
Proof.
  revert b; induction a as [|u a IH]; intros [|v b] H; simpl in *;
    try reflexivity; try discriminate.
  injection H as Huv Hab. f_equal.
  - now apply length_vzip.
  - now apply IH.
Qed.

Lemma vzip_zero_l (u v : list R) :
  length u = length v -> vzip Rplus (map (fun _ => 0%R) u) v = v.
Proof.
  revert v; induction u as [|x u IH]; intros [|y v] H; simpl in *;
    try reflexivity; try discriminate.
  unfold vzip in *. simpl. rewrite IH by lia. f_equal. lra.
Qed.

Lemma mzip_zero_l (a b : list (list R)) :
  mshape a = mshape b ->
  mzip Rplus (map (map (fun _ => 0%R)) a) b = b.
Proof.
  revert b; induction a as [|u a IH]; intros [|v b] H; simpl in *;
    try reflexivity; try discriminate.
  injection H as Huv Hab.
  unfold mzip in *. simpl. rewrite IH by assumption.
  now rewrite vzip_zero_l.
Qed.

Lemma Grads_add_zero (a g : Grads) (m : Sequential) :
  Grads_fit a m -> Grads_fit g m -> Grads_add (Grads_zero a) g = g.
Proof.
  intros [[Ha1 Ha2] [Ha3 Ha4]] [[Hg1 Hg2] [Hg3 Hg4]].
  destruct g as [[gw1 gb1] [gw2 gb2]]; simpl in *.
  unfold Grads_add, Grads_zero, LinearGrad_zip, LinearGrad_zero; simpl.
  rewrite !mzip_zero_l, !vzip_zero_l by congruence.
  reflexivity.
Qed.

Lemma Linear_update_ok (rate : R) (l : Linear) (g : LinearGrad) :
  Linear_ok l -> LinearGrad_fits g l -> Linear_ok (Linear_update rate l g).
Proof.
  intros [Hw Hb] [Gw Gb]. split; simpl.
  - now rewrite mshape_mzip.
  - now rewrite length_vzip.
Qed.

Lemma Linear_update_shape (rate : R) (l : Linear) (g : LinearGrad) :
  LinearGrad_fits g l ->
  mshape (weight (Linear_update rate l g)) = mshape (weight l) /\
  length (bias (Linear_update rate l g)) = length (bias l).
Proof.
  intros [Gw Gb]. split; simpl.
  - now rewrite mshape_mzip.
  - now rewrite length_vzip.
Qed.

Lemma sgd_update_ok (rate : R) (m : Sequential) (g : Grads) :
  Sequential_ok m -> Grads_fit g m -> Sequential_ok (sgd_update rate m g).
Proof.
  intros (H1 & H2 & H12) [G1 G2]. repeat split; simpl;
    try (now apply Linear_update_ok); try apply Linear_update_ok;
    try assumption.
Qed.

Lemma sgd_update_features (rate : R) (m : Sequential) (g : Grads) :
  in_features (fc1 (sgd_update rate m g)) = in_features (fc1 m) /\
  out_features (fc2 (sgd_update rate m g)) = out_features (fc2 m).
Proof. split; reflexivity. Qed.

Lemma Grads_fit_update (rate : R) (m : Sequential) (g a : Grads) :
  Grads_fit g m -> Grads_fit a m -> Grads_fit a (sgd_update rate m g).
Proof.
  intros [G1 G2] [[A1 A2] [A3 A4]].
  destruct (Linear_update_shape rate _ _ G1) as [S1 S2].
  destruct (Linear_update_shape rate _ _ G2) as [S3 S4].
  unfold Grads_fit, LinearGrad_fits. cbn [sgd_update fc1 fc2].
  rewrite S1, S2, S3, S4. tauto.
Qed.

Lemma mshape_init (f : nat -> nat -> R) (i : nat) (l : list nat) :
  mshape (map (fun r => map (f r) (seq 0 i)) l) = repeat i (length l).
Proof.
  induction l as [|r l IH]; simpl; [reflexivity|].
  now rewrite length_map, length_seq, IH.
Qed.

Lemma nn_Linear_ok (i o : nat) (w0 : nat -> nat -> R) (b0 : nat -> R) :
  Linear_ok (nn_Linear i o w0 b0).
Proof.
  split; simpl.
  - now rewrite mshape_init, length_seq.
  - now rewrite length_map, length_seq.
Qed.

Lemma make_model_ok w1 b1 w2 b2 :
  Sequential_ok (make_model w1 b1 w2 b2) /\
  in_features (fc1 (make_model w1 b1 w2 b2)) = 2 /\
  out_features (fc2 (make_model w1 b1 w2 b2)) = n_cats.
Proof.
  repeat split; try apply nn_Linear_ok.
Qed.

Lemma ridge_autograd_fits (m : Sequential) (x : Tensor2) (y : list nat) :
  Grads_fit (ridge_autograd m x y) m.
Proof. repeat split. Qed.

(** ** The forward pass and the loss *)

Lemma length_affine (l : Linear) (x : list R) :
  Linear_ok l -> length (affine l x) = out_features l.
Proof.
  intros [Hw Hb]. unfold affine.
  rewrite length_map, length_combine.
  assert (length (weight l) = out_features l).
  { rewrite <- (length_map (@length R)). fold (mshape (weight l)).
    now rewrite Hw, repeat_length. }
  lia.
Qed.

Lemma Sequential_forward_Ok (m : Sequential) (x : Tensor2) :
  Sequential_ok m -> ncol x = in_features (fc1 m) ->
  Sequential_forward m x =
  Ok {| ncol := out_features (fc2 m); rows := map (score_row m) (rows x) |}.
Proof.
  intros (_ & _ & H12) Hx. unfold Sequential_forward, Linear_forward.
  rewrite Hx, Nat.eqb_refl. simpl. rewrite H12, Nat.eqb_refl.
  now rewrite !map_map.
Qed.

Lemma length_score_row (m : Sequential) (x : list R) :
  Sequential_ok m -> length (score_row m x) = out_features (fc2 m).
Proof.
  intros (_ & H2 & _). now apply length_affine.
Qed.

Lemma nll_row_Ok (r : list R) (y : nat) :
  y < length r -> nll_row r y = Ok (- ln (nth y (softmax_row r) 0))%R.
Proof.
  intros H. unfold nll_row.
  rewrite (lookup_lt _ y 0%R) by now rewrite softmax_row_length.
  reflexivity.
Qed.

Lemma CrossEntropyLoss_Ok (pred : Tensor2) (labels : list nat) :
  well_shaped pred -> nrow pred = length labels ->
  Forall (fun y => y < ncol pred) labels ->
  exists v, CrossEntropyLoss pred labels = Ok v.
Proof.
  intros Hws Hn Hl. unfold CrossEntropyLoss.
  rewrite Hn, Nat.eqb_refl.
  rewrite (mapM_Ok_map _
             (fun ry => (- ln (nth (snd ry) (softmax_row (fst ry)) 0))%R)).
  - simpl. eauto.
  - apply Forall_forall. intros [r y] Hin. simpl.
    apply nll_row_Ok.
    pose proof (in_combine_l _ _ _ _ Hin) as Hr.
    pose proof (in_combine_r _ _ _ _ Hin) as Hy.
    unfold well_shaped in Hws. rewrite Forall_forall in Hws, Hl.
    rewrite (Hws r Hr). now apply Hl.
Qed.

(** ** The training loop *)

Lemma sgd_pass_app autograd rate m (u v : list Batch) :
  sgd_pass autograd rate m (u ++ v) =
  sgd_pass autograd rate (sgd_pass autograd rate m u) v.
Proof. apply fold_left_app. Qed.

Lemma last_grad_last autograd rate m old (before : list Batch) (b : Batch) :
  last_grad autograd rate m old (before ++ [b]) =
  Some (autograd (sgd_pass autograd rate m before) (fst b) (snd b)).
Proof.
  revert m old; induction before as [|a before IH]; intros m old; simpl.
  - reflexivity.
  - apply IH.
Qed.

(** ** Panels *)

Example subplot_grid : (n_ax, n_row, n_col) = (6, 2, 3).
Proof. reflexivity. Qed.

Example panel_titles :
  map (fun e => ("Epoch " ++ str e)%string) epochs_to_plot =
  ["Epoch 0"; "Epoch 10"; "Epoch 20"; "Epoch 50"; "Epoch 100"; "Epoch 500"]%string.
Proof. reflexivity. Qed.

Example default_palette_rgb :
  mapM to_rgb (firstn n_cats default_cols) = Ok script_palette.
Proof. reflexivity. Qed.

Lemma plot_ax_title (x y : list (list R)) (mesh_pred : Tensor2) (title : string)
    (trn_dset tst_dset : list (list R * nat)) (alpha : R) (cols : list string)
    (ax : Axes) :
  plot_ax x y mesh_pred title trn_dset tst_dset alpha cols = Ok ax ->
  ax_title ax = title.
Proof.
  unfold plot_ax.
  destruct (mapM to_rgb _); cbn [rbind]; [|discriminate].
  destruct (matmul_rgb _ _); cbn [rbind]; [|discriminate].
  destruct (reshape_grid _ _); cbn [rbind]; [|discriminate].
  destruct (add_scatter trn_dset _ _); cbn [rbind]; [|discriminate].
  destruct (add_scatter tst_dset _ _); cbn [rbind]; [|discriminate].
  intros H. now injection H as <-.
Qed.

Lemma figure_titles (x y : list (list R)) (preds : list Tensor2)
    (train_dataset test_dataset : list (list R * nat)) (axes : list Axes) :
  figure x y preds train_dataset test_dataset = Ok axes ->
  map ax_title axes =
  map (fun p => ("Epoch " ++ str (snd p))%string) (panels preds).
Proof.
  unfold figure. intros H. apply mapM_Ok_Forall2 in H.
  induction H as [|p ax ps axs Hp _ IH]; [reflexivity|].
  cbn [map]. rewrite IH. f_equal. eapply plot_ax_title; exact Hp.
Qed.

Section Training.

Variable autograd : Sequential -> Tensor2 -> list nat -> Grads.
Variable set_to_none : bool.

(** The backend returns, for every parameter, a gradient of its shape. *)
Hypothesis autograd_fits :
  forall m x y, Sequential_ok m -> Grads_fit (autograd m x y) m.

(** After [zero_grad] and [backward], [.grad] holds the gradient of the
    loss just computed, whatever it held before. *)
Lemma fresh_grad (w : World) (x : Tensor2) (y : list nat) :
  World_ok w ->
  match (if set_to_none then None else option_map Grads_zero (grad w)) with
  | None => Some (autograd (model w) x y)
  | Some a => Some (Grads_add a (autograd (model w) x y))
  end = Some (autograd (model w) x y).
Proof.
  intros [Hm Hg]. destruct set_to_none; [reflexivity|].
  destruct (grad w) as [a|]; simpl; [|reflexivity].
  f_equal. apply (Grads_add_zero a _ (model w)); auto.
Qed.

Lemma forward_batch (m : Sequential) (b : Batch) :
  Sequential_ok m ->
  Batch_ok (in_features (fc1 m)) (out_features (fc2 m)) b ->
  Sequential_forward m (fst b) =
    Ok {| ncol := out_features (fc2 m);
          rows := map (score_row m) (rows (fst b)) |} /\
  CrossEntropyLoss {| ncol := out_features (fc2 m);
                      rows := map (score_row m) (rows (fst b)) |} (snd b)
    = Ok (loss_value m b).
Proof.
  intros Hm (Hx & Hn & Hy).
  pose proof (Sequential_forward_Ok m (fst b) Hm Hx) as Hf.
  split; [assumption|].
  destruct (CrossEntropyLoss_Ok
              {| ncol := out_features (fc2 m);
                 rows := map (score_row m) (rows (fst b)) |} (snd b))
    as [v Hv].
  - apply Forall_forall. intros r Hr. apply in_map_iff in Hr as (x & <- & _).
    now apply length_score_row.
  - unfold nrow in *. simpl. now rewrite length_map.
  - exact Hy.
  - rewrite Hv. unfold loss_value, batch_loss. now rewrite Hf; simpl; rewrite Hv.
Qed.

Lemma train_batch_spec (size : nat) (opt : SGD) (verbose : bool) (i : nat)
    (b : Batch) (w : World) :
  World_ok w ->
  Batch_ok (in_features (fc1 (model w))) (out_features (fc2 (model w))) b ->
  train_batch autograd set_to_none size opt verbose i b w =
  Ok (tt, {| model := sgd_batch autograd (lr opt) (model w) b;
             grad := Some (autograd (model w) (fst b) (snd b));
             shuffles := shuffles w;
             stdout := stdout w ++
                       if (i mod 100 =? 0) && verbose then
                         [ {| log_loss := loss_value (model w) b;
                              log_current := (i + 1) * nrow (fst b);
                              log_size := size |} ]
                       else [] |}).
Proof.
  intros Hw Hb. destruct (forward_batch _ _ (proj1 Hw) Hb) as [Hf Hl].
  destruct b as [x y]. cbn [fst snd] in *.
  unfold train_batch, bind, model_call. rewrite Hf.
  unfold loss_fn, lift. cbn [scores scores_from fst snd]. rewrite Hl.
  cbn [rbind]. unfold zero_grad, backward, optimizer_step.
  cbn [loss_from model grad shuffles stdout item].
  rewrite (fresh_grad w x y Hw).
  unfold sgd_batch. cbn [fst snd].
  destruct ((i mod 100 =? 0) && verbose); unfold print, ret;
    cbn [model grad shuffles stdout].
  - reflexivity.
  - now rewrite app_nil_r.
Qed.

Lemma train_batch_keeps_ok (opt : SGD) (b : Batch) (w : World) :
  World_ok w ->
  World_ok {| model := sgd_batch autograd (lr opt) (model w) b;
              grad := Some (autograd (model w) (fst b) (snd b));
              shuffles := shuffles w;
              stdout := stdout w |}.
Proof.
  intros [Hm Hg]. pose proof (autograd_fits _ (fst b) (snd b) Hm) as Hfit.
  split; cbn [model grad]; unfold sgd_batch.
  - now apply sgd_update_ok.
  - now apply Grads_fit_update.
Qed.

Lemma for_enumerate_spec (size : nat) (opt : SGD) (verbose : bool)
    (batches : list Batch) :
  forall (i : nat) (w : World),
    World_ok w ->
    Forall (Batch_ok (in_features (fc1 (model w))) (out_features (fc2 (model w))))
           batches ->
    for_enumerate (train_batch autograd set_to_none size opt verbose) i batches w =
    Ok (tt, {| model := sgd_pass autograd (lr opt) (model w) batches;
               grad := last_grad autograd (lr opt) (model w) (grad w) batches;
               shuffles := shuffles w;
               stdout := stdout w ++
                         if verbose then
                           log_from autograd (lr opt) size i (model w) batches
                         else [] |}).
Proof.
  induction batches as [|b rest IH]; intros i w Hw Hbs.
  - destruct w, verbose; cbn; unfold ret; rewrite app_nil_r; reflexivity.
  - inversion Hbs as [|? ? Hb Hrest]; subst.
    cbn [for_enumerate]. unfold bind at 1.
    rewrite (train_batch_spec size opt verbose i b w Hw Hb).
    pose proof (train_batch_keeps_ok opt b w Hw) as Hw'.
    set (w1 := {| model := sgd_batch autograd (lr opt) (model w) b;
                  grad := Some (autograd (model w) (fst b) (snd b));
                  shuffles := shuffles w;
                  stdout := stdout w ++
                            (if (i mod 100 =? 0) && verbose
                             then [ {| log_loss := loss_value (model w) b;
                                       log_current := (i + 1) * nrow (fst b);
                                       log_size := size |} ]
                             else []) |}).
    assert (Hw1 : World_ok w1) by exact Hw'.
    rewrite (IH (S i) w1 Hw1) by exact Hrest.
    cbn [model grad shuffles stdout w1 sgd_pass fold_left last_grad log_from].
    do 3 f_equal.
    destruct verbose, (i mod 100 =? 0); cbn [andb];
      now rewrite <- ?app_assoc, ?app_nil_r.
Qed.

(** One call of [train_loop] from a state in which training can proceed. *)
Lemma train_loop_spec (dl : DataLoader) (opt : SGD) (verbose : bool) (w : World) :
  World_ok w ->
  Forall (Batch_ok (in_features (fc1 (model w))) (out_features (fc2 (model w))))
         (yields dl (shuffles w)) ->
  train_loop autograd set_to_none dl opt verbose w =
  Ok (tt, {| model := sgd_pass autograd (lr opt) (model w) (yields dl (shuffles w));
             grad := last_grad autograd (lr opt) (model w) (grad w)
                       (yields dl (shuffles w));
             shuffles := S (shuffles w);
             stdout := stdout w ++
                       if verbose then
                         log_from autograd (lr opt) (dataset_size dl) 0 (model w)
                           (yields dl (shuffles w))
                       else [] |}).
Proof.
  intros Hw Hbs. unfold train_loop, bind, iter_dataloader.
  rewrite for_enumerate_spec; [reflexivity|exact Hw|exact Hbs].
Qed.

Lemma sgd_pass_ok (rate : R) (batches : list Batch) :
  forall m, Sequential_ok m ->
    Sequential_ok (sgd_pass autograd rate m batches) /\
    in_features (fc1 (sgd_pass autograd rate m batches)) = in_features (fc1 m) /\
    out_features (fc2 (sgd_pass autograd rate m batches)) = out_features (fc2 m).
Proof.
  induction batches as [|b rest IH]; intros m Hm;
    [split; [exact Hm|split; reflexivity]|].
  cbn [sgd_pass fold_left].
  assert (H1 : Sequential_ok (sgd_batch autograd rate m b))
    by (apply sgd_update_ok; auto).
  destruct (IH _ H1) as (Hok & Hi & Ho).
  split; [exact Hok|split; [exact Hi|exact Ho]].
Qed.

Lemma last_grad_fits (rate : R) (batches : list Batch) :
  forall m old,
    Sequential_ok m ->
    match old with None => True | Some a => Grads_fit a m end ->
    match last_grad autograd rate m old batches with
    | None => True
    | Some a => Grads_fit a (sgd_pass autograd rate m batches)
    end.
Proof.
  induction batches as [|b rest IH]; intros m old Hm Hold; [exact Hold|].
  cbn [last_grad sgd_pass fold_left].
  pose proof (autograd_fits _ (fst b) (snd b) Hm) as Hfit.
  apply IH.
  - now apply sgd_update_ok.
  - now apply Grads_fit_update.
Qed.

Lemma filter_map_swap {A B : Type} (p : B -> bool) (f : A -> B) (l : list A) :
  filter p (map f l) = map f (filter (fun a => p (f a)) l).
Proof.
  induction l as [|a l IH]; simpl; [reflexivity|].
  destruct (p (f a)); simpl; now rewrite IH.
Qed.

Lemma log_from_indices (rate : R) (size : nat) (batches : list Batch) :
  forall (i0 : nat) (m : Sequential),
    log_from autograd rate size i0 m batches =
    map (fun k =>
           let b := nth k batches ({| ncol := 0; rows := [] |}, []) in
           {| log_loss := loss_value (sgd_pass autograd rate m (firstn k batches)) b;
              log_current := (i0 + k + 1) * nrow (fst b);
              log_size := size |})
        (filter (fun k => (i0 + k) mod 100 =? 0) (seq 0 (length batches))).
Proof.
  induction batches as [|b rest IH]; intros i0 m; [reflexivity|].
  cbn [log_from length seq]. rewrite <- seq_shift.
  cbn [filter]. rewrite filter_map_swap, Nat.add_0_r, IH.
  assert (Htail :
    map (fun k =>
           let b0 := nth k rest ({| ncol := 0; rows := [] |}, []) in
           {| log_loss :=
                loss_value
                  (sgd_pass autograd rate (sgd_batch autograd rate m b)
                     (firstn k rest)) b0;
              log_current := (S i0 + k + 1) * nrow (fst b0);
              log_size := size |})
        (filter (fun k => (S i0 + k) mod 100 =? 0) (seq 0 (length rest))) =
    map (fun k =>
           let b0 := nth k (b :: rest) ({| ncol := 0; rows := [] |}, []) in
           {| log_loss :=
                loss_value (sgd_pass autograd rate m (firstn k (b :: rest))) b0;
              log_current := (i0 + k + 1) * nrow (fst b0);
              log_size := size |})
        (map S (filter (fun a => (i0 + S a) mod 100 =? 0) (seq 0 (length rest))))).
  { rewrite map_map.
    rewrite (filter_ext (fun k => (S i0 + k) mod 100 =? 0)
                        (fun a => (i0 + S a) mod 100 =? 0)).
    - apply map_ext. intros k. cbn [nth firstn sgd_pass fold_left].
      now replace (i0 + S k + 1) with (S i0 + k + 1) by lia.
    - intros k. now replace (i0 + S k) with (S i0 + k) by lia. }
  rewrite Htail.
  destruct (i0 mod 100 =? 0); cbn [map app nth firstn sgd_pass fold_left fst];
    now rewrite ?Nat.add_0_r.
Qed.

Lemma log_from_printed (rate : R) (size : nat) (m : Sequential)
    (batches : list Batch) :
  log_from autograd rate size 0 m batches = printed autograd rate size m batches.
Proof. apply log_from_indices. Qed.

(** C1. A call of [train_loop] on a loader that yields finitely many
    well-formed batches runs through them in order; on each batch the model
    is called on the inputs and the cross-entropy loss taken against the
    labels, the stored gradients are reset, the gradient of this loss alone
    is stored, and one optimizer step moves the parameters along it.  So the
    parameters after the call are those of the gradient-descent recurrence
    [sgd_pass], [.grad] holds the gradient of the last batch only, and
    neither depends on what [.grad] held before. *)
Theorem train_loop_refines_sgd (dl : DataLoader) (opt : SGD) (verbose : bool)
    (w : World) :
  World_ok w ->
  Forall (Batch_ok (in_features (fc1 (model w))) (out_features (fc2 (model w))))
         (yields dl (shuffles w)) ->
  (forall size i b w1,
      World_ok w1 ->
      Batch_ok (in_features (fc1 (model w1))) (out_features (fc2 (model w1))) b ->
      exists pred loss w2,
        Sequential_forward (model w1) (fst b) = Ok pred /\
        CrossEntropyLoss pred (snd b) = Ok loss /\
        train_batch autograd set_to_none size opt verbose i b w1 = Ok (tt, w2) /\
        grad w2 = Some (autograd (model w1) (fst b) (snd b)) /\
        model w2 = sgd_update (lr opt) (model w1)
                     (autograd (model w1) (fst b) (snd b))) /\
  (exists w',
      train_loop autograd set_to_none dl opt verbose w = Ok (tt, w') /\
      model w' = fold_left
                   (fun m b => sgd_update (lr opt) m (autograd m (fst b) (snd b)))
                   (yields dl (shuffles w)) (model w) /\
      grad w' = last_grad autograd (lr opt) (model w) (grad w)
                  (yields dl (shuffles w)) /\
      (forall before b, yields dl (shuffles w) = before ++ [b] ->
         grad w' = Some (autograd (sgd_pass autograd (lr opt) (model w) before)
                           (fst b) (snd b))) /\
      World_ok w' /\
      forall w0,
        World_ok w0 -> model w0 = model w -> shuffles w0 = shuffles w ->
        exists w0',
          train_loop autograd set_to_none dl opt verbose w0 = Ok (tt, w0') /\
          model w0' = model w').
Proof.
  intros Hw Hbs. split.
  - intros size i b w1 Hw1 Hb.
    destruct (forward_batch _ _ (proj1 Hw1) Hb) as [Hf Hl].
    do 3 eexists. split; [exact Hf|]. split; [exact Hl|].
    split; [now apply train_batch_spec|]. split; reflexivity.
  - eexists. split; [now apply train_loop_spec|].
    cbn [model grad]. split; [reflexivity|]. split; [reflexivity|].
    split; [|split].
    + intros before b ->. apply last_grad_last.
    + destruct Hw as [Hm Hg].
      destruct (sgd_pass_ok (lr opt) (yields dl (shuffles w)) _ Hm) as (Hok & _).
      split; [exact Hok|].
      now apply last_grad_fits.
    + intros w0 Hw0 Hm0 Hs0. eexists. split.
      * apply train_loop_spec; [exact Hw0|]. now rewrite Hm0, Hs0.
      * cbn [model]. now rewrite Hm0, Hs0.
Qed.

(** C9. From the same state, [train_loop] with and without [verbose] ends
    with the same parameters, gradients and generator position; the quiet
    call prints nothing, the verbose one prints the loss (with [current] and
    [size]) for exactly the batches whose index is a multiple of 100. *)
Theorem verbose_only_prints (dl : DataLoader) (opt : SGD) (w : World) :
  World_ok w ->
  Forall (Batch_ok (in_features (fc1 (model w))) (out_features (fc2 (model w))))
         (yields dl (shuffles w)) ->
  exists quiet loud,
    train_loop autograd set_to_none dl opt false w = Ok (tt, quiet) /\
    train_loop autograd set_to_none dl opt true w = Ok (tt, loud) /\
    model loud = model quiet /\
    grad loud = grad quiet /\
    shuffles loud = shuffles quiet /\
    stdout quiet = stdout w /\
    stdout loud =
      stdout w ++
      map (log_line autograd (lr opt) (dataset_size dl) (model w)
             (yields dl (shuffles w)))
          (filter (fun i => i mod 100 =? 0)
                  (seq 0 (length (yields dl (shuffles w))))).
Proof.
  intros Hw Hbs. do 2 eexists.
  split; [now apply train_loop_spec|].
  split; [now apply train_loop_spec|].
  cbn [model grad shuffles stdout].
  rewrite app_nil_r, log_from_printed. now repeat split.
Qed.

(** ** Epochs and stored fields *)

Lemma predict_spec (mesh : Tensor2) (w : World) :
  predict mesh w =
  match evaluate (model w) mesh with
  | Ok p => Ok (p, w)
  | Raise e => Raise e
  end.
Proof.
  unfold predict, bind, model_call, evaluate.
  destruct (Sequential_forward (model w) mesh); reflexivity.
Qed.

Lemma evaluate_Ok (m : Sequential) (mesh : Tensor2) :
  Sequential_ok m -> ncol mesh = in_features (fc1 m) ->
  evaluate m mesh = Ok (field_of m mesh).
Proof.
  intros Hm Hx. unfold evaluate.
  now rewrite (Sequential_forward_Ok m mesh Hm Hx).
Qed.

Lemma model_after_shift (dl : DataLoader) (k : nat) (m : Sequential) (j : nat) :
  model_after autograd dl (S k)
    (sgd_pass autograd learning_rate m (yields dl k)) j =
  model_after autograd dl k m (S j).
Proof.
  induction j as [|j IH].
  - cbn [model_after]. now rewrite Nat.add_0_r.
  - cbn [model_after] in *. rewrite IH.
    now replace (S k + j) with (k + S j) by lia.
Qed.

Lemma model_after_ok (dl : DataLoader) (k : nat) (m : Sequential) (e : nat) :
  Sequential_ok m ->
  Sequential_ok (model_after autograd dl k m e) /\
  in_features (fc1 (model_after autograd dl k m e)) = in_features (fc1 m) /\
  out_features (fc2 (model_after autograd dl k m e)) = out_features (fc2 m).
Proof.
  intros Hm. induction e as [|e (IH & Hi & Ho)];
    [split; [exact Hm|split; reflexivity]|].
  cbn [model_after].
  destruct (sgd_pass_ok learning_rate (yields dl (k + e)) _ IH) as (H1 & H2 & H3).
  split; [exact H1|]. split; congruence.
Qed.

Lemma epochs_spec (dl : DataLoader) (mesh : Tensor2) (din dout : nat) :
  (forall k, Forall (Batch_ok din dout) (yields dl k)) ->
  ncol mesh = din ->
  forall (n t : nat) (acc : list Tensor2) (w : World),
    World_ok w ->
    in_features (fc1 (model w)) = din ->
    out_features (fc2 (model w)) = dout ->
    exists w',
      for_range (epoch autograd set_to_none dl mesh) (seq t n) acc w =
      Ok (acc ++
          map (fun e => field_of (model_after autograd dl (shuffles w) (model w) (e - t))
                          mesh)
              (filter to_plot (seq (S t) n)),
          w') /\
      World_ok w' /\
      model w' = model_after autograd dl (shuffles w) (model w) n /\
      shuffles w' = shuffles w + n /\
      stdout w' = stdout w.
Proof.
  intros Hdl Hmesh. induction n as [|n IH]; intros t acc w Hw Hin Hout.
  - exists w. cbn. unfold ret. rewrite app_nil_r, Nat.add_0_r.
    split; [reflexivity|]. split; [exact Hw|]. now repeat split.
  - cbn [seq for_range]. unfold bind at 1. unfold epoch at 1. unfold bind at 1.
    assert (Hbs : Forall (Batch_ok (in_features (fc1 (model w)))
                                   (out_features (fc2 (model w))))
                         (yields dl (shuffles w)))
      by (rewrite Hin, Hout; apply Hdl).
    rewrite (train_loop_spec dl optimizer false w Hw Hbs).
    cbn [lr optimizer]. rewrite app_nil_r.
    set (w1 := {| model := sgd_pass autograd learning_rate (model w)
                             (yields dl (shuffles w));
                  grad := last_grad autograd learning_rate (model w) (grad w)
                            (yields dl (shuffles w));
                  shuffles := S (shuffles w);
                  stdout := stdout w |}).
    destruct Hw as [Hm Hg].
    destruct (sgd_pass_ok learning_rate (yields dl (shuffles w)) _ Hm)
      as (Hm1 & Hin1 & Hout1).
    assert (Hw1 : World_ok w1).
    { split; [exact Hm1|]. now apply last_grad_fits. }
    assert (Hshift : forall j,
               model_after autograd dl (shuffles w1) (model w1) j =
               model_after autograd dl (shuffles w) (model w) (S j))
      by (intros j; apply model_after_shift).
    assert (Htail : forall acc',
      exists w',
        for_range (epoch autograd set_to_none dl mesh) (seq (S t) n) acc' w1 =
        Ok (acc' ++
            map (fun e => field_of
                            (model_after autograd dl (shuffles w) (model w) (e - t))
                            mesh)
                (filter to_plot (seq (S (S t)) n)), w') /\
        World_ok w' /\
        model w' = model_after autograd dl (shuffles w) (model w) (S n) /\
        shuffles w' = shuffles w + S n /\
        stdout w' = stdout w).
    { intros acc'.
      destruct (IH (S t) acc' w1 Hw1) as (w' & Hrun & Hok & Hmod & Hsh & Hout');
        [cbn [model w1]; congruence | cbn [model w1]; congruence|].
      exists w'. rewrite Hrun. split; [|split; [exact Hok|]].
      - do 3 f_equal. apply map_ext_in. intros e He.
        apply filter_In in He as [He _]. apply in_seq in He.
        rewrite Hshift. f_equal. f_equal. lia.
      - rewrite Hmod, Hshift. cbn [shuffles w1 stdout] in *.
        repeat split; [lia|assumption]. }
    replace (t + 1) with (S t) by lia.
    cbn [filter]. fold (to_plot (S t)).
    destruct (to_plot (S t)).
    + unfold bind at 1. rewrite predict_spec.
      rewrite (evaluate_Ok (model w1) mesh Hm1) by (cbn [model w1]; congruence).
      unfold ret at 1.
      destruct (Htail (acc ++ [field_of (model w1) mesh]))
        as (w' & Hrun & Hrest).
      exists w'. rewrite Hrun. split; [|exact Hrest].
      rewrite <- app_assoc. cbn [map app].
      replace (S t - t) with 1 by lia.
      cbn [model_after]. now rewrite Nat.add_0_r.
    + unfold ret at 1. apply Htail.
Qed.

Lemma train_epochs_spec (dl : DataLoader) (din dout : nat) (w : World) :
  (forall k, Forall (Batch_ok din dout) (yields dl k)) ->
  World_ok w ->
  in_features (fc1 (model w)) = din ->
  out_features (fc2 (model w)) = dout ->
  forall e,
    exists we,
      train_epochs autograd set_to_none dl e w = Ok (tt, we) /\
      World_ok we /\
      model we = model_after autograd dl (shuffles w) (model w) e /\
      shuffles we = shuffles w + e /\
      stdout we = stdout w.
Proof.
  intros Hdl Hw Hin Hout. induction e as [|e (we & Hrun & Hok & Hmod & Hsh & Hso)].
  - exists w. cbn. unfold ret. rewrite Nat.add_0_r.
    split; [reflexivity|]. split; [exact Hw|]. now repeat split.
  - cbn [train_epochs]. unfold bind. rewrite Hrun.
    destruct (model_after_ok dl (shuffles w) (model w) e (proj1 Hw))
      as (_ & Hi & Ho).
    rewrite train_loop_spec; [|exact Hok|].
    + eexists. split; [reflexivity|]. cbn [model grad shuffles stdout lr optimizer].
      destruct Hok as [Hm Hg].
      destruct (sgd_pass_ok learning_rate (yields dl (shuffles we)) _ Hm) as (H1 & _).
      split; [split; [exact H1|now apply last_grad_fits]|].
      rewrite Hmod, Hsh, Hso, app_nil_r. cbn [model_after].
      repeat split; lia.
    + rewrite Hmod, Hi, Ho, Hin, Hout. apply Hdl.
Qed.

Lemma to_plot_epochs : filter to_plot (seq 1 n_epochs) = [10; 20; 50; 100; 500].
Proof. vm_compute. reflexivity. Qed.

Lemma training_spec (dl : DataLoader) (mesh : Tensor2) (w : World) :
  (forall k, Forall (Batch_ok (in_features (fc1 (model w)))
                              (out_features (fc2 (model w)))) (yields dl k)) ->
  ncol mesh = in_features (fc1 (model w)) ->
  World_ok w ->
  exists w',
    training autograd set_to_none dl mesh w =
    Ok (map (fun e => field_of (model_after autograd dl (shuffles w) (model w) e) mesh)
            epochs_to_plot, w') /\
    World_ok w' /\
    model w' = model_after autograd dl (shuffles w) (model w) n_epochs /\
    shuffles w' = shuffles w + n_epochs /\
    stdout w' = stdout w.
Proof.
  intros Hdl Hmesh Hw. unfold training, bind.
  rewrite predict_spec, (evaluate_Ok _ mesh (proj1 Hw) Hmesh).
  destruct (epochs_spec dl mesh _ _ Hdl Hmesh n_epochs 0
              [field_of (model w) mesh] w Hw eq_refl eq_refl)
    as (w' & Hrun & Hrest).
  exists w'. split; [|exact Hrest].
  rewrite Hrun, to_plot_epochs. do 2 f_equal.
Qed.

Lemma Forall2_map_self {A B : Type} (P : A -> B -> Prop) (f : A -> B) (l : list A) :
  (forall a, In a l -> P a (f a)) -> Forall2 P l (map f l).
Proof.
  induction l as [|a l IH]; intros H; simpl; constructor.
  - apply H. now left.
  - apply IH. intros b Hb. apply H. now right.
Qed.

(** The stored fields, one per epoch to plot: each is what [predict] returns
    in the state reached by that many calls of [train_loop]. *)
Lemma training_fields (dl : DataLoader) (mesh : Tensor2) (w : World) :
  (forall k, Forall (Batch_ok (in_features (fc1 (model w)))
                              (out_features (fc2 (model w)))) (yields dl k)) ->
  ncol mesh = in_features (fc1 (model w)) ->
  World_ok w ->
  exists preds w',
    training autograd set_to_none dl mesh w = Ok (preds, w') /\
    Forall2 (fun e p =>
               exists we,
                 train_epochs autograd set_to_none dl e w = Ok (tt, we) /\
                 predict mesh we = Ok (p, we) /\
                 Sequential_ok (model we) /\
                 out_features (fc2 (model we)) = out_features (fc2 (model w)) /\
                 p = field_of (model we) mesh)
            epochs_to_plot preds.
Proof.
  intros Hdl Hmesh Hw.
  destruct (training_spec dl mesh w Hdl Hmesh Hw) as (w' & Hrun & _).
  do 2 eexists. split; [exact Hrun|].
  apply Forall2_map_self. intros e _.
  destruct (train_epochs_spec dl _ _ w Hdl Hw eq_refl eq_refl e)
    as (we & He & Hok & Hmod & _).
  destruct (model_after_ok dl (shuffles w) (model w) e (proj1 Hw))
    as (Hm & Hi & Ho).
  exists we. rewrite Hmod. split; [exact He|].
  split; [|split; [exact Hm|split; [exact Ho|reflexivity]]].
  rewrite predict_spec, Hmod, evaluate_Ok; [reflexivity|exact Hm|congruence].
Qed.

Lemma panels_all (p0 p1 p2 p3 p4 p5 : Tensor2) :
  panels [p0; p1; p2; p3; p4; p5] =
  [(p0, 0); (p1, 10); (p2, 20); (p3, 50); (p4, 100); (p5, 500)].
Proof. reflexivity. Qed.

(** C2. The run stores exactly one probability field per epoch of
    [epochs_to_plot] = [0; 10; 20; 50; 100; 500], in that order: the field
    for epoch e is what the model predicts over the grid after exactly e
    whole calls of [train_loop] (none for epoch 0); the panels pair the
    fields with the epochs in the same, strictly increasing, order, and
    are titled by them. *)
Theorem checkpoints_at_epoch_boundaries (dl : DataLoader) (mesh : Tensor2)
    (w : World) :
  (forall k, Forall (Batch_ok (in_features (fc1 (model w)))
                              (out_features (fc2 (model w)))) (yields dl k)) ->
  ncol mesh = in_features (fc1 (model w)) ->
  World_ok w ->
  exists preds w',
    training autograd set_to_none dl mesh w = Ok (preds, w') /\
    Forall2 (fun e p =>
               exists we,
                 train_epochs autograd set_to_none dl e w = Ok (tt, we) /\
                 predict mesh we = Ok (p, we))
            epochs_to_plot preds /\
    (exists p0, hd_error preds = Some p0 /\ predict mesh w = Ok (p0, w)) /\
    length preds = 6 /\
    map fst (panels preds) = preds /\
    map snd (panels preds) = [0; 10; 20; 50; 100; 500] /\
    StronglySorted lt (map snd (panels preds)) /\
    forall x y train_dataset test_dataset axes,
      figure x y preds train_dataset test_dataset = Ok axes ->
      map ax_title axes =
      ["Epoch 0"; "Epoch 10"; "Epoch 20"; "Epoch 50"; "Epoch 100"; "Epoch 500"]%string.
Proof.
  intros Hdl Hmesh Hw.
  destruct (training_fields dl mesh w Hdl Hmesh Hw) as (preds & w' & Hrun & Hall).
  exists preds, w'. split; [exact Hrun|].
  split.
  { eapply Forall2_impl; [|exact Hall].
    intros e p (we & H1 & H2 & _). now exists we. }
  unfold epochs_to_plot in Hall.
  inversion Hall as [|e0 p0 l0 r0 H0 Hall0]; subst.
  inversion Hall0 as [|e1 p1 l1 r1 H1 Hall1]; subst.
  inversion Hall1 as [|e2 p2 l2 r2 H2 Hall2]; subst.
  inversion Hall2 as [|e3 p3 l3 r3 H3 Hall3]; subst.
  inversion Hall3 as [|e4 p4 l4 r4 H4 Hall4]; subst.
  inversion Hall4 as [|e5 p5 l5 r5 H5 Hall5]; subst.
  inversion Hall5; subst.
  split.
  { exists p0. split; [reflexivity|].
    destruct H0 as (we & Hwe & Hp & _). cbn in Hwe. unfold ret in Hwe.
    now injection Hwe as <-. }
  split; [reflexivity|].
  split; [now rewrite panels_all|].
  split; [now rewrite panels_all|].
  split; [rewrite panels_all; cbn [map snd]; repeat constructor; lia|].
  intros x y trn tst axes Hfig.
  rewrite (figure_titles _ _ _ _ _ _ Hfig), panels_all. reflexivity.
Qed.

Lemma field_of_rows (m : Sequential) (mesh : Tensor2) :
  Sequential_ok m -> 0 < out_features (fc2 m) ->
  ncol (field_of m mesh) = out_features (fc2 m) /\
  nrow (field_of m mesh) = nrow mesh /\
  Forall (distribution (out_features (fc2 m))) (rows (field_of m mesh)).
Proof.
  intros Hm Hpos. unfold field_of, Softmax, nrow. cbn [ncol rows].
  split; [reflexivity|]. split; [now rewrite !length_map|].
  apply Forall_forall. intros p Hp.
  apply in_map_iff in Hp as (s & <- & Hs).
  apply in_map_iff in Hs as (x & <- & _).
  rewrite <- (length_score_row m x Hm).
  apply softmax_row_distribution.
  intros E. apply (f_equal (@length R)) in E.
  rewrite (length_score_row m x Hm) in E. simpl in E. lia.
Qed.

(** C10. Every stored field, the one of epoch 0 and the one of every later
    epoch to plot, is the row-wise softmax of the scores of the model over
    the grid, and gives each grid point a probability distribution over the
    classes: as many entries as classes, each in [0, 1], summing to 1. *)
Theorem stored_fields_are_distributions (dl : DataLoader) (mesh : Tensor2)
    (w : World) :
  (forall k, Forall (Batch_ok (in_features (fc1 (model w)))
                              (out_features (fc2 (model w)))) (yields dl k)) ->
  ncol mesh = in_features (fc1 (model w)) ->
  World_ok w ->
  0 < out_features (fc2 (model w)) ->
  exists preds w',
    training autograd set_to_none dl mesh w = Ok (preds, w') /\
    Forall2 (fun e p =>
               exists we s,
                 train_epochs autograd set_to_none dl e w = Ok (tt, we) /\
                 Sequential_forward (model we) mesh = Ok s /\
                 p = Softmax s /\
                 nrow p = nrow mesh /\
                 Forall (distribution (out_features (fc2 (model w)))) (rows p))
            epochs_to_plot preds.
Proof.
  intros Hdl Hmesh Hw Hpos.
  destruct (training_fields dl mesh w Hdl Hmesh Hw) as (preds & w' & Hrun & Hall).
  exists preds, w'. split; [exact Hrun|].
  eapply Forall2_impl; [|exact Hall].
  intros e p (we & He & Hp & Hm & Ho & ->).
  rewrite predict_spec in Hp. unfold evaluate in Hp.
  destruct (Sequential_forward (model we) mesh) as [s|err] eqn:Hs;
    [|discriminate].
  cbn [rbind] in Hp.
  assert (Heq : field_of (model we) mesh = Softmax s) by congruence.
  exists we, s. split; [exact He|]. split; [exact Hs|].
  split; [exact Heq|].
  rewrite <- Ho in Hpos |- *.
  destruct (field_of_rows (model we) mesh Hm Hpos) as (_ & Hn & Hd).
  now split.
Qed.

(** ** The evaluation grid *)

Lemma fold_left_Rmax_largest (xs : list R) :
  forall x, largest (fold_left Rmax xs x) (x :: xs).
Proof.
  induction xs as [|y xs IH]; intros x.
  - split; [now left|]. intros z [<-|[]]. simpl. lra.
  - cbn [fold_left]. destruct (IH (Rmax x y)) as [Hin Hle]. split.
    + destruct Hin as [Hin|Hin]; [|now right; right].
      rewrite <- Hin. unfold Rmax. destruct (Rle_dec x y); [right|]; now left.
    + intros z Hz.
      assert (Hxy : (Rmax x y <= fold_left Rmax xs (Rmax x y))%R)
        by (apply Hle; now left).
      destruct Hz as [<-|[<-|Hz]].
      * pose proof (Rmax_l x y). lra.
      * pose proof (Rmax_r x y). lra.
      * apply Hle. now right.
Qed.

Lemma py_max_largest (l : list R) (m : R) : py_max l = Ok m -> largest m l.
Proof.
  destruct l as [|x xs]; [discriminate|]. intros H. injection H as <-.
  apply fold_left_Rmax_largest.
Qed.

Lemma py_max_Ok (l : list R) : l <> [] -> exists m, py_max l = Ok m.
Proof. destruct l; [congruence|]. intros _. simpl. eauto. Qed.

Lemma mapM_py_max_rows (l : list (list R * nat)) :
  Forall (fun s => fst s <> []) l ->
  exists ms,
    mapM (fun s => py_max (map Rabs (fst s))) l = Ok ms /\
    Forall2 (fun s m => largest m (map Rabs (fst s))) l ms.
Proof.
  induction 1 as [|s l Hs _ (ms & Hms & Hall)].
  - exists []. split; [reflexivity|constructor].
  - destruct (py_max_Ok (map Rabs (fst s))) as [m Hm].
    { destruct (fst s); [congruence|discriminate]. }
    exists (m :: ms). cbn [mapM]. rewrite Hm, Hms. split; [reflexivity|].
    constructor; [now apply py_max_largest|exact Hall].
Qed.

Lemma rows_max_in (l : list (list R * nat)) (ms : list R) :
  Forall2 (fun s m => largest m (map Rabs (fst s))) l ms ->
  forall M, In M ms -> In M (flat_map (fun s => map Rabs (fst s)) l).
Proof.
  induction 1 as [|s m l ms Hsm _ IH]; intros M Hin; [inversion Hin|].
  destruct Hsm as [Hm _]. cbn [flat_map]. apply in_or_app.
  destruct Hin as [<-|Hin]; [now left|right; now apply IH].
Qed.

Lemma rows_max_bound (l : list (list R * nat)) (ms : list R) :
  Forall2 (fun s m => largest m (map Rabs (fst s))) l ms ->
  forall M, (forall x, In x ms -> (x <= M)%R) ->
  forall v, In v (flat_map (fun s => map Rabs (fst s)) l) -> (v <= M)%R.
Proof.
  induction 1 as [|s m l ms Hsm _ IH]; intros M Hle v Hv; [inversion Hv|].
  destruct Hsm as [_ Hm]. cbn [flat_map] in Hv.
  apply in_app_or in Hv as [Hv|Hv].
  - apply Rle_trans with m; [now apply Hm|]. apply Hle. now left.
  - apply (IH M); [|exact Hv]. intros x Hx. apply Hle. now right.
Qed.

Lemma largest_of_rows (l : list (list R * nat)) (ms : list R) (M : R) :
  Forall2 (fun s m => largest m (map Rabs (fst s))) l ms ->
  largest M ms ->
  largest M (flat_map (fun s => map Rabs (fst s)) l).
Proof.
  intros Hall [Hin Hle]. split.
  - now apply (rows_max_in l ms).
  - now apply (rows_max_bound l ms).
Qed.

Lemma ax_length_of_spec (rs : list R) (d : CircleData) :
  rs <> [] -> iterate d <> [] -> Forall (fun s => fst s <> []) (iterate d) ->
  exists r M,
    ax_length_of rs d = Ok (Rmax (r * 1.5) M) /\
    largest r rs /\ largest M (magnitudes d).
Proof.
  intros Hrs Hne Hpts. unfold ax_length_of.
  destruct (py_max_Ok rs Hrs) as [r Hr]. rewrite Hr. cbn [rbind].
  destruct (mapM_py_max_rows _ Hpts) as (ms & Hms & Hall). rewrite Hms.
  cbn [rbind].
  destruct (py_max_Ok ms) as [M HM].
  { intros ->. inversion Hall as [E|]; subst. now apply Hne. }
  rewrite HM. cbn [rbind]. exists r, M. split; [reflexivity|].
  split; [now apply py_max_largest|].
  apply (largest_of_rows _ ms); [exact Hall|now apply py_max_largest].
Qed.

Lemma make_dataset_extent (fl : Arith) (g : Generator) :
  exists d M,
    make_dataset fl g = Ok d /\
    length (iterate d) = 300 /\
    ax_length_of radii d = Ok (Rmax (6 * 1.5) M) /\
    largest 6%R radii /\ largest M (magnitudes d).
Proof.
  assert (E := CircleData_init_Ok fl g radii (50 * n_cats) 0.5%R ltac:(discriminate)).
  destruct (iterate_init _ _ _ _ _ _ E) as [_ Hit].
  eexists. 
  assert (Hlen : length (iterate
             {| inputs := {| ncol := 2;
                             rows := map (drawn_point fl g radii 0.5)
                                       (seq 0 (50 * n_cats)) |};
                cats := map (drawn_cat g radii) (seq 0 (50 * n_cats));
                n_dpt := 50 * n_cats |}) = 300).
  { rewrite Hit, length_map, length_seq. reflexivity. }
  destruct (ax_length_of_spec radii _ ltac:(discriminate)
              ltac:(intros E0; rewrite E0 in Hlen; discriminate)
              ltac:(rewrite Hit; apply Forall_forall; intros s Hs;
                    apply in_map_iff in Hs as (i & <- & _); discriminate))
    as (r & M & Hax & Hr & HM).
  exists M. split; [exact E|]. split; [exact Hlen|].
  assert (H6 : largest 6%R radii).
  { split; [unfold radii; simpl; tauto|].
    intros x Hx. unfold radii in Hx. simpl in Hx.
    repeat (destruct Hx as [<-|Hx]; [lra|]). tauto. }
  assert (r = 6%R).
  { destruct Hr as [Hr1 Hr2], H6 as [H61 H62].
    apply Rle_antisym; [now apply H62|now apply Hr2]. }
  subst r. split; [exact Hax|split; [exact H6|exact HM]].
Qed.

Example linspace_3 : linspace (-1) 1 3 = [-1; 0; 1]%R.
Proof.
  unfold linspace. cbn. repeat f_equal; lra.
Qed.

Example mesh_of_2 :
  stack_axis1 (ravel (fst (meshgrid_ij [0; 1] [0; 1])))%R
              (ravel (snd (meshgrid_ij [0; 1] [0; 1])))%R =
  {| ncol := 2; rows := [[0; 0]; [0; 1]; [1; 0]; [1; 1]]%R |}.
Proof. reflexivity. Qed.

Lemma length_linspace (a b : R) (n : nat) : length (linspace a b n) = n.
Proof. unfold linspace. now rewrite length_map, length_seq. Qed.

Lemma nth_linspace (a b : R) (n i : nat) :
  i < n ->
  nth i (linspace a b n) 0%R = (a + INR i * ((b - a) / INR (n - 1)))%R.
Proof.
  intros H. unfold linspace.
  rewrite (nth_indep _ 0%R ((fun k => (a + INR k * ((b - a) / INR (n - 1)))%R) 0))
    by now rewrite length_map, length_seq.
  rewrite (map_nth (fun k => (a + INR k * ((b - a) / INR (n - 1)))%R)).
  now rewrite seq_nth.
Qed.

Lemma combine_append {A B : Type} (u1 u2 : list A) (v1 v2 : list B) :
  length u1 = length v1 ->
  combine (u1 ++ u2) (v1 ++ v2) = combine u1 v1 ++ combine u2 v2.
Proof.
  revert v1; induction u1 as [|a u1 IH]; intros [|b v1] H; simpl in *;
    try reflexivity; try discriminate.
  f_equal. apply IH. lia.
Qed.

Lemma stack_meshgrid (u v : list R) :
  map (fun p => [fst p; snd p])
      (combine (ravel (fst (meshgrid_ij u v))) (ravel (snd (meshgrid_ij u v)))) =
  flat_map (fun a => map (fun b => [a; b]) v) u.
Proof.
  unfold meshgrid_ij, ravel. cbn [fst snd].
  induction u as [|a u IH]; [reflexivity|].
  cbn [map concat flat_map].
  rewrite combine_append by now rewrite length_map.
  rewrite map_app, IH. f_equal.
  rewrite <- (map_id v) at 2. rewrite combine_map_same, map_map.
  reflexivity.
Qed.

Lemma make_mesh_rows (L : R) :
  rows (make_mesh L) =
  flat_map (fun a => map (fun b => [a; b]) (linspace (- L) L npoints))
           (linspace (- L) L npoints).
Proof.
  unfold make_mesh, grid_xy.
  rewrite <- stack_meshgrid.
  destruct (meshgrid_ij (linspace (- L) L npoints) (linspace (- L) L npoints)).
  reflexivity.
Qed.

Lemma nth_flat_map_uniform {A B : Type} (f : A -> list B) (n : nat)
    (d : B) (d' : A) :
  (forall a, length (f a) = n) ->
  forall (l : list A) (i j : nat),
    i < length l -> j < n ->
    nth (i * n + j) (flat_map f l) d = nth j (f (nth i l d')) d.
Proof.
  intros Hf. induction l as [|a l IH]; intros i j Hi Hj; simpl in Hi; [lia|].
  cbn [flat_map]. destruct i as [|i].
  - cbn [Nat.mul Nat.add nth]. apply app_nth1. now rewrite Hf.
  - rewrite app_nth2 by (rewrite Hf; simpl; lia).
    rewrite Hf. replace (S i * n + j - n) with (i * n + j) by (simpl; lia).
    cbn [nth]. apply IH; lia.
Qed.

Lemma length_flat_map_uniform {A B : Type} (f : A -> list B) (n : nat) :
  (forall a, length (f a) = n) ->
  forall l : list A, length (flat_map f l) = length l * n.
Proof.
  intros Hf. induction l as [|a l IH]; [reflexivity|].
  cbn [flat_map length]. rewrite length_app, Hf, IH. simpl. lia.
Qed.

(** The grid: one axis of [npoints] evenly spaced values from -L to L, and
    the mesh of all pairs of axis values, row i * npoints + j holding the
    i-th and the j-th. *)
Lemma make_mesh_spec (L : R) :
  let axis := linspace (- L) L npoints in
  let mesh := make_mesh L in
  length axis = 101 /\
  nth 0 axis 0%R = (- L)%R /\
  nth 100 axis 0%R = L /\
  (forall i, i < 100 -> (nth (S i) axis 0 - nth i axis 0 = 2 * L / 100)%R) /\
  ncol mesh = 2 /\
  nrow mesh = 101 * 101 /\
  (forall i j, i < 101 -> j < 101 ->
     nth (i * 101 + j) (rows mesh) [] = [nth i axis 0%R; nth j axis 0%R]).
Proof.
  intros axis mesh.
  assert (Hlen : length axis = 101) by apply length_linspace.
  assert (Hstep : INR (npoints - 1) = 100%R).
  { rewrite INR_IZR_INZ. reflexivity. }
  assert (Hnth : forall i, i < 101 ->
                   nth i axis 0%R = (- L + INR i * (2 * L / 100))%R).
  { intros i Hi. unfold axis. rewrite nth_linspace by exact Hi.
    rewrite Hstep. f_equal. f_equal. lra. }
  assert (Hinner : forall a : R, length (map (fun b => [a; b]) axis) = 101)
    by (intros a; now rewrite length_map).
  split; [exact Hlen|]. split; [|split; [|split; [|split; [|split]]]].
  - rewrite Hnth by lia. simpl. lra.
  - rewrite Hnth by lia. rewrite INR_IZR_INZ. simpl. lra.
  - intros i Hi. rewrite !Hnth by lia. rewrite S_INR. lra.
  - unfold mesh, make_mesh, grid_xy.
    now destruct (meshgrid_ij _ _).
  - unfold nrow, mesh. rewrite make_mesh_rows. fold axis.
    rewrite (length_flat_map_uniform _ 101 Hinner). now rewrite Hlen.
  - intros i j Hi Hj. unfold mesh. rewrite make_mesh_rows. fold axis.
    rewrite (nth_flat_map_uniform _ 101 [] 0%R Hinner) by lia.
    rewrite (nth_indep _ [] ((fun b => [nth i axis 0%R; b]) 0%R))
      by (rewrite length_map; lia).
    now rewrite (map_nth (fun b => [nth i axis 0%R; b])).
Qed.

(** C3. The grid is built from one extent, the larger of 1.5 times the
    largest radius and the largest absolute coordinate of the generated
    points; it is the mesh of 101 by 101 points evenly spaced from -extent
    to +extent on both axes, flattened to 101 * 101 rows of two
    coordinates; and this one mesh is what the model is evaluated on for
    epoch 0 and for every later epoch to plot, so that all stored fields
    have one row per grid point. *)
Theorem evaluation_grid (fl : Arith) (g : Generator) (dl : DataLoader)
    (w : World) :
  (forall k, Forall (Batch_ok (in_features (fc1 (model w)))
                              (out_features (fc2 (model w)))) (yields dl k)) ->
  in_features (fc1 (model w)) = 2 ->
  World_ok w ->
  exists d M L,
    make_dataset fl g = Ok d /\
    ax_length_of radii d = Ok L /\
    L = Rmax (6 * 1.5) M /\ largest 6%R radii /\ largest M (magnitudes d) /\
    let axis := linspace (- L) L npoints in
    let mesh := make_mesh L in
    length axis = 101 /\
    nth 0 axis 0%R = (- L)%R /\
    nth 100 axis 0%R = L /\
    (forall i, i < 100 -> (nth (S i) axis 0 - nth i axis 0 = 2 * L / 100)%R) /\
    ncol mesh = 2 /\
    nrow mesh = 101 * 101 /\
    (forall i j, i < 101 -> j < 101 ->
       nth (i * 101 + j) (rows mesh) [] = [nth i axis 0%R; nth j axis 0%R]) /\
    exists preds w',
      training autograd set_to_none dl mesh w = Ok (preds, w') /\
      Forall2 (fun e p =>
                 exists we,
                   train_epochs autograd set_to_none dl e w = Ok (tt, we) /\
                   predict mesh we = Ok (p, we) /\
                   nrow p = nrow mesh)
              epochs_to_plot preds.
Proof.
  intros Hdl Hin Hw.
  destruct (make_dataset_extent fl g) as (d & M & Hd & _ & Hax & H6 & HM).
  exists d, M, (Rmax (6 * 1.5) M).
  split; [exact Hd|]. split; [exact Hax|]. split; [reflexivity|].
  split; [exact H6|]. split; [exact HM|].
  pose proof (make_mesh_spec (Rmax (6 * 1.5) M)) as Hmesh.
  cbv zeta in Hmesh |- *.
  destruct Hmesh as (H1 & H2 & H3 & H4 & H5 & H7 & H8).
  repeat (split; [assumption|]).
  destruct (training_fields dl (make_mesh (Rmax (6 * 1.5) M)) w Hdl
              ltac:(congruence) Hw) as (preds & w' & Hrun & Hall).
  exists preds, w'. split; [exact Hrun|].
  eapply Forall2_impl; [|exact Hall].
  intros e p (we & He & Hp & _ & _ & ->).
  exists we. split; [exact He|]. split; [exact Hp|].
  unfold field_of, Softmax, nrow. cbn [rows]. now rewrite !length_map.
Qed.

End Training.

(** ** Evaluation does not touch the state *)

(** C7. Two evaluations of the model over the same grid, one right after
    the other, return the same probability field and leave the parameters,
    the gradients, the generator and the output as they were. *)
Theorem evaluation_repeatable (mesh : Tensor2) (w : World) :
  Sequential_ok (model w) ->
  ncol mesh = in_features (fc1 (model w)) ->
  exists p,
    (p1 <- predict mesh ;; p2 <- predict mesh ;; ret (p1, p2))%world w
    = Ok ((p, p), w) /\
    predict mesh w = Ok (p, w).
Proof.
  intros Hm Hx. exists (field_of (model w) mesh).
  assert (H : predict mesh w = Ok (field_of (model w) mesh, w))
    by (rewrite predict_spec; now rewrite evaluate_Ok).
  split; [|exact H].
  unfold bind. rewrite H, H. reflexivity.
Qed.

(** ** Colours *)

Lemma to_rgb_length (col : string) (v : list R) :
  to_rgb col = Ok v -> length v = 3.
Proof.
  unfold to_rgb.
  repeat match goal with
         | |- (if ?b then _ else _) = _ -> _ => destruct b
         end;
    intros H; try discriminate; now injection H as <-.
Qed.

Lemma to_rgb_no_shape_error (cols : list string) :
  mapM to_rgb cols <> Raise ShapeError.
Proof.
  induction cols as [|c cols IH]; cbn [mapM]; [discriminate|].
  destruct (to_rgb c) as [v|e] eqn:E; cbn [rbind].
  - destruct (mapM to_rgb cols) as [vs|e]; cbn [rbind]; [discriminate|exact IH].
  - unfold to_rgb in E.
    repeat match type of E with
           | (if ?b then _ else _) = _ => destruct b
           end; congruence.
Qed.

Lemma palette_lengths (cols : list string) (palette : list (list R)) :
  mapM to_rgb cols = Ok palette ->
  length palette = length cols /\ Forall (fun c => length c = 3) palette.
Proof.
  intros H. apply mapM_Ok_Forall2 in H. split.
  - symmetry. eapply Forall2_length; exact H.
  - induction H as [|c v cols palette Hc _ IH]; constructor; [|exact IH].
    eapply to_rgb_length; exact Hc.
Qed.

Lemma weighted_sum_dot (palette : list (list R)) :
  Forall (fun c => length c = 3) palette ->
  forall p,
    weighted_sum p palette =
    map (fun ch => dot p (map (fun c => nth ch c 0%R) palette)) (seq 0 3).
Proof.
  induction 1 as [|c palette Hc _ IH]; intros p.
  - unfold weighted_sum, dot. destruct p; cbn; reflexivity.
  - destruct p as [|q p]; [reflexivity|].
    destruct c as [|r [|g [|b [|? ?]]]]; try discriminate.
    unfold weighted_sum in *. cbn [combine fold_right fst snd].
    rewrite IH. unfold dot, vzip. cbn. repeat f_equal; lra.
Qed.

Lemma nth_chunks (size : nat) :
  forall (fuel j : nat) (l : list R),
    j < fuel ->
    nth j (chunks fuel size l) [] = firstn size (skipn (j * size) l).
Proof.
  induction fuel as [|fuel IH]; intros j l Hj; [lia|].
  cbn [chunks]. destruct j as [|j]; [reflexivity|].
  cbn [nth]. rewrite IH by lia. rewrite skipn_skipn.
  now replace (j * size + size) with (S j * size) by (simpl; lia).
Qed.

Lemma cell_of_concat (k : nat) (ll : list (list R)) :
  Forall (fun r => length r = k) ll ->
  forall i, i < length ll ->
    firstn k (skipn (i * k) (concat ll)) = nth i ll [].
Proof.
  induction 1 as [|r ll Hr _ IH]; intros i Hi; simpl in Hi; [lia|].
  cbn [concat]. destruct i as [|i].
  - cbn [Nat.mul skipn nth]. rewrite firstn_app, Hr, Nat.sub_diag.
    rewrite <- Hr, firstn_all. cbn. apply app_nil_r.
  - rewrite skipn_app, Hr.
    rewrite skipn_all2 by (rewrite Hr; simpl; lia).
    replace (S i * k - k) with (i * k) by (simpl; lia).
    cbn [app nth]. apply IH. lia.
Qed.

Lemma reshape_grid_cells (n k : nat) (t : Tensor2) :
  well_shaped t -> ncol t = k -> 0 < k -> 0 < n -> nrow t = n * n ->
  exists image,
    reshape_grid n t = Ok image /\
    length image = n /\
    forall i j, i < n -> j < n ->
      nth j (nth i image []) [] = nth (i * n + j) (rows t) [].
Proof.
  intros Hws Hk Hk0 Hn0 Hrows. unfold reshape_grid.
  rewrite Hrows, Hk.
  assert (Hne : n * n * k <> 0) by (apply Nat.neq_mul_0; split; [nia|lia]).
  destruct (Nat.eqb_spec (n * n * k) 0) as [E|_]; [contradiction|].
  rewrite (Nat.mul_comm (n * n) k), Nat.Div0.mod_mul, Nat.div_mul by nia.
  cbn [orb negb Nat.eqb]. eexists. split; [reflexivity|].
  split; [now rewrite length_map, length_seq|].
  intros i j Hi Hj.
  rewrite (nth_indep _ [] ((fun i0 => chunks n k (skipn (i0 * (n * k))
                                                    (concat (rows t)))) 0))
    by now rewrite length_map, length_seq.
  rewrite (map_nth (fun i0 => chunks n k (skipn (i0 * (n * k)) (concat (rows t))))).
  rewrite seq_nth by exact Hi. cbn [Nat.add].
  rewrite nth_chunks by exact Hj. rewrite skipn_skipn.
  replace (j * k + i * (n * k)) with ((i * n + j) * k) by nia.
  apply cell_of_concat.
  - unfold well_shaped in Hws. now rewrite Hk in Hws.
  - unfold nrow in Hrows. rewrite Hrows. nia.
Qed.

Lemma add_scatter_Ok (dataset : list (list R * nat)) (marker : string)
    (cols : list string) :
  dataset <> [] -> exists s, add_scatter dataset marker cols = Ok s.
Proof.
  destruct dataset; [congruence|]. intros _. cbn. eauto.
Qed.

Lemma matmul_rgb_Ok (mesh_pred : Tensor2) (palette : list (list R)) :
  length palette = ncol mesh_pred -> 0 < ncol mesh_pred ->
  matmul_rgb mesh_pred palette =
  Ok {| ncol := 3;
        rows := map (fun p => map (fun ch => dot p (map (fun c => nth ch c 0%R) palette))
                                  (seq 0 3))
                    (rows mesh_pred) |}.
Proof.
  intros Hlen Hpos. unfold matmul_rgb.
  destruct palette as [|c pal]; [simpl in Hlen; lia|].
  unfold matmul, nrow, tensor_of_rgb, column. cbn [rows ncol].
  now rewrite Hlen, Nat.eqb_refl.
Qed.

(** The cells of the image [plot_ax] draws. *)
Lemma plot_ax_cells (x y : list (list R)) (mesh_pred : Tensor2)
    (title : string) (trn_dset tst_dset : list (list R * nat)) (alpha : R)
    (cols : list string) (palette : list (list R)) :
  well_shaped mesh_pred ->
  0 < ncol mesh_pred ->
  nrow mesh_pred = npoints * npoints ->
  ncol mesh_pred <= length cols ->
  mapM to_rgb (firstn (ncol mesh_pred) cols) = Ok palette ->
  trn_dset <> [] -> tst_dset <> [] ->
  exists ax,
    plot_ax x y mesh_pred title trn_dset tst_dset alpha cols = Ok ax /\
    length palette = ncol mesh_pred /\
    forall i j, i < npoints -> j < npoints ->
      let p := nth (i * npoints + j) (rows mesh_pred) [] in
      nth j (nth i (ax_mesh_cols ax) []) [] = weighted_sum p palette /\
      length p = length palette /\
      (Forall (distribution (ncol mesh_pred)) (rows mesh_pred) ->
       Forall (fun q => (0 <= q <= 1)%R) p /\ rsum p = 1%R).
Proof.
  intros Hws Hpos Hrows Hcols Hpal Htrn Htst.
  destruct (palette_lengths _ _ Hpal) as [Hlen H3].
  rewrite length_firstn, Nat.min_l in Hlen by exact Hcols.
  set (mesh_cols :=
         {| ncol := 3;
            rows := map (fun p => map (fun ch => dot p (map (fun c => nth ch c 0%R)
                                                          palette)) (seq 0 3))
                        (rows mesh_pred) |}).
  destruct (reshape_grid_cells npoints 3 mesh_cols) as (image & Him & _ & Hcell).
  { apply Forall_forall. intros r Hr. cbn [rows mesh_cols] in Hr.
    apply in_map_iff in Hr as (p & <- & _). now rewrite length_map, length_seq. }
  { reflexivity. }
  { lia. }
  { unfold npoints. lia. }
  { unfold nrow in *. cbn [rows mesh_cols]. now rewrite length_map. }
  destruct (add_scatter_Ok trn_dset "o" (firstn (ncol mesh_pred) cols) Htrn)
    as [s1 Hs1].
  destruct (add_scatter_Ok tst_dset "x" (firstn (ncol mesh_pred) cols) Htst)
    as [s2 Hs2].
  eexists. split; [|split; [exact Hlen|]].
  - unfold plot_ax. rewrite Hpal. cbn [rbind].
    rewrite (matmul_rgb_Ok _ _ Hlen Hpos). cbn [rbind]. fold mesh_cols.
    rewrite Him. cbn [rbind]. rewrite Hs1, Hs2. reflexivity.
  - intros i j Hi Hj p. cbn [ax_mesh_cols].
    assert (Hidx : i * npoints + j < length (rows mesh_pred)).
    { unfold nrow in Hrows. rewrite Hrows. nia. }
    split; [|split].
    + rewrite (Hcell i j Hi Hj). cbn [rows mesh_cols].
      rewrite (nth_indep _ []
                 ((fun p => map (fun ch => dot p (map (fun c => nth ch c 0%R)
                                                     palette)) (seq 0 3)) []))
        by now rewrite length_map.
      rewrite (map_nth (fun p => map (fun ch => dot p (map (fun c => nth ch c 0%R)
                                                         palette)) (seq 0 3))).
      fold p. symmetry. now apply weighted_sum_dot.
    + unfold well_shaped in Hws. rewrite Forall_forall in Hws.
      rewrite Hlen. apply Hws. now apply nth_In.
    + intros Hd. rewrite Forall_forall in Hd.
      destruct (Hd p (nth_In _ _ Hidx)) as (_ & Hr & Hs). now split.
Qed.

(** C6. The colour [plot_ax] hands to the mesh plot at grid point (i, j) is
    the sum over the classes of the class probability at that point times
    the RGB colour of the class, the colours being the first [num_classes]
    of the palette: a blend whose weights are the probabilities themselves
    (a convex combination when they form a distribution), not the colour of
    one class. *)
Theorem plot_ax_blends (x y : list (list R)) (mesh_pred : Tensor2)
    (title : string) (trn_dset tst_dset : list (list R * nat)) (alpha : R)
    (cols : list string) (palette : list (list R)) :
  well_shaped mesh_pred ->
  0 < ncol mesh_pred ->
  nrow mesh_pred = npoints * npoints ->
  ncol mesh_pred <= length cols ->
  mapM to_rgb (firstn (ncol mesh_pred) cols) = Ok palette ->
  trn_dset <> [] -> tst_dset <> [] ->
  exists ax,
    plot_ax x y mesh_pred title trn_dset tst_dset alpha cols = Ok ax /\
    length palette = ncol mesh_pred /\
    forall i j, i < npoints -> j < npoints ->
      let p := nth (i * npoints + j) (rows mesh_pred) [] in
      nth j (nth i (ax_mesh_cols ax) []) [] = weighted_sum p palette /\
      length p = length palette /\
      (Forall (distribution (ncol mesh_pred)) (rows mesh_pred) ->
       Forall (fun q => (0 <= q <= 1)%R) p /\ rsum p = 1%R).
Proof. exact (plot_ax_cells x y mesh_pred title trn_dset tst_dset alpha cols palette). Qed.

(** A blend is not the colour of the most probable class: with equal
    weights on red and blue it is the purple half-way between them. *)
Example blend_is_not_argmax :
  weighted_sum [0.5; 0.5]%R [[1; 0; 0]; [0; 0; 1]]%R = [0.5; 0; 0.5]%R.
Proof.
  unfold weighted_sum, vzip. cbn. repeat f_equal; lra.
Qed.

Lemma plot_ax_no_shape_error (x y : list (list R)) (mesh_pred : Tensor2)
    (title : string) (trn_dset tst_dset : list (list R * nat)) (alpha : R)
    (cols : list string) :
  ncol mesh_pred <= length cols ->
  plot_ax x y mesh_pred title trn_dset tst_dset alpha cols <> Raise ShapeError.
Proof.
  intros Hcols. unfold plot_ax.
  destruct (mapM to_rgb (firstn (ncol mesh_pred) cols)) as [palette|e] eqn:Hpal;
    cbn [rbind].
  - destruct (palette_lengths _ _ Hpal) as [Hlen _].
    rewrite length_firstn, Nat.min_l in Hlen by exact Hcols.
    assert (Hmm : exists t, matmul_rgb mesh_pred palette = Ok t).
    { unfold matmul_rgb. destruct palette as [|c pal].
      - simpl in Hlen. rewrite <- Hlen. cbn. eauto.
      - unfold matmul, nrow, tensor_of_rgb. cbn [rows].
        rewrite Hlen, Nat.eqb_refl. eauto. }
    destruct Hmm as [t ->]. cbn [rbind].
    unfold reshape_grid.
    destruct ((nrow t * ncol t =? 0) ||
              negb ((nrow t * ncol t) mod (npoints * npoints) =? 0));
      cbn [rbind]; [discriminate|].
    unfold add_scatter.
    destruct trn_dset; cbn [rbind]; [discriminate|].
    destruct tst_dset; cbn [rbind]; discriminate.
  - intros E. injection E as ->. now apply to_rgb_no_shape_error in Hpal.
Qed.

(** C8. When the palette has at least as many colours as there are classes,
    the truncated palette has exactly one colour per class, the product of
    the probabilities with the colour matrix is defined, and [plot_ax] does
    not raise a shape mismatch; with fewer colours it does.  The script has
    6 classes, the number of radii, and 7 default colours. *)
Theorem palette_covers_classes (x y : list (list R)) (mesh_pred : Tensor2)
    (title : string) (trn_dset tst_dset : list (list R * nat)) (alpha : R)
    (cols : list string) :
  ncol mesh_pred <= length cols ->
  length (firstn (ncol mesh_pred) cols) = ncol mesh_pred /\
  (forall palette,
      mapM to_rgb (firstn (ncol mesh_pred) cols) = Ok palette ->
      length palette = ncol mesh_pred /\
      exists mesh_cols,
        matmul_rgb mesh_pred palette = Ok mesh_cols /\
        nrow mesh_cols = nrow mesh_pred) /\
  plot_ax x y mesh_pred title trn_dset tst_dset alpha cols <> Raise ShapeError /\
  n_cats = length radii /\ n_cats = 6 /\ length default_cols = 7 /\
  (forall w1 b1 w2 b2,
      out_features (fc2 (make_model w1 b1 w2 b2)) = n_cats).
Proof.
  intros Hcols. split; [|split; [|split]].
  - rewrite length_firstn. lia.
  - intros palette Hpal.
    destruct (palette_lengths _ _ Hpal) as [Hlen _].
    rewrite length_firstn, Nat.min_l in Hlen by exact Hcols.
    split; [exact Hlen|].
    unfold matmul_rgb. destruct palette as [|c pal].
    + simpl in Hlen. rewrite <- Hlen. cbn [Nat.eqb]. eexists.
      split; [reflexivity|]. unfold nrow. cbn [rows]. now rewrite length_map.
    + unfold matmul. unfold nrow at 1. unfold tensor_of_rgb at 1. cbn [rows].
      rewrite Hlen, Nat.eqb_refl. eexists.
      split; [reflexivity|]. unfold nrow. cbn [rows]. now rewrite length_map.
  - now apply plot_ax_no_shape_error.
  - repeat split.
Qed.

(** With too few colours the product is a shape mismatch. *)
Lemma short_palette_raises (x y : list (list R)) (mesh_pred : Tensor2)
    (title : string) (trn_dset tst_dset : list (list R * nat)) (alpha : R)
    (cols : list string) (palette : list (list R)) :
  length cols < ncol mesh_pred ->
  mapM to_rgb cols = Ok palette ->
  plot_ax x y mesh_pred title trn_dset tst_dset alpha cols = Raise ShapeError.
Proof.
  intros Hshort Hpal. unfold plot_ax.
  rewrite firstn_all2 by lia. rewrite Hpal. cbn [rbind].
  destruct (palette_lengths _ _ Hpal) as [Hlen _].
  unfold matmul_rgb. destruct palette as [|c pal].
  - destruct (Nat.eqb_spec (ncol mesh_pred) 0); [lia|reflexivity].
  - unfold matmul, nrow, tensor_of_rgb. cbn [rows].
    destruct (Nat.eqb_spec (ncol mesh_pred) (length (c :: pal))); [lia|reflexivity].
Qed.

(** ** The figure of the script *)

Section Figure.

Variable autograd : Sequential -> Tensor2 -> list nat -> Grads.
Variable set_to_none : bool.
Hypothesis autograd_fits :
  forall m x y, Sequential_ok m -> Grads_fit (autograd m x y) m.

(** What makes a stored field fit for [plot_ax] with the default palette. *)
Lemma field_of_plottable (m : Sequential) (L : R) :
  Sequential_ok m -> out_features (fc2 m) = n_cats ->
  let p := field_of m (make_mesh L) in
  well_shaped p /\ ncol p = 6 /\ nrow p = npoints * npoints /\
  Forall (distribution n_cats) (rows p).
Proof.
  intros Hm Ho p.
  destruct (field_of_rows m (make_mesh L) Hm) as (Hc & Hn & Hd).
  { rewrite Ho. unfold n_cats, radii. simpl. lia. }
  destruct (make_mesh_spec L) as (_ & _ & _ & _ & _ & Hrows & _).
  rewrite Ho in Hc, Hd. fold p in Hc, Hn, Hd.
  split; [|split; [exact Hc|split; [now rewrite Hn, Hrows|exact Hd]]].
  unfold well_shaped. rewrite Hc.
  eapply Forall_impl; [|exact Hd]. now intros r (Hr & _).
Qed.

(** The script's figure: six panels, one per stored field, each drawing at
    every grid point the blend of the six class colours weighted by the
    field's probabilities there. *)
Lemma figure_of_training (dl : DataLoader) (w : World) (L : R)
    (x y : list (list R)) (train_dataset test_dataset : list (list R * nat)) :
  (forall k, Forall (Batch_ok 2 n_cats) (yields dl k)) ->
  World_ok w ->
  in_features (fc1 (model w)) = 2 ->
  out_features (fc2 (model w)) = n_cats ->
  train_dataset <> [] -> test_dataset <> [] ->
  exists preds w' axes,
    training autograd set_to_none dl (make_mesh L) w = Ok (preds, w') /\
    figure x y preds train_dataset test_dataset = Ok axes /\
    Forall2 (fun p ax =>
               Forall (distribution n_cats) (rows p) /\
               forall i j, i < npoints -> j < npoints ->
                 nth j (nth i (ax_mesh_cols ax) []) [] =
                 weighted_sum (nth (i * npoints + j) (rows p) []) script_palette)
            preds axes.
Proof.
  intros Hdl Hw Hin Hout Htrn Htst.
  assert (Hmesh : ncol (make_mesh L) = in_features (fc1 (model w))).
  { rewrite Hin. now destruct (make_mesh_spec L) as (_ & _ & _ & _ & H & _). }
  destruct (training_fields autograd set_to_none autograd_fits dl (make_mesh L) w)
    as (preds & w' & Hrun & Hall);
    [now rewrite Hin, Hout|exact Hmesh|exact Hw|].
  assert (Hplot : forall e p,
            (exists we,
               train_epochs autograd set_to_none dl e w = Ok (tt, we) /\
               predict (make_mesh L) we = Ok (p, we) /\
               Sequential_ok (model we) /\
               out_features (fc2 (model we)) = out_features (fc2 (model w)) /\
               p = field_of (model we) (make_mesh L)) ->
            Forall (distribution n_cats) (rows p) /\
            exists ax,
              plot_ax x y p ("Epoch " ++ str e)%string train_dataset test_dataset
                0.5%R default_cols = Ok ax /\
              forall i j, i < npoints -> j < npoints ->
                nth j (nth i (ax_mesh_cols ax) []) [] =
                weighted_sum (nth (i * npoints + j) (rows p) []) script_palette).
  { intros e p (we & _ & _ & Hm & Ho & ->).
    destruct (field_of_plottable (model we) L Hm ltac:(congruence))
      as (Hws & Hc & Hn & Hd).
    split; [exact Hd|].
    destruct (plot_ax_cells x y (field_of (model we) (make_mesh L))
                ("Epoch " ++ str e)%string train_dataset test_dataset 0.5%R
                default_cols script_palette Hws)
      as (ax & Hax & _ & Hcell);
      [rewrite Hc; lia | exact Hn | rewrite Hc; simpl; lia
      | rewrite Hc; reflexivity | exact Htrn | exact Htst |].
    exists ax. split; [exact Hax|].
    intros i j Hi Hj. now destruct (Hcell i j Hi Hj) as (Hcol & _). }
  unfold epochs_to_plot in Hall.
  inversion Hall as [|e0 p0 l0 r0 H0 Hall0]; subst.
  inversion Hall0 as [|e1 p1 l1 r1 H1 Hall1]; subst.
  inversion Hall1 as [|e2 p2 l2 r2 H2 Hall2]; subst.
  inversion Hall2 as [|e3 p3 l3 r3 H3 Hall3]; subst.
  inversion Hall3 as [|e4 p4 l4 r4 H4 Hall4]; subst.
  inversion Hall4 as [|e5 p5 l5 r5 H5 Hall5]; subst.
  inversion Hall5; subst.
  destruct (Hplot _ _ H0) as (D0 & a0 & A0 & C0).
  destruct (Hplot _ _ H1) as (D1 & a1 & A1 & C1).
  destruct (Hplot _ _ H2) as (D2 & a2 & A2 & C2).
  destruct (Hplot _ _ H3) as (D3 & a3 & A3 & C3).
  destruct (Hplot _ _ H4) as (D4 & a4 & A4 & C4).
  destruct (Hplot _ _ H5) as (D5 & a5 & A5 & C5).
  exists [p0; p1; p2; p3; p4; p5], w', [a0; a1; a2; a3; a4; a5].
  split; [exact Hrun|]. split.
  - unfold figure. rewrite panels_all. cbn [mapM fst snd].
    rewrite A0, A1, A2, A3, A4, A5. reflexivity.
  - repeat (constructor; [split; assumption|]). constructor.
Qed.

(** The script as a whole returns a figure: for every generator whose
    [randperm] returns permutations, and whatever the initial parameters,
    no call raises, and the six panels are titled by the epochs to plot. *)
Lemma script_runs (fl : Arith) (g : Generator)
    (w1 : nat -> nat -> R) (b1 : nat -> R) (w2 : nat -> nat -> R) (b2 : nat -> R) :
  Generator_ok g ->
  exists axes,
    script autograd set_to_none fl g w1 b1 w2 b2 = Ok axes /\
    map ax_title axes =
    ["Epoch 0"; "Epoch 10"; "Epoch 20"; "Epoch 50"; "Epoch 100"; "Epoch 500"]%string.
Proof.
  intros Hg.
  destruct (script_split fl g (next_perm g 0 300) (Hg 0 300))
    as (d & trn & tst & Hd & Hlen & Htrn & Htst & Hn1 & Hn2 & Hall).
  destruct (make_dataset_extent fl g) as (d' & M & Hd' & _ & Hax & _).
  assert (d' = d) by congruence. subst d'.
  apply Forall_app in Hall as [Hall1 Hall2].
  set (dl := DataLoader_init trn batch_size
               (fun k => next_perm g (S k) (length trn))).
  assert (Hdl : forall k, Forall (Batch_ok 2 n_cats) (yields dl k)).
  { apply DataLoader_init_ok; [unfold batch_size; lia|exact Hall1|].
    intros k. apply Forall_forall. intros i Hi.
    apply (Permutation_in _ (Hg (S k) (length trn))), in_seq in Hi. lia. }
  destruct (make_model_ok w1 b1 w2 b2) as (Hok & Hin & Hout).
  destruct (figure_of_training dl (initial_world (make_model w1 b1 w2 b2))
              (Rmax (6 * 1.5) M)
              (fst (grid_xy (Rmax (6 * 1.5) M)))
              (snd (grid_xy (Rmax (6 * 1.5) M))) trn tst Hdl)
    as (preds & w' & axes & Hrun & Hfig & _).
  { split; [exact Hok|exact I]. }
  { exact Hin. }
  { exact Hout. }
  { intros ->. discriminate. }
  { intros ->. discriminate. }
  exists axes. split.
  - unfold script. rewrite Hd. cbn [rbind]. cbv zeta.
    rewrite Hlen in Htrn, Htst |- *. rewrite Htrn. cbn [rbind].
    rewrite Htst. cbn [rbind]. rewrite Hax. cbn [rbind].
    fold dl. rewrite Hrun. cbn [rbind]. exact Hfig.
  - rewrite (figure_titles _ _ _ _ _ _ Hfig).
    assert (Hsix : length preds = 6).
    { destruct (training_fields autograd set_to_none autograd_fits dl
                  (make_mesh (Rmax (6 * 1.5) M))
                  (initial_world (make_model w1 b1 w2 b2)))
        as (preds' & w'' & Hrun' & Hall');
        [apply Hdl | now destruct (make_mesh_spec (Rmax (6 * 1.5) M))
                       as (_ & _ & _ & _ & H & _)
        | split; [exact Hok|exact I] |].
      assert (preds' = preds) by congruence. subst preds'.
      now rewrite <- (Forall2_length Hall'). }
    destruct preds as [|p0 [|p1 [|p2 [|p3 [|p4 [|p5 [|p6 ps]]]]]]];
      try discriminate.
    rewrite panels_all. reflexivity.
Qed.

End Figure.

(* ================================================================== *)
(** * Instances *)

(** The theorems above at the example backend, loader, model and grid. *)

Lemma CircleData_rings_up_to_rounding_witness :
  Arith_within binary32 eps32 (eps32 + eta32) eta32 /\
  fl_const binary32 1%R = 1%R /\ fl_const binary32 2%R = 2%R /\
  (exists d,
      CircleData_init binary32 eighth_turn [1; 2]%R 20 0%R = Ok d /\
      length (iterate d) = 20 /\
      forall x c, In (x, c) (iterate d) ->
        (Rabs (norm2 x - nth c [1; 2] 0) <= / 1000000)%R) /\
  (exists d,
      CircleData_init exact_arith eighth_turn [1; 2]%R 20 0%R = Ok d /\
      forall x c, In (x, c) (iterate d) -> norm2 x = nth c [1; 2]%R 0%R).
Proof.
  split; [exact binary32_within|]. split; [exact round32_1|].
  split; [exact round32_2|]. split.
  - destruct (proj1 CircleData_rings_up_to_rounding binary32 _ _ _ eighth_turn
                binary32_within round32_1 round32_2) as (d & Hd & Hlen & Hall).
    exists d. split; [exact Hd|]. split; [exact Hlen|].
    intros x c Hin. destruct (Hall x c Hin) as (Hc & _ & Hdist & _).
    eapply Rle_trans; [exact Hdist|]. apply binary32_ring_error.
    destruct c as [|[|k]]; [now left|now right|lia].
  - destruct (proj1 CircleData_rings_up_to_rounding exact_arith _ _ _ eighth_turn
                exact_arith_within eq_refl eq_refl) as (d & Hd & _ & Hall).
    exists d. split; [exact Hd|].
    intros x c Hin. destruct (Hall x c Hin) as (Hc & _ & Hdist & _).
    assert (Hr : (nth c [1; 2] 0 = 1 \/ nth c [1; 2] 0 = 2)%R)
      by (destruct c as [|[|k]]; [now left|now right|lia]).
    unfold ring_error in Hdist. cbv zeta in Hdist.
    set (r := nth c [1; 2]%R 0%R) in *.
    replace ((4 * r * (r * (0 + 0 + 0 * 0) + 0)
              + 2 * (r * (0 + 0 + 0 * 0) + 0) * (r * (0 + 0 + 0 * 0) + 0)) / r)%R
      with 0%R in Hdist by (field; destruct Hr as [-> | ->]; lra).
    unfold Rabs in Hdist. destruct (Rcase_abs (norm2 x - r)); lra.
Defined.

Lemma CircleData_rings_not_exact :
  exists d x c,
    CircleData_init binary32 eighth_turn [1; 2]%R 20 0%R = Ok d /\
    nth_error (iterate d) 0 = Some (x, c) /\
    c = 0 /\ norm2 x <> nth c [1; 2]%R 0%R.
Proof.
  assert (E := CircleData_init_Ok binary32 eighth_turn [1; 2]%R 20 0%R
                 ltac:(discriminate)).
  destruct (iterate_init _ _ _ _ _ _ E) as [_ Hit].
  destruct (eighth_turn_point 0) as (X & Y & Hp & HX & HY & HX0 & HY0).
  eexists. exists [X; Y], 0. split; [exact E|].
  split; [rewrite Hit, <- Hp; reflexivity|]. split; [reflexivity|].
  unfold norm2. cbn [nth]. intros Hn.
  assert (Hpos : (0 <= X * X + Y * Y)%R) by nra.
  assert (Hxy : (X * X + Y * Y = 2 ^ 0 * 2 ^ 0)%R).
  { rewrite <- (sqrt_sqrt _ Hpos), Hn. simpl. lra. }
  destruct (binary32_on_ring X Y 0 HX HY Hxy); lra.
Qed.

Lemma train_loop_refines_sgd_witness :
  World_ok example_world /\
  Forall (Batch_ok 2 6) (yields example_loader 0) /\
  exists w',
    train_loop ridge_autograd false example_loader optimizer true example_world
    = Ok (tt, w') /\
    model w' =
      sgd_update learning_rate example_model
        (ridge_autograd example_model (fst example_batch) (snd example_batch)) /\
    grad w' =
      Some (ridge_autograd example_model (fst example_batch) (snd example_batch)).
Proof.
  assert (Hw : World_ok example_world)
    by (split; [apply make_model_ok|exact I]).
  assert (Hb : Forall (Batch_ok 2 6) (yields example_loader 0))
    by (repeat constructor; cbn; lia).
  split; [exact Hw|]. split; [exact Hb|].
  destruct (train_loop_refines_sgd ridge_autograd false
              (fun m x y _ => ridge_autograd_fits m x y)
              example_loader optimizer true example_world Hw Hb)
    as (_ & w' & Hrun & Hmod & Hgrad & _).
  exists w'. split; [exact Hrun|]. split; [exact Hmod|exact Hgrad].
Defined.

Lemma verbose_only_prints_witness :
  World_ok example_world /\
  Forall (Batch_ok 2 6) (yields example_loader 0) /\
  exists quiet loud,
    train_loop ridge_autograd true example_loader optimizer false example_world
    = Ok (tt, quiet) /\
    train_loop ridge_autograd true example_loader optimizer true example_world
    = Ok (tt, loud) /\
    model loud = model quiet /\
    stdout quiet = [] /\
    stdout loud =
      [ {| log_loss := loss_value example_model example_batch;
           log_current := 2;
           log_size := 2 |} ].
Proof.
  assert (Hw : World_ok example_world)
    by (split; [apply make_model_ok|exact I]).
  assert (Hb : Forall (Batch_ok 2 6) (yields example_loader 0))
    by (repeat constructor; cbn; lia).
  split; [exact Hw|]. split; [exact Hb|].
  destruct (verbose_only_prints ridge_autograd true
              (fun m x y _ => ridge_autograd_fits m x y)
              example_loader optimizer example_world Hw Hb)
    as (quiet & loud & Hq & Hl & Hm & _ & _ & Hsq & Hsl).
  exists quiet, loud.
  split; [exact Hq|]. split; [exact Hl|]. split; [exact Hm|].
  split; [exact Hsq|exact Hsl].
Defined.

Lemma checkpoints_at_epoch_boundaries_witness :
  (forall k, Forall (Batch_ok 2 6) (yields example_loader k)) /\
  ncol example_mesh = 2 /\
  World_ok example_world /\
  exists preds w',
    training ridge_autograd false example_loader example_mesh example_world
    = Ok (preds, w') /\
    length preds = 6 /\
    map snd (panels preds) = [0; 10; 20; 50; 100; 500].
Proof.
  assert (Hw : World_ok example_world)
    by (split; [apply make_model_ok|exact I]).
  assert (Hb : forall k, Forall (Batch_ok 2 6) (yields example_loader k))
    by (intros k; repeat constructor; cbn; lia).
  assert (Hm : ncol example_mesh = 2) by reflexivity.
  split; [exact Hb|]. split; [exact Hm|]. split; [exact Hw|].
  destruct (checkpoints_at_epoch_boundaries ridge_autograd false
              (fun m x y _ => ridge_autograd_fits m x y)
              example_loader example_mesh example_world Hb Hm Hw)
    as (preds & w' & Hrun & _ & _ & Hlen & _ & Hsnd & _).
  exists preds, w'. split; [exact Hrun|]. split; [exact Hlen|exact Hsnd].
Defined.

Lemma stored_fields_are_distributions_witness :
  (forall k, Forall (Batch_ok 2 6) (yields example_loader k)) /\
  ncol example_mesh = 2 /\
  World_ok example_world /\
  0 < out_features (fc2 (model example_world)) /\
  exists preds w',
    training ridge_autograd true example_loader example_mesh example_world
    = Ok (preds, w') /\
    Forall (fun p => Forall (distribution 6) (rows p)) preds.
Proof.
  assert (Hw : World_ok example_world)
    by (split; [apply make_model_ok|exact I]).
  assert (Hb : forall k, Forall (Batch_ok 2 6) (yields example_loader k))
    by (intros k; repeat constructor; cbn; lia).
  assert (Hm : ncol example_mesh = 2) by reflexivity.
  assert (Hpos : 0 < out_features (fc2 (model example_world))) by (cbn; lia).
  split; [exact Hb|]. split; [exact Hm|]. split; [exact Hw|].
  split; [exact Hpos|].
  destruct (stored_fields_are_distributions ridge_autograd true
              (fun m x y _ => ridge_autograd_fits m x y)
              example_loader example_mesh example_world Hb Hm Hw Hpos)
    as (preds & w' & Hrun & Hall).
  exists preds, w'. split; [exact Hrun|].
  clear Hrun. induction Hall as [|e p es ps (we & s & _ & _ & _ & _ & Hd) _ IH];
    constructor; [exact Hd|exact IH].
Defined.

Lemma evaluation_grid_witness :
  (forall k, Forall (Batch_ok 2 6) (yields example_loader k)) /\
  in_features (fc1 (model example_world)) = 2 /\
  World_ok example_world /\
  exists d L,
    make_dataset binary32 example_generator = Ok d /\
    ax_length_of radii d = Ok L /\
    nrow (make_mesh L) = 101 * 101.
Proof.
  assert (Hw : World_ok example_world)
    by (split; [apply make_model_ok|exact I]).
  assert (Hb : forall k, Forall (Batch_ok 2 6) (yields example_loader k))
    by (intros k; repeat constructor; cbn; lia).
  split; [exact Hb|]. split; [reflexivity|]. split; [exact Hw|].
  destruct (evaluation_grid ridge_autograd false
              (fun m x y _ => ridge_autograd_fits m x y)
              binary32 example_generator
              example_loader example_world Hb eq_refl Hw)
    as (d & M & L & Hd & Hax & _ & _ & _ & Hgrid).
  cbv zeta in Hgrid. destruct Hgrid as (_ & _ & _ & _ & _ & Hn & _).
  exists d, L. split; [exact Hd|]. split; [exact Hax|exact Hn].
Defined.

Lemma evaluation_repeatable_witness :
  Sequential_ok (model example_world) /\
  ncol example_mesh = in_features (fc1 (model example_world)) /\
  exists p,
    (p1 <- predict example_mesh ;; p2 <- predict example_mesh ;;
     ret (p1, p2))%world example_world
    = Ok ((p, p), example_world).
Proof.
  assert (Hm : Sequential_ok (model example_world)) by apply make_model_ok.
  split; [exact Hm|]. split; [reflexivity|].
  destruct (evaluation_repeatable example_mesh example_world Hm eq_refl)
    as (p & Hp & _).
  exists p. exact Hp.
Defined.

Lemma plot_ax_blends_witness :
  well_shaped example_field /\
  nrow example_field = npoints * npoints /\
  mapM to_rgb (firstn (ncol example_field) default_cols)
  = Ok [[1; 0; 0]; [0; 0; 1]]%R /\
  exists ax,
    plot_ax [] [] example_field "Epoch 0" example_samples example_samples
      0.5%R default_cols = Ok ax /\
    nth 0 (nth 0 (ax_mesh_cols ax) []) [] =
    weighted_sum (nth 0 (rows example_field) []) [[1; 0; 0]; [0; 0; 1]]%R.
Proof.
  assert (Hws : well_shaped example_field).
  { apply Forall_forall. intros r Hr. apply repeat_spec in Hr. now subst r. }
  assert (Hn : nrow example_field = npoints * npoints) by apply repeat_length.
  assert (Hpal : mapM to_rgb (firstn (ncol example_field) default_cols)
                 = Ok [[1; 0; 0]; [0; 0; 1]]%R) by reflexivity.
  split; [exact Hws|]. split; [exact Hn|]. split; [exact Hpal|].
  destruct (plot_ax_blends [] [] example_field "Epoch 0" example_samples
              example_samples 0.5%R default_cols _ Hws
              ltac:(cbn; lia) Hn ltac:(cbn; lia) Hpal
              ltac:(discriminate) ltac:(discriminate))
    as (ax & Hax & _ & Hcell).
  exists ax. split; [exact Hax|].
  destruct (Hcell 0 0 ltac:(unfold npoints; lia) ltac:(unfold npoints; lia))
    as (Hc & _).
  exact Hc.
Defined.

Lemma palette_covers_classes_witness :
  ncol example_field <= length default_cols /\
  length (firstn (ncol example_field) default_cols) = 2 /\
  plot_ax [] [] example_field "Epoch 0" example_samples example_samples
    0.5%R default_cols <> Raise ShapeError.
Proof.
  assert (H : ncol example_field <= length default_cols) by (cbn; lia).
  split; [exact H|].
  destruct (palette_covers_classes [] [] example_field "Epoch 0"
              example_samples example_samples 0.5%R default_cols H)
    as (Hlen & _ & Hno & _).
  split; [exact Hlen|exact Hno].
Defined.

(* ================================================================== *)
(** * Further properties of the code *)

(** ** The dataset as a sequence *)

(** X1. A dataset that [CircleData] returns holds exactly [n_dpt] samples:
    [__len__] is [n_dpt], [__getitem__] returns a point of two coordinates
    with a label below the number of radii at every index below it and
    raises [IndexError] at every other, and iterating the dataset yields
    these samples in order.  The constructor raises only for an empty list
    of radii. *)
Theorem CircleData_sequence_protocol (fl : Arith) (g : Generator) (rs : list R)
    (n : nat) (std : R) :
  match CircleData_init fl g rs n std with
  | Ok d =>
      CircleData_len d = n /\
      ncol (inputs d) = 2 /\ well_shaped (inputs d) /\ nrow (inputs d) = n /\
      length (cats d) = n /\
      length (iterate d) = n /\
      (forall i, i < n ->
         exists x c,
           CircleData_getitem d i = Ok (x, c) /\
           nth_error (iterate d) i = Some (x, c) /\
           length x = 2 /\ c < length rs) /\
      (forall i, n <= i -> CircleData_getitem d i = Raise IndexError)
  | Raise e => e = RangeError /\ rs = []
  end.
Proof.
  destruct rs as [|r rs]; [now rewrite CircleData_init_Raise|].
  assert (E := CircleData_init_Ok fl g (r :: rs) n std ltac:(discriminate)).
  destruct (iterate_init _ _ _ _ _ _ E) as [_ Hit].
  rewrite E. rewrite Hit. unfold CircleData_len, nrow, well_shaped.
  cbn [n_dpt inputs rows cats ncol].
  rewrite !length_map, !length_seq.
  repeat (split; [reflexivity|]).
  split; [|split; [reflexivity|split; [reflexivity|split; [reflexivity|split]]]].
  - apply Forall_forall. intros x Hx. now apply in_map_iff in Hx as (i & <- & _).
  - intros i Hi. exists (drawn_point fl g (r :: rs) std i), (drawn_cat g (r :: rs) i).
    split; [|split; [|split]].
    + unfold CircleData_getitem. cbn [inputs rows cats].
      rewrite (lookup_lt _ i []) by now rewrite length_map, length_seq.
      rewrite (lookup_lt _ i 0) by now rewrite length_map, length_seq.
      cbn [rbind].
      rewrite (nth_indep _ [] (drawn_point fl g (r :: rs) std 0))
        by now rewrite length_map, length_seq.
      rewrite (nth_indep _ 0 (drawn_cat g (r :: rs) 0))
        by now rewrite length_map, length_seq.
      rewrite (map_nth (drawn_point fl g (r :: rs) std)),
              (map_nth (drawn_cat g (r :: rs))), seq_nth by exact Hi.
      reflexivity.
    + rewrite nth_error_map, nth_error_seq.
      destruct (Nat.ltb_spec i n); [reflexivity|lia].
    + reflexivity.
    + apply Nat.mod_upper_bound. discriminate.
  - intros i Hi. unfold CircleData_getitem, lookup. cbn [inputs rows].
    destruct (nth_error (map (drawn_point fl g (r :: rs) std) (seq 0 n)) i) eqn:En;
      [|reflexivity].
    assert (i < length (map (drawn_point fl g (r :: rs) std) (seq 0 n)))
      by (apply nth_error_Some; congruence).
    rewrite length_map, length_seq in *. lia.
Qed.

(** ** The extent of the grid *)

Lemma mapM_Raise {A B : Type} (f : A -> result B) (l : list A) (e : exn) :
  mapM f l = Raise e -> exists a, In a l /\ f a = Raise e.
Proof.
  induction l as [|a l IH]; cbn [mapM]; [discriminate|].
  destruct (f a) as [b|e'] eqn:Ea; cbn [rbind].
  - destruct (mapM f l) as [bs|e'']; cbn [rbind]; [discriminate|].
    intros H. injection H as ->. destruct (IH eq_refl) as (a' & Hin & Ha').
    exists a'. split; [now right|exact Ha'].
  - intros H. injection H as ->. exists a. split; [now left|exact Ea].
Qed.

Lemma py_max_Raise (l : list R) (e : exn) :
  py_max l = Raise e -> e = ValueError /\ l = [].
Proof. destruct l; [|discriminate]. intros H. now injection H as <-. Qed.

Lemma ax_length_of_inv (rs : list R) (d : CircleData) (L : R) :
  ax_length_of rs d = Ok L ->
  rs <> [] /\ iterate d <> [] /\ Forall (fun s => fst s <> []) (iterate d) /\
  exists r M,
    L = Rmax (r * 1.5) M /\ largest r rs /\ largest M (magnitudes d).
Proof.
  unfold ax_length_of. intros H.
  destruct (py_max rs) as [r|e] eqn:Hr; cbn [rbind] in H; [|discriminate].
  destruct (mapM (fun s => py_max (map Rabs (fst s))) (iterate d))
    as [ms|e] eqn:Hms; cbn [rbind] in H; [|discriminate].
  destruct (py_max ms) as [M|e] eqn:HM; cbn [rbind] in H; [|discriminate].
  injection H as <-.
  apply mapM_Ok_Forall2 in Hms.
  assert (Hall : Forall2 (fun s m => largest m (map Rabs (fst s))) (iterate d) ms).
  { eapply Forall2_impl; [|exact Hms]. intros s m. apply py_max_largest. }
  split; [intros ->; discriminate|]. split; [|split].
  - intros E0. rewrite E0 in Hms. inversion Hms; subst. discriminate.
  - clear Hall HM. induction Hms as [|s m l ms' Hs _ IH]; constructor; [|exact IH].
    intros E0. rewrite E0 in Hs. discriminate.
  - exists r, M. split; [reflexivity|]. split; [now apply py_max_largest|].
    apply (largest_of_rows _ ms); [exact Hall|now apply py_max_largest].
Qed.

(** X3. When the extent [ax_length] is computed, every coordinate of every
    data point lies in [-ax_length, ax_length], and 1.5 times every radius
    is at most [ax_length]: the grid covers all the data and all the rings
    with a margin. *)
Theorem data_inside_grid (rs : list R) (d : CircleData) (L : R) :
  ax_length_of rs d = Ok L ->
  (forall r, In r rs -> (r * 1.5 <= L)%R) /\
  (forall x c v, In (x, c) (iterate d) -> In v x -> (- L <= v <= L)%R).
Proof.
  intros H.
  destruct (ax_length_of_inv rs d L H) as (_ & _ & _ & r & M & -> & [_ Hr] & [_ HM]).
  split.
  - intros r0 Hr0. specialize (Hr r0 Hr0).
    pose proof (Rmax_l (r * 1.5) M). lra.
  - intros x c v Hin Hv.
    assert (Hv' : (Rabs v <= M)%R).
    { apply HM. unfold magnitudes. apply in_flat_map.
      exists (x, c). split; [exact Hin|]. cbn [fst]. now apply in_map. }
    pose proof (Rmax_r (r * 1.5) M).
    assert (Hb : (Rabs v <= Rmax (r * 1.5) M)%R) by lra.
    unfold Rabs in Hb. destruct (Rcase_abs v); lra.
Qed.

Lemma data_inside_grid_witness :
  exists L,
    ax_length_of [1; 2]%R example_dataset = Ok L /\
    (forall r, In r [1; 2]%R -> (r * 1.5 <= L)%R) /\
    (forall x c v, In (x, c) (iterate example_dataset) -> In v x ->
                   (- L <= v <= L)%R).
Proof.
  eexists. split; [reflexivity|].
  apply (data_inside_grid [1; 2]%R example_dataset). reflexivity.
Defined.

(** X4. Computing the extent succeeds exactly when there is a radius, a
    data point, and no data point without coordinates; every failure is the
    [ValueError] of [max] on an empty sequence.  In particular a dataset of
    zero samples, which [CircleData] builds without complaint, makes the
    computation raise. *)
Theorem ax_length_of_raises (rs : list R) (d : CircleData) :
  ((exists L, ax_length_of rs d = Ok L) <->
   rs <> [] /\ iterate d <> [] /\ Forall (fun s => fst s <> []) (iterate d)) /\
  (forall e, ax_length_of rs d = Raise e -> e = ValueError) /\
  (forall (fl : Arith) (g : Generator) (std : R),
     match CircleData_init fl g rs 0 std with
     | Ok d0 => iterate d0 = [] /\ ax_length_of rs d0 = Raise ValueError
     | Raise _ => rs = []
     end).
Proof.
  split; [|split].
  - split.
    + intros [L HL]. destruct (ax_length_of_inv rs d L HL) as (H1 & H2 & H3 & _).
      now repeat split.
    + intros (H1 & H2 & H3).
      destruct (ax_length_of_spec rs d H1 H2 H3) as (r & M & H & _). eauto.
  - unfold ax_length_of. intros e H.
    destruct (py_max rs) as [r|e1] eqn:Hr; cbn [rbind] in H.
    + destruct (mapM (fun s => py_max (map Rabs (fst s))) (iterate d))
        as [ms|e2] eqn:Hms; cbn [rbind] in H.
      * destruct (py_max ms) as [M|e3] eqn:HM; cbn [rbind] in H; [discriminate|].
        injection H as <-. now apply py_max_Raise in HM.
      * injection H as <-. apply mapM_Raise in Hms as (s & _ & Hs).
        now apply py_max_Raise in Hs.
    + injection H as <-. now apply py_max_Raise in Hr.
  - intros fl g std. destruct rs as [|r rs]; [reflexivity|].
    rewrite CircleData_init_Ok by discriminate. split; reflexivity.
Qed.

(** ** The grid and the coordinates of the plot *)

Lemma nth_map_default {A B : Type} (f : A -> B) (l : list A) (i : nat)
    (d : A) (d' : B) :
  i < length l -> nth i (map f l) d' = f (nth i l d).
Proof.
  intros Hi. rewrite (nth_indep _ d' (f d)) by now rewrite length_map.
  apply map_nth.
Qed.

(** X5. The coordinate arrays [x] and [y] handed to the plot are 101 by 101,
    and the mesh the model is evaluated on lists their points row by row:
    row i * 101 + j of the mesh is the point (x[i][j], y[i][j]), where
    x[i][j] is the i-th and y[i][j] the j-th value of the axis. *)
Theorem mesh_matches_plot_coordinates (L : R) :
  let x := fst (grid_xy L) in
  let y := snd (grid_xy L) in
  let axis := linspace (- L) L npoints in
  length x = npoints /\ length y = npoints /\
  Forall (fun r => length r = npoints) x /\
  Forall (fun r => length r = npoints) y /\
  forall i j, i < npoints -> j < npoints ->
    nth (i * npoints + j) (rows (make_mesh L)) [] =
      [nth j (nth i x []) 0%R; nth j (nth i y []) 0%R] /\
    nth j (nth i x []) 0%R = nth i axis 0%R /\
    nth j (nth i y []) 0%R = nth j axis 0%R.
Proof.
  intros x y axis.
  assert (Hlen : length axis = npoints) by apply length_linspace.
  assert (Hx : x = map (fun a => map (fun _ => a) axis) axis) by reflexivity.
  assert (Hy : y = map (fun _ => axis) axis) by reflexivity.
  split; [now rewrite Hx, length_map|]. split; [now rewrite Hy, length_map|].
  split; [|split].
  - rewrite Hx. apply Forall_forall. intros r Hr.
    apply in_map_iff in Hr as (a & <- & _). now rewrite length_map.
  - rewrite Hy. apply Forall_forall. intros r Hr.
    now apply in_map_iff in Hr as (a & <- & _).
  - intros i j Hi Hj.
    assert (Hxi : nth j (nth i x []) 0%R = nth i axis 0%R).
    { rewrite Hx. rewrite (nth_map_default _ axis i 0%R) by lia.
      now rewrite (nth_map_default _ axis j 0%R) by lia. }
    assert (Hyj : nth j (nth i y []) 0%R = nth j axis 0%R).
    { rewrite Hy. now rewrite (nth_map_default _ axis i 0%R) by lia. }
    split; [|split; assumption].
    rewrite Hxi, Hyj.
    destruct (make_mesh_spec L) as (_ & _ & _ & _ & _ & _ & Hrow).
    apply (Hrow i j); unfold npoints in *; lia.
Qed.

(** ** More on the training loop *)

Section MoreTraining.

Variable autograd : Sequential -> Tensor2 -> list nat -> Grads.
Variable set_to_none : bool.
Hypothesis autograd_fits :
  forall m x y, Sequential_ok m -> Grads_fit (autograd m x y) m.

(** Two states that differ at most in what has been printed. *)
Let alike (w1 w2 : World) : Prop :=
  model w1 = model w2 /\ grad w1 = grad w2 /\ shuffles w1 = shuffles w2.

Lemma train_batch_alike (size : nat) (opt : SGD) (v1 v2 : bool) (i : nat)
    (b : Batch) (w1 w2 : World) :
  alike w1 w2 ->
  match train_batch autograd set_to_none size opt v1 i b w1,
        train_batch autograd set_to_none size opt v2 i b w2 with
  | Ok (_, a1), Ok (_, a2) => alike a1 a2
  | Raise e1, Raise e2 => e1 = e2
  | _, _ => False
  end.
Proof.
  intros (Hm & Hg & Hs). destruct b as [x y].
  unfold train_batch, bind, model_call. rewrite <- Hm.
  destruct (Sequential_forward (model w1) x) as [s|e]; [|reflexivity].
  unfold loss_fn, lift. cbn [scores scores_from fst snd].
  destruct (CrossEntropyLoss s y) as [v|e]; cbn [rbind]; [|reflexivity].
  unfold zero_grad, backward, optimizer_step.
  cbn [loss_from model grad shuffles stdout item]. rewrite <- Hg, <- Hs.
  destruct ((i mod 100 =? 0) && v1), ((i mod 100 =? 0) && v2);
    unfold print, ret, alike; cbn [model grad shuffles stdout fst snd];
    rewrite <- ?Hm, <- ?Hg, <- ?Hs; (split; [reflexivity|split; reflexivity]).
Qed.

Lemma for_enumerate_alike (size : nat) (opt : SGD) (v1 v2 : bool)
    (batches : list Batch) :
  forall (i : nat) (w1 w2 : World),
    alike w1 w2 ->
    silent (for_enumerate (train_batch autograd set_to_none size opt v1) i batches w1)
    = silent (for_enumerate (train_batch autograd set_to_none size opt v2) i batches w2).
Proof.
  induction batches as [|b rest IH]; intros i w1 w2 Hw.
  - destruct Hw as (Hm & Hg & Hs). cbn. now rewrite Hm, Hg, Hs.
  - cbn [for_enumerate]. unfold bind.
    pose proof (train_batch_alike size opt v1 v2 i b w1 w2 Hw) as Hstep.
    destruct (train_batch autograd set_to_none size opt v1 i b w1) as [[[] a1]|e1],
             (train_batch autograd set_to_none size opt v2 i b w2) as [[[] a2]|e2];
      try contradiction.
    + now apply IH.
    + now subst.
Qed.

(** X7. Whatever the loader yields and whatever state the call starts from,
    [verbose] changes nothing but the output: with and without it
    [train_loop] either raises the same exception or ends with the same
    parameters, gradients and generator position. *)
Theorem verbose_never_changes_outcome (dl : DataLoader) (opt : SGD) (w : World) :
  silent (train_loop autograd set_to_none dl opt true w) =
  silent (train_loop autograd set_to_none dl opt false w).
Proof.
  unfold train_loop, bind, iter_dataloader.
  apply for_enumerate_alike. now repeat split.
Qed.

Lemma for_enumerate_app (body : nat -> Batch -> M unit) (u v : list Batch) :
  forall (i : nat) (w : World),
    for_enumerate body i (u ++ v) w =
    match for_enumerate body i u w with
    | Ok (_, w1) => for_enumerate body (i + length u) v w1
    | Raise e => Raise e
    end.
Proof.
  induction u as [|b u IH]; intros i w.
  - cbn. now rewrite Nat.add_0_r.
  - cbn [app for_enumerate length]. unfold bind.
    destruct (body i b w) as [[[] w1]|e]; [|reflexivity].
    rewrite IH. now replace (S i + length u) with (i + S (length u)) by lia.
Qed.

(** X8. [train_loop] stops at the first batch the model or the loss rejects:
    after any number of well-formed batches, a batch whose inputs have the
    wrong number of columns makes the call raise the shape error of the
    first linear layer, and a batch with the right columns but a different
    number of labels than inputs makes it raise [ValueError], whatever
    follows in the loader. *)
Theorem train_loop_stops_at_malformed_batch (dl : DataLoader) (opt : SGD)
    (verbose : bool) (w : World) (good rest : list Batch) (bad : Batch) :
  World_ok w ->
  yields dl (shuffles w) = good ++ bad :: rest ->
  Forall (Batch_ok (in_features (fc1 (model w))) (out_features (fc2 (model w))))
         good ->
  (ncol (fst bad) <> in_features (fc1 (model w)) ->
   train_loop autograd set_to_none dl opt verbose w = Raise ShapeError) /\
  (ncol (fst bad) = in_features (fc1 (model w)) ->
   nrow (fst bad) <> length (snd bad) ->
   train_loop autograd set_to_none dl opt verbose w = Raise ValueError).
Proof.
  intros Hw Hy Hgood.
  assert (Hrun : train_loop autograd set_to_none dl opt verbose w =
                 match for_enumerate
                         (train_batch autograd set_to_none (dataset_size dl) opt verbose)
                         0 good
                         {| model := model w; grad := grad w;
                            shuffles := S (shuffles w); stdout := stdout w |} with
                 | Ok (_, w1) =>
                     for_enumerate
                       (train_batch autograd set_to_none (dataset_size dl) opt verbose)
                       (0 + length good) (bad :: rest) w1
                 | Raise e => Raise e
                 end).
  { unfold train_loop, bind, iter_dataloader. rewrite Hy. apply for_enumerate_app. }
  rewrite Hrun.
  rewrite (for_enumerate_spec autograd set_to_none autograd_fits
             (dataset_size dl) opt verbose good 0) by (cbn [model grad]; assumption).
  cbn [model grad shuffles stdout for_enumerate]. unfold bind.
  destruct Hw as [Hm Hg].
  destruct (sgd_pass_ok autograd autograd_fits (lr opt) good _ Hm)
    as (Hm1 & Hin1 & Hout1).
  destruct bad as [x y]. cbn [fst snd] in *.
  split.
  - intros Hbad. unfold train_batch, bind, model_call. cbn [model].
    unfold Sequential_forward, Linear_forward.
    rewrite Hin1. destruct (Nat.eqb_spec (ncol x) (in_features (fc1 (model w))));
      [contradiction|reflexivity].
  - intros Hcol Hrows. unfold train_batch, bind, model_call. cbn [model].
    rewrite (Sequential_forward_Ok _ x Hm1) by congruence.
    unfold loss_fn, lift, CrossEntropyLoss. cbn [scores].
    unfold nrow in *. cbn [rows]. rewrite length_map.
    destruct (Nat.eqb_spec (length (rows x)) (length y)); [contradiction|reflexivity].
Qed.

Lemma every_hundredth (n : nat) :
  filter (fun i => i mod 100 =? 0) (seq 0 n) =
  map (fun k => 100 * k) (seq 0 ((n + 99) / 100)).
Proof.
  induction n as [|n IH]; [reflexivity|].
  rewrite seq_S, filter_app, IH, Nat.add_0_l. cbn [filter].
  pose proof (Nat.div_mod_eq n 100) as Hn.
  pose proof (Nat.mod_upper_bound n 100) as Hr.
  pose proof (Nat.div_mod_eq (n + 99) 100) as H1.
  pose proof (Nat.mod_upper_bound (n + 99) 100) as H1r.
  pose proof (Nat.div_mod_eq (S n + 99) 100) as H2.
  pose proof (Nat.mod_upper_bound (S n + 99) 100) as H2r.
  destruct (Nat.eqb_spec (n mod 100) 0) as [E|E].
  - replace ((S n + 99) / 100) with (S ((n + 99) / 100)) by lia.
    rewrite seq_S, map_app, Nat.add_0_l. cbn [map]. do 2 f_equal. lia.
  - replace ((S n + 99) / 100) with ((n + 99) / 100) by lia.
    now rewrite app_nil_r.
Qed.

(** X9. A verbose call over n well-formed batches prints the n / 100 rounded
    up lines of the batches 0, 100, 200, ...; so a call over one to a
    hundred batches prints exactly one line: the loss of the parameters the
    call started with on the first batch, with [current] the length of that
    batch and [size] the length of the loader's dataset. *)
Theorem verbose_prints_every_hundredth (dl : DataLoader) (opt : SGD) (w : World) :
  World_ok w ->
  Forall (Batch_ok (in_features (fc1 (model w))) (out_features (fc2 (model w))))
         (yields dl (shuffles w)) ->
  exists w',
    train_loop autograd set_to_none dl opt true w = Ok (tt, w') /\
    stdout w' =
      stdout w ++
      map (fun k => log_line autograd (lr opt) (dataset_size dl) (model w)
                      (yields dl (shuffles w)) (100 * k))
          (seq 0 ((length (yields dl (shuffles w)) + 99) / 100)) /\
    (forall b rest,
        yields dl (shuffles w) = b :: rest -> length rest < 100 ->
        stdout w' =
          stdout w ++ [ {| log_loss := loss_value (model w) b;
                           log_current := nrow (fst b);
                           log_size := dataset_size dl |} ]).
Proof.
  intros Hw Hbs. eexists. split; [now apply train_loop_spec|].
  cbn [stdout]. rewrite log_from_printed. unfold printed.
  rewrite every_hundredth, map_map. split; [reflexivity|].
  intros b rest Hy Hlen. rewrite Hy. cbn [length].
  replace ((S (length rest) + 99) / 100) with 1.
  - cbn [seq map]. rewrite Nat.mul_0_r. unfold log_line.
    cbn [nth firstn sgd_pass fold_left].
    change (0 + 1) with 1. now rewrite Nat.mul_1_l.
  - pose proof (Nat.div_mod_eq (S (length rest) + 99) 100).
    pose proof (Nat.mod_upper_bound (S (length rest) + 99) 100). lia.
Qed.

Lemma model_after_concat (dl : DataLoader) (k : nat) (m : Sequential) (e : nat) :
  model_after autograd dl k m e =
  sgd_pass autograd learning_rate m
    (concat (map (fun j => yields dl (k + j)) (seq 0 e))).
Proof.
  induction e as [|e IH]; [reflexivity|].
  rewrite seq_S, map_app, concat_app, sgd_pass_app, <- IH, Nat.add_0_l.
  cbn [model_after map concat]. now rewrite app_nil_r.
Qed.

(** X10. Calling [train_loop] once per epoch, as the script does, moves the
    parameters exactly as one call over a loader that yields the batches of
    all these epochs in a row: both end with the parameters of the
    gradient-descent recurrence over the concatenated batches and print
    nothing; only the generator has been asked for one shuffle per epoch
    instead of one. *)
Theorem epochs_are_one_long_pass (dl : DataLoader) (w : World) (e : nat) :
  (forall k, Forall (Batch_ok (in_features (fc1 (model w)))
                              (out_features (fc2 (model w)))) (yields dl k)) ->
  World_ok w ->
  exists we w1,
    train_epochs autograd set_to_none dl e w = Ok (tt, we) /\
    train_loop autograd set_to_none
      {| dataset_size := dataset_size dl;
         yields := fun _ =>
           concat (map (fun j => yields dl (shuffles w + j)) (seq 0 e)) |}
      optimizer false w = Ok (tt, w1) /\
    model we = model w1 /\
    model we =
      sgd_pass autograd learning_rate (model w)
        (concat (map (fun j => yields dl (shuffles w + j)) (seq 0 e))) /\
    stdout we = stdout w /\ stdout w1 = stdout w /\
    shuffles we = shuffles w + e /\ shuffles w1 = S (shuffles w).
Proof.
  intros Hbs Hw.
  destruct (train_epochs_spec autograd set_to_none autograd_fits dl _ _ w Hbs Hw
              eq_refl eq_refl e) as (we & Hrun & _ & Hmod & Hsh & Hout).
  exists we. eexists. split; [exact Hrun|].
  split.
  - apply train_loop_spec; [exact autograd_fits|exact Hw|].
    cbn [yields]. apply Forall_forall. intros b Hb.
    apply in_concat in Hb as (l & Hl & Hb).
    apply in_map_iff in Hl as (j & <- & _).
    exact (proj1 (Forall_forall _ _) (Hbs _) b Hb).
  - cbn [model stdout shuffles yields]. rewrite Hmod, model_after_concat.
    split; [reflexivity|]. split; [reflexivity|]. split; [exact Hout|].
    split; [now rewrite app_nil_r|]. split; [exact Hsh|reflexivity].
Qed.

(** X11. The six evaluations over the grid leave the training as it would
    be without them: the script's loop ends with the parameters and the
    generator position of [n_epochs] bare calls of [train_loop], nothing has
    been printed, and the field stored last is what the final model
    predicts over the grid. *)
Theorem evaluation_leaves_training_alone (dl : DataLoader) (mesh : Tensor2)
    (w : World) :
  (forall k, Forall (Batch_ok (in_features (fc1 (model w)))
                              (out_features (fc2 (model w)))) (yields dl k)) ->
  ncol mesh = in_features (fc1 (model w)) ->
  World_ok w ->
  exists preds w' we,
    training autograd set_to_none dl mesh w = Ok (preds, w') /\
    train_epochs autograd set_to_none dl n_epochs w = Ok (tt, we) /\
    model w' = model we /\
    shuffles w' = shuffles we /\
    stdout w' = stdout w /\ stdout we = stdout w /\
    predict mesh w' = Ok (last preds mesh, w').
Proof.
  intros Hbs Hmesh Hw.
  destruct (training_spec autograd set_to_none autograd_fits dl mesh w Hbs Hmesh Hw)
    as (w' & Hrun & Hw' & Hmod & Hsh & Hout).
  destruct (train_epochs_spec autograd set_to_none autograd_fits dl _ _ w Hbs Hw
              eq_refl eq_refl n_epochs) as (we & Hrune & _ & Hmode & Hshe & Houte).
  eexists. exists w', we.
  split; [exact Hrun|]. split; [exact Hrune|].
  split; [congruence|]. split; [congruence|].
  split; [exact Hout|]. split; [exact Houte|].
  destruct Hw as [Hm _].
  destruct (model_after_ok autograd autograd_fits dl (shuffles w) (model w) n_epochs Hm)
    as (Hok & Hin & _).
  rewrite predict_spec, Hmod.
  rewrite (evaluate_Ok _ mesh Hok) by (now rewrite Hin).
  reflexivity.
Qed.

Lemma grid_xy_entries (L : R) (i j : nat) :
  i < npoints -> j < npoints ->
  nth j (nth i (fst (grid_xy L)) []) 0%R = nth i (linspace (- L) L npoints) 0%R /\
  nth j (nth i (snd (grid_xy L)) []) 0%R = nth j (linspace (- L) L npoints) 0%R.
Proof.
  intros Hi Hj.
  pose proof (length_linspace (- L) L npoints) as Hlen.
  unfold grid_xy, meshgrid_ij. cbn [fst snd]. split.
  - rewrite (nth_map_default _ _ i 0%R) by lia.
    now rewrite (nth_map_default _ _ j 0%R) by lia.
  - now rewrite (nth_map_default _ _ i 0%R) by lia.
Qed.

Lemma field_of_cell (m : Sequential) (L : R) (i j : nat) :
  i < npoints -> j < npoints ->
  nth (i * npoints + j) (rows (field_of m (make_mesh L))) [] =
  softmax_row (score_row m [nth i (linspace (- L) L npoints) 0%R;
                            nth j (linspace (- L) L npoints) 0%R]).
Proof.
  intros Hi Hj.
  destruct (make_mesh_spec L) as (_ & _ & _ & _ & _ & Hrows & Hrow).
  unfold nrow in Hrows. unfold npoints in *.
  unfold field_of, Softmax. cbn [rows]. rewrite map_map.
  rewrite (nth_map_default _ _ _ []) by lia.
  now rewrite (Hrow i j) by lia.
Qed.

Lemma plot_ax_inv (x y : list (list R)) (mesh_pred : Tensor2) (title : string)
    (trn_dset tst_dset : list (list R * nat)) (alpha : R) (cols : list string)
    (ax : Axes) :
  plot_ax x y mesh_pred title trn_dset tst_dset alpha cols = Ok ax ->
  exists col_rgb mesh_cols image s1 s2,
    mapM to_rgb (firstn (ncol mesh_pred) cols) = Ok col_rgb /\
    matmul_rgb mesh_pred col_rgb = Ok mesh_cols /\
    reshape_grid npoints mesh_cols = Ok image /\
    add_scatter trn_dset "o"%string (firstn (ncol mesh_pred) cols) = Ok s1 /\
    add_scatter tst_dset "x"%string (firstn (ncol mesh_pred) cols) = Ok s2 /\
    ax = {| ax_x := x; ax_y := y; ax_mesh_cols := image;
            ax_cmap := firstn (ncol mesh_pred) cols; ax_alpha := alpha;
            ax_title := title; ax_scatter := [s1; s2] |}.
Proof.
  unfold plot_ax. intros H.
  destruct (mapM to_rgb (firstn (ncol mesh_pred) cols)) as [col_rgb|e] eqn:E1;
    cbn [rbind] in H; [|discriminate].
  destruct (matmul_rgb mesh_pred col_rgb) as [mesh_cols|e] eqn:E2;
    cbn [rbind] in H; [|discriminate].
  destruct (reshape_grid npoints mesh_cols) as [image|e] eqn:E3;
    cbn [rbind] in H; [|discriminate].
  destruct (add_scatter trn_dset "o" (firstn (ncol mesh_pred) cols)) as [s1|e] eqn:E4;
    cbn [rbind] in H; [|discriminate].
  destruct (add_scatter tst_dset "x" (firstn (ncol mesh_pred) cols)) as [s2|e] eqn:E5;
    cbn [rbind] in H; [|discriminate].
  exists col_rgb, mesh_cols, image, s1, s2.
  injection H as <-. tauto.
Qed.

Lemma figure_coordinates (x y : list (list R)) (preds : list Tensor2)
    (train_dataset test_dataset : list (list R * nat)) (axes : list Axes) :
  figure x y preds train_dataset test_dataset = Ok axes ->
  Forall (fun ax => ax_x ax = x /\ ax_y ax = y) axes.
Proof.
  unfold figure. intros H. apply mapM_Ok_Forall2 in H.
  induction H as [|p ax ps axs Hp _ IH]; constructor; [|exact IH].
  apply plot_ax_inv in Hp as (? & ? & ? & ? & ? & _ & _ & _ & _ & _ & ->).
  split; reflexivity.
Qed.

Lemma Forall2_map_l_inv {A B C : Type} (P : B -> C -> Prop) (f : A -> B)
    (l : list A) :
  forall l', Forall2 P (map f l) l' -> Forall2 (fun a c => P (f a) c) l l'.
Proof.
  induction l as [|a l IH]; intros l' H; inversion H; subst; constructor; auto.
Qed.

Lemma Forall2_with_r {A B : Type} (P Q : A -> B -> Prop) (R : B -> Prop)
    (l : list A) (l' : list B) :
  (forall a b, P a b -> R b -> Q a b) ->
  Forall2 P l l' -> Forall R l' -> Forall2 Q l l'.
Proof.
  intros HQ H. induction H as [|a b l l' Hab _ IH]; intros HR; constructor;
    inversion HR; subst; auto.
Qed.

(** X12. Each panel of the script's figure shows, at the cell (i, j) of its
    mesh plot, the blend of the six class colours weighted by what the model
    of the panel's epoch predicts at the very point (x[i][j], y[i][j]) the
    plot puts this cell at: flattening the grid for the model and reshaping
    the colours for the plot undo each other. *)
Theorem panels_show_model_at_their_coordinates (dl : DataLoader) (w : World)
    (L : R) (train_dataset test_dataset : list (list R * nat)) :
  (forall k, Forall (Batch_ok 2 n_cats) (yields dl k)) ->
  World_ok w ->
  in_features (fc1 (model w)) = 2 ->
  out_features (fc2 (model w)) = n_cats ->
  train_dataset <> [] -> test_dataset <> [] ->
  exists preds w' axes,
    training autograd set_to_none dl (make_mesh L) w = Ok (preds, w') /\
    figure (fst (grid_xy L)) (snd (grid_xy L)) preds train_dataset test_dataset
    = Ok axes /\
    Forall2 (fun e ax =>
               forall i j, i < npoints -> j < npoints ->
                 nth j (nth i (ax_mesh_cols ax) []) [] =
                 weighted_sum
                   (softmax_row
                      (score_row (model_after autograd dl (shuffles w) (model w) e)
                         [nth j (nth i (ax_x ax) []) 0%R;
                          nth j (nth i (ax_y ax) []) 0%R]))
                   script_palette)
            epochs_to_plot axes.
Proof.
  intros Hbs Hw Hin Hout Htrn Htst.
  destruct (figure_of_training autograd set_to_none autograd_fits dl w L
              (fst (grid_xy L)) (snd (grid_xy L)) train_dataset test_dataset
              Hbs Hw Hin Hout Htrn Htst)
    as (preds & w' & axes & Hrun & Hfig & Hcells).
  exists preds, w', axes. split; [exact Hrun|]. split; [exact Hfig|].
  assert (Hbs' : forall k, Forall (Batch_ok (in_features (fc1 (model w)))
                                     (out_features (fc2 (model w)))) (yields dl k))
    by (now rewrite Hin, Hout).
  assert (Hmesh : ncol (make_mesh L) = in_features (fc1 (model w)))
    by (now rewrite Hin).
  destruct (training_spec autograd set_to_none autograd_fits dl (make_mesh L) w
              Hbs' Hmesh Hw) as (w'' & Hrun' & _).
  assert (Hpreds : preds =
                   map (fun e => field_of (model_after autograd dl (shuffles w)
                                             (model w) e) (make_mesh L))
                       epochs_to_plot) by congruence.
  rewrite Hpreds in Hcells. apply Forall2_map_l_inv in Hcells.
  refine (Forall2_with_r _ _ _ _ _ _ Hcells
            (figure_coordinates _ _ _ _ _ _ Hfig)).
  intros e ax Hc [Hx Hy] i j Hi Hj. cbv beta in Hc.
  destruct (grid_xy_entries L i j Hi Hj) as [Exi Eyj].
  rewrite (proj2 Hc i j Hi Hj), Hx, Hy, Exi, Eyj.
  now rewrite field_of_cell.
Qed.

End MoreTraining.

(** ** The data loader of the script *)

Lemma batched_concat (size : nat) :
  0 < size ->
  forall (fuel : nat) (l : list nat),
    length l <= fuel -> concat (batched fuel size l) = l.
Proof.
  intros Hsize. induction fuel as [|fuel IH]; intros l Hl.
  - destruct l; [reflexivity|cbn in Hl; lia].
  - destruct l as [|a l]; [reflexivity|]. cbn [batched concat].
    rewrite IH; [apply firstn_skipn|].
    rewrite length_skipn. cbn [length] in *. lia.
Qed.

Lemma batched_lengths (size : nat) :
  0 < size ->
  forall (fuel : nat) (l : list nat),
    length l <= fuel ->
    map (@length nat) (batched fuel size l) =
    repeat size (length l / size) ++
    (if length l mod size =? 0 then [] else [length l mod size]).
Proof.
  intros Hsize.
  assert (Hnil : forall fuel, map (@length nat) (batched fuel size []) =
                              repeat size (0 / size) ++
                              (if 0 mod size =? 0 then [] else [0 mod size])).
  { intros fuel. rewrite Nat.div_small, Nat.mod_small by lia.
    now destruct fuel. }
  induction fuel as [|fuel IH]; intros l Hl.
  - destruct l; [apply Hnil|cbn in Hl; lia].
  - destruct l as [|a l]; [apply Hnil|]. cbn [batched map].
    remember (a :: l) as l0 eqn:E0.
    assert (Hpos : 0 < length l0) by (subst l0; cbn; lia).
    rewrite IH by (rewrite length_skipn; lia).
    rewrite length_firstn, length_skipn.
    destruct (Nat.lt_ge_cases (length l0) size) as [Hlt|Hge].
    + replace (length l0 - size) with 0 by lia.
      rewrite (Nat.div_small 0), (Nat.mod_small 0) by lia.
      rewrite (Nat.div_small (length l0)), (Nat.mod_small (length l0)) by lia.
      rewrite Nat.min_r by lia. cbn [repeat app Nat.eqb].
      destruct (Nat.eqb_spec (length l0) 0); [lia|reflexivity].
    + rewrite Nat.min_l by lia.
      set (m := length l0 - size).
      assert (Hm : length l0 = m + 1 * size) by (unfold m; lia).
      rewrite Hm, Nat.div_add, Nat.Div0.mod_add by lia.
      now rewrite Nat.add_1_r.
Qed.

Lemma fetch_length (samples : list (list R * nat)) (indices : list nat) :
  Forall (fun i => i < length samples) indices ->
  length (fetch samples indices) = length indices.
Proof.
  induction 1 as [|i indices Hi _ IH]; [reflexivity|].
  unfold fetch in *. cbn [flat_map]. rewrite length_app, IH.
  destruct (nth_error samples i) eqn:E; [reflexivity|].
  apply nth_error_None in E. lia.
Qed.

Lemma fetch_concat (samples : list (list R * nat)) (runs : list (list nat)) :
  fetch samples (concat runs) = concat (map (fetch samples) runs).
Proof.
  induction runs as [|run runs IH]; [reflexivity|].
  cbn [concat map]. rewrite <- IH. unfold fetch. apply flat_map_app.
Qed.

Lemma fetch_shift (s : list R * nat) (samples : list (list R * nat))
    (indices : list nat) :
  fetch (s :: samples) (map S indices) = fetch samples indices.
Proof.
  induction indices as [|i indices IH]; [reflexivity|].
  unfold fetch in *. cbn [map flat_map nth_error]. now rewrite IH.
Qed.

Lemma fetch_all (samples : list (list R * nat)) :
  fetch samples (seq 0 (length samples)) = samples.
Proof.
  induction samples as [|s samples IH]; [reflexivity|].
  cbn [length seq]. rewrite <- seq_shift.
  change (fetch (s :: samples) (0 :: map S (seq 0 (length samples))))
    with (s :: fetch (s :: samples) (map S (seq 0 (length samples)))).
  now rewrite fetch_shift, IH.
Qed.

Lemma batch_samples_collate (samples : list (list R * nat)) :
  batch_samples (collate samples) = samples.
Proof.
  unfold batch_samples, collate. cbn [fst snd rows].
  rewrite combine_map_same. rewrite <- (map_id samples) at 2.
  apply map_ext. now intros [x c].
Qed.

(** X13. Every iteration of a shuffling loader goes through each sample of
    its dataset exactly once: the samples of its batches, taken together,
    are a permutation of the dataset.  The batches are full except possibly
    the last, which holds the remainder and is not dropped; the 240
    training samples of the script with its batch size of 64 make four
    batches of 64, 64, 64 and 48 samples, so four parameter updates per
    epoch. *)
Theorem epoch_visits_every_sample_once (samples : list (list R * nat))
    (size : nat) (sampler : nat -> list nat) (k : nat) :
  0 < size ->
  Permutation (sampler k) (seq 0 (length samples)) ->
  Permutation
    (concat (map batch_samples (yields (DataLoader_init samples size sampler) k)))
    samples /\
  map (fun b => nrow (fst b)) (yields (DataLoader_init samples size sampler) k) =
    repeat size (length samples / size) ++
    (if length samples mod size =? 0 then [] else [length samples mod size]) /\
  (length samples = 240 -> size = batch_size ->
   map (fun b => nrow (fst b)) (yields (DataLoader_init samples size sampler) k) =
   [64; 64; 64; 48]).
Proof.
  intros Hsize Hperm.
  assert (Hlen : length (sampler k) = length samples)
    by (rewrite (Permutation_length Hperm); apply length_seq).
  assert (Hsizes :
    map (fun b => nrow (fst b)) (yields (DataLoader_init samples size sampler) k) =
    repeat size (length samples / size) ++
    (if length samples mod size =? 0 then [] else [length samples mod size])).
  { rewrite <- Hlen.
    rewrite <- (batched_lengths size Hsize (length (sampler k)) (sampler k))
      by reflexivity.
    unfold DataLoader_init. cbn [yields]. rewrite map_map.
    apply map_ext_in. intros run Hrun.
    unfold collate, nrow. cbn [fst rows]. rewrite length_map.
    apply fetch_length, Forall_forall. intros i Hi.
    pose proof (batched_runs size Hsize (length (sampler k)) (sampler k)) as Hruns.
    rewrite Forall_forall in Hruns. destruct (Hruns run Hrun) as [_ Hin].
    apply Hin in Hi. apply (Permutation_in _ Hperm), in_seq in Hi. lia. }
  split; [|split; [exact Hsizes|]].
  - cbn [DataLoader_init yields]. rewrite map_map.
    rewrite (map_ext _ (fetch samples))
      by (intros run; apply batch_samples_collate).
    rewrite <- fetch_concat, batched_concat by (exact Hsize || reflexivity).
    rewrite <- (fetch_all samples) at 2.
    unfold fetch. now apply Permutation_flat_map.
  - intros H240 Hb. rewrite Hsizes, H240, Hb. reflexivity.
Qed.

(** ** What is handed to the plotting library *)

Lemma list_max_In (l : list nat) : l <> [] -> In (list_max l) l.
Proof.
  induction l as [|a l IH]; [congruence|]. intros _.
  change (list_max (a :: l)) with (Nat.max a (list_max l)).
  destruct l as [|b l].
  - left. cbn. lia.
  - destruct (Nat.max_spec a (list_max (b :: l))) as [[_ ->]|[_ ->]].
    + right. apply IH. discriminate.
    + now left.
Qed.

(** X14. On a dataset of points of two coordinates, as every dataset of the
    script is, [add_scatter] raises only when there is no sample, and then
    [ValueError].  Otherwise it hands the scatter plot one point per
    sample, in the order of the dataset, with the sample's two coordinates,
    its label as colour value and the marker it was given; the colour map
    is the palette cut after the entry
    of the largest label, so that every label that has an entry in the
    palette has the same one in the colour map, and the colour map has no
    entry beyond the largest label. *)
Theorem add_scatter_points (dataset : list (list R * nat)) (marker : string)
    (cols : list string) :
  Forall (fun s => length (fst s) = 2) dataset ->
  match add_scatter dataset marker cols with
  | Ok s =>
      dataset <> [] /\
      sc_marker s = marker /\
      length (sc_x s) = length dataset /\
      length (sc_y s) = length dataset /\
      length (sc_c s) = length dataset /\
      (forall i p c,
          nth_error dataset i = Some (p, c) ->
          (exists x0 x1, p = [x0; x1] /\
                         nth_error (sc_x s) i = Some x0 /\
                         nth_error (sc_y s) i = Some x1) /\
          nth_error (sc_c s) i = Some c /\
          (c < length cols -> nth_error (sc_cmap s) c = nth_error cols c)) /\
      length (sc_cmap s) = Nat.min (list_max (sc_c s) + 1) (length cols) /\
      (exists c, In c (sc_c s) /\ length (sc_cmap s) <= c + 1)
  | Raise e => dataset = [] /\ e = ValueError
  end.
Proof.
  intros Hpts.
  destruct dataset as [|s0 rest]; [split; reflexivity|].
  unfold add_scatter. cbv beta iota zeta.
  remember (s0 :: rest) as dataset eqn:Ed.
  cbn [sc_marker sc_x sc_y sc_c sc_cmap].
  split; [rewrite Ed; discriminate|]. split; [reflexivity|].
  rewrite !length_map. do 3 (split; [reflexivity|]).
  split; [|split].
  - intros i p c Hi.
    rewrite !nth_error_map, Hi. cbn [option_map fst snd].
    split.
    { pose proof (proj1 (Forall_forall _ _) Hpts _ (nth_error_In _ _ Hi)) as H2.
      cbn [fst] in H2.
      destruct p as [|x0 [|x1 [|? ?]]]; try discriminate H2.
      exists x0, x1. now repeat split. }
    split; [reflexivity|].
    intros Hc. rewrite nth_error_firstn.
    assert (Hle : c <= list_max (map snd dataset)).
    { apply (proj1 (Forall_forall _ _)
                (proj1 (list_max_le (map snd dataset) _) (Nat.le_refl _))).
      apply in_map_iff. exists (p, c). split; [reflexivity|].
      now apply nth_error_In in Hi. }
    destruct (Nat.ltb_spec c (list_max (map snd dataset) + 1)); [reflexivity|lia].
  - apply length_firstn.
  - exists (list_max (map snd dataset)). split.
    + apply list_max_In. rewrite Ed. discriminate.
    + rewrite length_firstn. lia.
Qed.

Lemma reshape_grid_length (n : nat) (t : Tensor2) (image : list (list (list R))) :
  reshape_grid n t = Ok image -> length image = n.
Proof.
  unfold reshape_grid.
  destruct ((nrow t * ncol t =? 0) || negb ((nrow t * ncol t) mod (n * n) =? 0));
    [discriminate|].
  intros H. injection H as <-. rewrite length_map. apply length_seq.
Qed.

(** X15. When [plot_ax] returns, the axes have been handed the coordinate
    arrays, the title and the transparency unchanged, an image of [npoints]
    rows, and the palette cut to one colour per class as colour map; the
    palette had at least as many colours as there are classes and both
    datasets had samples; and exactly two scatter plots were added, the
    training set with marker o and then the test set with marker x, each
    with the labels of its samples and a colour map that is the start of the
    cut palette. *)
Theorem plot_ax_layers (x y : list (list R)) (mesh_pred : Tensor2)
    (title : string) (trn_dset tst_dset : list (list R * nat)) (alpha : R)
    (cols : list string) (ax : Axes) :
  plot_ax x y mesh_pred title trn_dset tst_dset alpha cols = Ok ax ->
  ax_x ax = x /\ ax_y ax = y /\ ax_title ax = title /\ ax_alpha ax = alpha /\
  ax_cmap ax = firstn (ncol mesh_pred) cols /\
  length (ax_mesh_cols ax) = npoints /\
  ncol mesh_pred <= length cols /\
  trn_dset <> [] /\ tst_dset <> [] /\
  exists s1 s2,
    ax_scatter ax = [s1; s2] /\
    sc_marker s1 = "o"%string /\ sc_marker s2 = "x"%string /\
    sc_c s1 = map snd trn_dset /\ sc_c s2 = map snd tst_dset /\
    sc_cmap s1 = firstn (list_max (map snd trn_dset) + 1) (ax_cmap ax) /\
    sc_cmap s2 = firstn (list_max (map snd tst_dset) + 1) (ax_cmap ax).
Proof.
  intros H.
  apply plot_ax_inv in H
    as (col_rgb & mesh_cols & image & s1 & s2 & E1 & E2 & E3 & E4 & E5 & ->).
  cbn [ax_x ax_y ax_title ax_alpha ax_cmap ax_mesh_cols ax_scatter].
  do 5 (split; [reflexivity|]).
  assert (Hpal : length col_rgb = Nat.min (ncol mesh_pred) (length cols)).
  { apply mapM_Ok_Forall2, Forall2_length in E1.
    now rewrite <- E1, length_firstn. }
  split; [|split; [|split; [|split]]].
  - exact (reshape_grid_length _ _ _ E3).
  - unfold matmul_rgb in E2. destruct col_rgb as [|c0 col_rgb].
    + destruct (Nat.eqb_spec (ncol mesh_pred) 0); [lia|discriminate].
    + unfold matmul, tensor_of_rgb, nrow in E2. cbn [rows] in E2.
      destruct (Nat.eqb_spec (ncol mesh_pred) (length (c0 :: col_rgb)));
        [lia|discriminate].
  - intros ->. discriminate.
  - intros ->. discriminate.
  - exists s1, s2. split; [reflexivity|].
    destruct trn_dset as [|t0 trn]; [discriminate|].
    destruct tst_dset as [|u0 tst]; [discriminate|].
    unfold add_scatter in E4, E5.
    injection E4 as <-. injection E5 as <-.
    cbn [sc_marker sc_c sc_cmap]. now repeat split.
Qed.

(** X16. The grid of panels always has room: for any positive number of
    panels, [int(n ** 0.5)] rows and [ceil(n / rows)] columns give at least
    n cells, no more rows than columns and no row left empty; for no panel
    at all there is no row and the division raises.  The script's six
    panels get 2 rows of 3, and none of its stored fields is left out. *)
Theorem subplot_grid_holds_all_panels :
  (forall n,
      match subplot_shape n with
      | Some (r, c) =>
          0 < n /\ r * r <= n < (r + 1) * (r + 1) /\
          n <= r * c /\ r * c < n + r /\ r <= c
      | None => n = 0
      end) /\
  subplot_shape n_ax = Some (n_row, n_col) /\
  (forall preds, length preds = n_ax -> map fst (panels preds) = preds).
Proof.
  split; [|split].
  - intros n. unfold subplot_shape. cbv zeta.
    pose proof (Nat.sqrt_specif n) as Hs.
    destruct (Nat.eqb_spec (Nat.sqrt n) 0) as [E|E].
    + rewrite E in Hs. cbn in Hs. lia.
    + set (r := Nat.sqrt n) in *.
      pose proof (Nat.div_mod_eq (n + r - 1) r) as Hd.
      pose proof (Nat.mod_upper_bound (n + r - 1) r E) as Hm.
      set (c := (n + r - 1) / r) in *.
      assert (Hn : 0 < n) by nia.
      split; [exact Hn|]. split; [nia|]. split; [nia|]. split; [nia|].
      assert (r * r <= r * c) by nia. nia.
  - reflexivity.
  - intros preds Hlen.
    do 7 (destruct preds as [|? preds]; try discriminate Hlen).
    reflexivity.
Qed.

(** ** The figure the script draws *)

Lemma nth_error_combine_In {A B : Type} (l : list A) (l' : list B) :
  forall (i : nat) (a : A) (b : B),
    nth_error l i = Some a -> nth_error l' i = Some b -> In (a, b) (combine l l').
Proof.
  revert l'. induction l as [|a0 l IH]; intros l' i a b Ha Hb.
  - destruct i; discriminate.
  - destruct l' as [|b0 l']; [destruct i; discriminate|].
    destruct i as [|i]; cbn in Ha, Hb.
    + injection Ha as ->. injection Hb as ->. now left.
    + right. exact (IH l' i a b Ha Hb).
Qed.

Lemma CircleData_init_lengths (fl : Arith) (g : Generator) (rs : list R)
    (n : nat) (std : R) (d : CircleData) :
  CircleData_init fl g rs n std = Ok d ->
  length (rows (inputs d)) = length (cats d).
Proof.
  intros H. destruct (iterate_init fl g rs n std d H) as [Hrs _].
  rewrite (CircleData_init_Ok fl g rs n std Hrs) in H. injection H as <-.
  cbn [inputs rows cats]. now rewrite !length_map.
Qed.

Lemma getitem_in_iterate (d : CircleData) (i : nat) (s : list R * nat) :
  length (rows (inputs d)) = length (cats d) ->
  CircleData_getitem d i = Ok s -> In s (iterate d).
Proof.
  intros Hlen H. rewrite (iterate_combine d Hlen).
  unfold CircleData_getitem, lookup in H.
  destruct (nth_error (rows (inputs d)) i) eqn:E1; cbn [rbind] in H; [|discriminate].
  destruct (nth_error (cats d) i) eqn:E2; cbn [rbind] in H; [|discriminate].
  injection H as <-. eapply nth_error_combine_In; eassumption.
Qed.

Lemma Subset_in_iterate (d : CircleData) (indices : list nat)
    (l : list (list R * nat)) :
  length (rows (inputs d)) = length (cats d) ->
  Subset d indices = Ok l -> Forall (fun s => In s (iterate d)) l.
Proof.
  intros Hlen H. apply mapM_Ok_Forall2 in H.
  induction H as [|i s is_ ss Hs _ IH]; constructor; [|exact IH].
  exact (getitem_in_iterate d i s Hlen Hs).
Qed.

Lemma extent_bounds_points (rs : list R) (d : CircleData) (L : R) :
  ax_length_of rs d = Ok L ->
  forall s v, In s (iterate d) -> In v (fst s) -> (- L <= v <= L)%R.
Proof.
  intros H s v Hin Hv.
  destruct (ax_length_of_inv rs d L H) as (_ & _ & _ & r & M & -> & _ & [_ HM]).
  assert (Hv' : (Rabs v <= M)%R).
  { apply HM. unfold magnitudes. apply in_flat_map.
    exists s. split; [exact Hin|]. now apply in_map. }
  pose proof (Rmax_r (r * 1.5) M).
  assert (Hb : (Rabs v <= Rmax (r * 1.5) M)%R) by lra.
  unfold Rabs in Hb. destruct (Rcase_abs v); lra.
Qed.

(** The coordinates a scatter plot is handed are coordinates of the
    samples. *)
Lemma add_scatter_within (dataset : list (list R * nat)) (marker : string)
    (cols : list string) (s : Scatter) (P : R -> Prop) :
  add_scatter dataset marker cols = Ok s ->
  Forall (fun q => length (fst q) = 2 /\ forall v, In v (fst q) -> P v) dataset ->
  sc_marker s = marker /\ sc_c s = map snd dataset /\
  Forall P (sc_x s) /\ Forall P (sc_y s).
Proof.
  intros H Hall. destruct dataset as [|q0 rest]; [discriminate|].
  unfold add_scatter in H. cbv beta iota zeta in H.
  remember (q0 :: rest) as dataset eqn:Ed. injection H as <-.
  cbn [sc_marker sc_c sc_x sc_y]. split; [reflexivity|]. split; [reflexivity|].
  rewrite Forall_forall in Hall.
  split; apply Forall_forall; intros v Hv;
    apply in_map_iff in Hv as (p & <- & Hp);
    apply in_map_iff in Hp as (q & <- & Hq);
    destruct (Hall q Hq) as [H2 HP]; apply HP, nth_In; lia.
Qed.

Lemma Forall2_Forall_r {A B : Type} (P : A -> B -> Prop) (Q : B -> Prop)
    (l : list A) (l' : list B) :
  Forall2 P l l' -> (forall a b, In a l -> P a b -> Q b) -> Forall Q l'.
Proof.
  induction 1 as [|a b l l' Hab _ IH]; intros HQ; constructor.
  - apply (HQ a b); [now left|exact Hab].
  - apply IH. intros a' b' Hin. apply HQ. now right.
Qed.

Section ScriptFigure.

Variable autograd : Sequential -> Tensor2 -> list nat -> Grads.
Variable set_to_none : bool.
Hypothesis autograd_fits :
  forall m x y, Sequential_ok m -> Grads_fit (autograd m x y) m.

(** X17. Whatever the generator draws (as long as its [randperm] returns
    permutations) and whatever the initial parameters, the script runs to
    the end without raising and draws six panels.  Every panel has the
    coordinate arrays of the grid, transparency 0.5 and the first six
    default colours as colour map, and two scatter plots: the 240 training
    samples with marker o and the 60 test samples with marker x, every
    label below the number of classes, and every plotted coordinate within
    the extent of the grid, so that no data point falls outside the mesh.
    ([random_split] is the library's; its model follows its
    documentation.) *)
Theorem script_figure (fl : Arith) (g : Generator)
    (w1 : nat -> nat -> R) (b1 : nat -> R) (w2 : nat -> nat -> R) (b2 : nat -> R) :
  Generator_ok g ->
  exists d L axes,
    make_dataset fl g = Ok d /\
    ax_length_of radii d = Ok L /\
    script autograd set_to_none fl g w1 b1 w2 b2 = Ok axes /\
    length axes = 6 /\
    Forall (fun ax =>
              ax_x ax = fst (grid_xy L) /\ ax_y ax = snd (grid_xy L) /\
              ax_alpha ax = 0.5%R /\
              ax_cmap ax = ["r"; "b"; "g"; "c"; "m"; "y"]%string /\
              exists s1 s2,
                ax_scatter ax = [s1; s2] /\
                sc_marker s1 = "o"%string /\ sc_marker s2 = "x"%string /\
                length (sc_c s1) = 240 /\ length (sc_c s2) = 60 /\
                Forall (fun c => c < n_cats) (sc_c s1 ++ sc_c s2) /\
                Forall (fun v => (- L <= v <= L)%R)
                       (sc_x s1 ++ sc_y s1 ++ sc_x s2 ++ sc_y s2))
           axes.
Proof.
  intros Hg.
  destruct (script_split fl g (next_perm g 0 300) (Hg 0 300))
    as (d & trn & tst & Hd & Hlen & Htrn & Htst & Hn1 & Hn2 & Hall).
  destruct (make_dataset_extent fl g) as (d' & M & Hd' & _ & Hax & _).
  assert (d' = d) by congruence. subst d'.
  set (L := Rmax (6 * 1.5) M) in *.
  assert (Hlens : length (rows (inputs d)) = length (cats d)).
  { exact (CircleData_init_lengths _ _ _ _ _ _ Hd). }
  pose proof (Subset_in_iterate d _ trn Hlens Htrn) as Hin1.
  pose proof (Subset_in_iterate d _ tst Hlens Htst) as Hin2.
  apply Forall_app in Hall as [Hall1 Hall2].
  set (dl := DataLoader_init trn batch_size
               (fun k => next_perm g (S k) (length trn))).
  assert (Hdl : forall k, Forall (Batch_ok 2 n_cats) (yields dl k)).
  { apply DataLoader_init_ok; [unfold batch_size; lia|exact Hall1|].
    intros k. apply Forall_forall. intros i Hi.
    apply (Permutation_in _ (Hg (S k) (length trn))), in_seq in Hi. lia. }
  destruct (make_model_ok w1 b1 w2 b2) as (Hok & Hin & Hout).
  set (w0 := initial_world (make_model w1 b1 w2 b2)).
  assert (Hw0 : World_ok w0) by (split; [exact Hok|exact I]).
  destruct (figure_of_training autograd set_to_none autograd_fits dl w0 L
              (fst (grid_xy L)) (snd (grid_xy L)) trn tst Hdl Hw0 Hin Hout)
    as (preds & w' & axes & Hrun & Hfig & Hcells).
  { intros ->. discriminate. }
  { intros ->. discriminate. }
  assert (Hdl' : forall k, Forall (Batch_ok (in_features (fc1 (model w0)))
                                     (out_features (fc2 (model w0)))) (yields dl k)).
  { intros k. unfold w0. cbn [initial_world model]. rewrite Hin, Hout. apply Hdl. }
  destruct (training_spec autograd set_to_none autograd_fits dl (make_mesh L) w0
              Hdl' ltac:(unfold w0; cbn [initial_world model]; now rewrite Hin) Hw0)
    as (w'' & Hrun' & _).
  assert (Hpreds : preds =
                   map (fun e => field_of (model_after autograd dl (shuffles w0)
                                             (model w0) e) (make_mesh L))
                       epochs_to_plot) by congruence.
  exists d, L, axes. split; [exact Hd|]. split; [exact Hax|].
  split; [|split].
  - unfold script. rewrite Hd. cbn [rbind]. cbv zeta.
    rewrite Hlen in Htrn, Htst |- *. rewrite Htrn. cbn [rbind].
    rewrite Htst. cbn [rbind]. rewrite Hax. cbn [rbind].
    fold dl. fold w0. rewrite Hrun. cbn [rbind]. exact Hfig.
  - rewrite <- (Forall2_length Hcells), Hpreds, length_map. reflexivity.
  - unfold figure in Hfig. apply mapM_Ok_Forall2 in Hfig.
    assert (Hncol : forall p, In p (panels preds) -> ncol (fst p) = 6).
    { intros p Hp. unfold panels in Hp.
      assert (Hp' : In p (combine preds epochs_to_plot))
        by (apply (In_firstn_skipn (n_row * n_col)); now left).
      clear Hp. rename Hp' into Hp.
      destruct p as [p e]. apply in_combine_l in Hp. cbn [fst].
      rewrite Hpreds in Hp. apply in_map_iff in Hp as (e' & <- & _).
      destruct (model_after_ok autograd autograd_fits dl (shuffles w0) (model w0) e'
                  (proj1 Hw0)) as (_ & _ & Ho).
      unfold field_of, Softmax. cbn [ncol]. rewrite Ho.
      unfold w0. cbn [initial_world model]. exact Hout. }
    assert (Hwithin : forall l, Forall Sample_ok l ->
                                Forall (fun s => In s (iterate d)) l ->
              Forall (fun q => length (fst q) = 2 /\
                               forall v, In v (fst q) -> (- L <= v <= L)%R) l).
    { intros l Hs Hi. rewrite Forall_forall in *. intros q Hq.
      split; [exact (proj1 (Hs q Hq))|].
      intros v Hv. exact (extent_bounds_points radii d L Hax q v (Hi q Hq) Hv). }
    refine (Forall2_Forall_r _ _ _ _ Hfig _). intros p ax Hpin Hp. cbv beta in Hp.
    apply plot_ax_inv in Hp
        as (col_rgb & mesh_cols & image & s1 & s2 & _ & _ & _ & E4 & E5 & ->).
      cbn [ax_x ax_y ax_alpha ax_cmap ax_scatter].
    rewrite (Hncol p Hpin) in *.
    do 3 (split; [reflexivity|]). split; [reflexivity|].
    exists s1, s2. split; [reflexivity|].
    destruct (add_scatter_within _ _ _ _ _ E4 (Hwithin trn Hall1 Hin1))
      as (Hm1 & Hc1 & Hx1 & Hy1).
    destruct (add_scatter_within _ _ _ _ _ E5 (Hwithin tst Hall2 Hin2))
      as (Hm2 & Hc2 & Hx2 & Hy2).
    split; [exact Hm1|]. split; [exact Hm2|].
    rewrite Hc1, Hc2, !length_map.
    split; [exact Hn1|]. split; [exact Hn2|]. split.
    + apply Forall_app. split; apply Forall_forall; intros c Hc;
        apply in_map_iff in Hc as (q & <- & Hq).
      * exact (proj2 (proj1 (Forall_forall _ _) Hall1 q Hq)).
      * exact (proj2 (proj1 (Forall_forall _ _) Hall2 q Hq)).
    + repeat (apply Forall_app; split); assumption.
Qed.

End ScriptFigure.

(** ** Valid colours *)

Lemma to_rgb_range (col : string) (v : list R) :
  to_rgb col = Ok v -> length v = 3 /\ Forall (fun ch => (0 <= ch <= 1)%R) v.
Proof.
  unfold to_rgb.
  repeat match goal with
         | |- (if ?b then _ else _) = _ -> _ => destruct b
         end;
    intros H; try discriminate; injection H as <-;
    (split; [reflexivity|repeat (apply Forall_cons; [lra|]); apply Forall_nil]).
Qed.

Lemma weighted_sum_range (p : list R) :
  forall palette : list (list R),
    Forall (fun q => (0 <= q)%R) p ->
    Forall (fun c => length c = 3 /\ Forall (fun ch => (0 <= ch <= 1)%R) c) palette ->
    length (weighted_sum p palette) = 3 /\
    Forall (fun ch => (0 <= ch <= rsum p)%R) (weighted_sum p palette).
Proof.
  induction p as [|q p IH]; intros palette Hp Hpal.
  - split; [reflexivity|]. cbn. repeat (apply Forall_cons; [lra|]). apply Forall_nil.
  - inversion Hp as [|? ? Hq Hp']; subst.
    pose proof (rsum_nonneg p Hp') as Hsum.
    destruct palette as [|c palette].
    + split; [reflexivity|]. cbn. fold (rsum p).
      repeat (apply Forall_cons; [lra|]). apply Forall_nil.
    + inversion Hpal as [|? ? [Hc3 Hc] Hpal']; subst.
      destruct (IH palette Hp' Hpal') as [Hlen Hall].
      unfold weighted_sum in *. cbn [combine fold_right fst snd].
      destruct (fold_right
                  (fun pc acc => vzip Rplus (map (Rmult (fst pc)) (snd pc)) acc)
                  [0%R; 0%R; 0%R] (combine p palette))
        as [|a0 [|a1 [|a2 [|? ?]]]]; try discriminate Hlen.
      destruct c as [|c0 [|c1 [|c2 [|? ?]]]]; try discriminate Hc3.
      split; [reflexivity|].
      inversion Hall as [|? ? H0 Hall1]; subst.
      inversion Hall1 as [|? ? H1 Hall2]; subst.
      inversion Hall2 as [|? ? H2 _]; subst.
      inversion Hc as [|? ? G0 Hc1]; subst.
      inversion Hc1 as [|? ? G1 Hc2]; subst.
      inversion Hc2 as [|? ? G2 _]; subst.
      cbn. fold (rsum p). repeat (apply Forall_cons; [nra|]). apply Forall_nil.
Qed.

Lemma matmul_rgb_Ok_inv (mesh_pred : Tensor2) (col_rgb : list (list R))
    (mesh_cols : Tensor2) :
  matmul_rgb mesh_pred col_rgb = Ok mesh_cols ->
  ncol mesh_pred = length col_rgb.
Proof.
  unfold matmul_rgb. destruct col_rgb as [|c0 col_rgb].
  - destruct (Nat.eqb_spec (ncol mesh_pred) 0); [intros _; assumption|discriminate].
  - unfold matmul, tensor_of_rgb, nrow. cbn [rows].
    destruct (Nat.eqb_spec (ncol mesh_pred) (length (c0 :: col_rgb)));
      [intros _; assumption|discriminate].
Qed.

(** X19. Whenever [plot_ax] returns for a field whose rows are probability
    distributions over the classes, every cell of the image it hands to the
    mesh plot is a valid RGB colour: three channels, each between 0 and 1,
    whatever the probabilities and whichever of the known colours the
    palette holds. *)
Theorem plot_ax_colours_valid (x y : list (list R)) (mesh_pred : Tensor2)
    (title : string) (trn_dset tst_dset : list (list R * nat)) (alpha : R)
    (cols : list string) (ax : Axes) :
  well_shaped mesh_pred ->
  0 < ncol mesh_pred ->
  nrow mesh_pred = npoints * npoints ->
  Forall (distribution (ncol mesh_pred)) (rows mesh_pred) ->
  plot_ax x y mesh_pred title trn_dset tst_dset alpha cols = Ok ax ->
  length (ax_mesh_cols ax) = npoints /\
  forall i j, i < npoints -> j < npoints ->
    length (nth j (nth i (ax_mesh_cols ax) []) []) = 3 /\
    Forall (fun ch => (0 <= ch <= 1)%R) (nth j (nth i (ax_mesh_cols ax) []) []).
Proof.
  intros Hws Hpos Hrows Hdist Hax.
  destruct (plot_ax_inv _ _ _ _ _ _ _ _ _ Hax)
    as (palette & mesh_cols & image & s1 & s2 & E1 & E2 & E3 & E4 & E5 & Eax).
  assert (Hcols : ncol mesh_pred <= length cols).
  { pose proof (matmul_rgb_Ok_inv _ _ _ E2) as Hk.
    pose proof (Forall2_length (mapM_Ok_Forall2 _ _ _ E1)) as Hl.
    rewrite length_firstn in Hl. lia. }
  assert (Htrn : trn_dset <> []) by (intros ->; discriminate).
  assert (Htst : tst_dset <> []) by (intros ->; discriminate).
  destruct (plot_ax_cells x y mesh_pred title trn_dset tst_dset alpha cols palette
              Hws Hpos Hrows Hcols E1 Htrn Htst) as (ax' & Hax' & _ & Hcell).
  assert (ax' = ax) by congruence. subst ax'.
  split.
  { rewrite Eax. cbn [ax_mesh_cols]. exact (reshape_grid_length _ _ _ E3). }
  intros i j Hi Hj.
  destruct (Hcell i j Hi Hj) as (-> & _ & Hp).
  destruct (Hp Hdist) as [Hrange Hsum].
  assert (Hpal : Forall (fun c => length c = 3 /\
                                  Forall (fun ch => (0 <= ch <= 1)%R) c) palette).
  { refine (Forall2_Forall_r _ _ _ _ (mapM_Ok_Forall2 _ _ _ E1) _).
    intros c v _ Hc. exact (to_rgb_range c v Hc). }
  destruct (weighted_sum_range
              (nth (i * npoints + j) (rows mesh_pred) []) palette) as [Hlen Hall].
  { eapply Forall_impl; [|exact Hrange]. intros q Hq. cbv beta in Hq. lra. }
  { exact Hpal. }
  split; [exact Hlen|]. now rewrite Hsum in Hall.
Qed.

(** ** The model of the script *)

(** X18. The model the script builds accepts a batch of any number of rows
    as long as it has exactly two columns, and returns one row of six
    scores, one per class, for every input row; for any other number of
    columns the first linear layer raises the shape error, and the second
    layer never does. *)
Theorem script_model_shapes (w1 : nat -> nat -> R) (b1 : nat -> R)
    (w2 : nat -> nat -> R) (b2 : nat -> R) (x : Tensor2) :
  match Sequential_forward (make_model w1 b1 w2 b2) x with
  | Ok s =>
      ncol x = 2 /\ ncol s = n_cats /\ nrow s = nrow x /\ well_shaped s /\
      rows s = map (score_row (make_model w1 b1 w2 b2)) (rows x)
  | Raise e => ncol x <> 2 /\ e = ShapeError
  end.
Proof.
  destruct (make_model_ok w1 b1 w2 b2) as (Hok & Hin & Hout).
  destruct (Nat.eq_dec (ncol x) 2) as [E|E].
  - rewrite (Sequential_forward_Ok _ x Hok) by congruence.
    cbn [ncol rows]. unfold nrow. cbn [rows].
    split; [exact E|]. split; [exact Hout|].
    split; [apply length_map|]. split; [|reflexivity].
    apply Forall_forall. intros r Hr. cbn [rows ncol] in *.
    apply in_map_iff in Hr as (r0 & <- & _).
    now apply length_score_row.
  - unfold Sequential_forward, Linear_forward. rewrite Hin.
    destruct (Nat.eqb_spec (ncol x) 2); [contradiction|].
    cbn [rbind]. split; [exact E|reflexivity].
Qed.

(* ================================================================== *)
(** * Instances of the further properties *)

Lemma train_loop_stops_at_malformed_batch_witness :
  World_ok example_world /\
  train_loop ridge_autograd false
    {| dataset_size := 3;
       yields := fun _ => [example_batch;
                           ({| ncol := 3; rows := [[1; 2; 3]]%R |}, [0])] |}
    optimizer false example_world = Raise ShapeError.
Proof.
  assert (Hw : World_ok example_world)
    by (split; [apply make_model_ok|exact I]).
  split; [exact Hw|].
  refine (proj1 (train_loop_stops_at_malformed_batch ridge_autograd false
            (fun m x y _ => ridge_autograd_fits m x y)
            {| dataset_size := 3;
               yields := fun _ => [example_batch;
                                   ({| ncol := 3; rows := [[1; 2; 3]]%R |}, [0])] |}
            optimizer false example_world [example_batch] []
            ({| ncol := 3; rows := [[1; 2; 3]]%R |}, [0]) Hw eq_refl _) _).
  - repeat constructor; cbn; lia.
  - cbn. lia.
Defined.

Lemma verbose_prints_every_hundredth_witness :
  World_ok example_world /\
  Forall (Batch_ok 2 6) (yields example_loader 0) /\
  exists w',
    train_loop ridge_autograd true example_loader optimizer true example_world
    = Ok (tt, w') /\
    stdout w' =
      [ {| log_loss := loss_value example_model example_batch;
           log_current := 2;
           log_size := 2 |} ].
Proof.
  assert (Hw : World_ok example_world)
    by (split; [apply make_model_ok|exact I]).
  assert (Hb : Forall (Batch_ok 2 6) (yields example_loader 0))
    by (repeat constructor; cbn; lia).
  split; [exact Hw|]. split; [exact Hb|].
  destruct (verbose_prints_every_hundredth ridge_autograd true
              (fun m x y _ => ridge_autograd_fits m x y)
              example_loader optimizer example_world Hw Hb)
    as (w' & Hrun & _ & Hone).
  exists w'. split; [exact Hrun|].
  exact (Hone example_batch [] eq_refl ltac:(cbn; lia)).
Defined.

Lemma epochs_are_one_long_pass_witness :
  (forall k, Forall (Batch_ok 2 6) (yields example_loader k)) /\
  World_ok example_world /\
  exists we w1,
    train_epochs ridge_autograd false example_loader 2 example_world
    = Ok (tt, we) /\
    train_loop ridge_autograd false
      {| dataset_size := 2; yields := fun _ => [example_batch; example_batch] |}
      optimizer false example_world = Ok (tt, w1) /\
    model we = model w1.
Proof.
  assert (Hw : World_ok example_world)
    by (split; [apply make_model_ok|exact I]).
  assert (Hb : forall k, Forall (Batch_ok 2 6) (yields example_loader k))
    by (intros k; repeat constructor; cbn; lia).
  split; [exact Hb|]. split; [exact Hw|].
  destruct (epochs_are_one_long_pass ridge_autograd false
              (fun m x y _ => ridge_autograd_fits m x y)
              example_loader example_world 2 Hb Hw)
    as (we & w1 & Hrun & Hone & Hmod & _).
  exists we, w1. split; [exact Hrun|]. split; [exact Hone|exact Hmod].
Defined.

Lemma evaluation_leaves_training_alone_witness :
  (forall k, Forall (Batch_ok 2 6) (yields example_loader k)) /\
  ncol example_mesh = 2 /\
  World_ok example_world /\
  exists preds w' we,
    training ridge_autograd false example_loader example_mesh example_world
    = Ok (preds, w') /\
    train_epochs ridge_autograd false example_loader n_epochs example_world
    = Ok (tt, we) /\
    model w' = model we /\
    stdout w' = [].
Proof.
  assert (Hw : World_ok example_world)
    by (split; [apply make_model_ok|exact I]).
  assert (Hb : forall k, Forall (Batch_ok 2 6) (yields example_loader k))
    by (intros k; repeat constructor; cbn; lia).
  assert (Hm : ncol example_mesh = 2) by reflexivity.
  split; [exact Hb|]. split; [exact Hm|]. split; [exact Hw|].
  destruct (evaluation_leaves_training_alone ridge_autograd false
              (fun m x y _ => ridge_autograd_fits m x y)
              example_loader example_mesh example_world Hb Hm Hw)
    as (preds & w' & we & Hrun & Hrune & Hmod & _ & Hout & _).
  exists preds, w', we.
  split; [exact Hrun|]. split; [exact Hrune|]. split; [exact Hmod|exact Hout].
Defined.

Lemma panels_show_model_at_their_coordinates_witness :
  (forall k, Forall (Batch_ok 2 n_cats) (yields example_loader k)) /\
  World_ok example_world /\
  exists preds w' axes,
    training ridge_autograd false example_loader example_mesh example_world
    = Ok (preds, w') /\
    figure (fst (grid_xy 9)) (snd (grid_xy 9)) preds example_samples example_samples
    = Ok axes /\
    length axes = 6.
Proof.
  assert (Hw : World_ok example_world)
    by (split; [apply make_model_ok|exact I]).
  assert (Hb : forall k, Forall (Batch_ok 2 n_cats) (yields example_loader k))
    by (intros k; repeat constructor; cbn; lia).
  split; [exact Hb|]. split; [exact Hw|].
  destruct (panels_show_model_at_their_coordinates ridge_autograd false
              (fun m x y _ => ridge_autograd_fits m x y)
              example_loader example_world 9%R example_samples example_samples
              Hb Hw eq_refl eq_refl ltac:(discriminate) ltac:(discriminate))
    as (preds & w' & axes & Hrun & Hfig & Hall).
  exists preds, w', axes.
  split; [exact Hrun|]. split; [exact Hfig|].
  exact (eq_sym (Forall2_length Hall)).
Defined.

Lemma epoch_visits_every_sample_once_witness :
  0 < 1 /\
  Permutation [1; 0] (seq 0 (length example_samples)) /\
  Permutation
    (concat (map batch_samples
               (yields (DataLoader_init example_samples 1 (fun _ => [1; 0])) 0)))
    example_samples /\
  map (fun b => nrow (fst b))
      (yields (DataLoader_init example_samples 1 (fun _ => [1; 0])) 0) = [1; 1].
Proof.
  assert (Hp : Permutation [1; 0] (seq 0 (length example_samples)))
    by apply perm_swap.
  split; [lia|]. split; [exact Hp|].
  destruct (epoch_visits_every_sample_once example_samples 1 (fun _ => [1; 0]) 0
              ltac:(lia) Hp) as (Hall & Hsizes & _).
  split; [exact Hall|exact Hsizes].
Defined.

Lemma plot_ax_layers_witness :
  exists ax,
    plot_ax [] [] example_field "Epoch 0" example_samples example_samples
      0.5%R default_cols = Ok ax /\
    ax_cmap ax = ["r"; "b"]%string /\
    length (ax_scatter ax) = 2.
Proof.
  assert (Hws : well_shaped example_field).
  { apply Forall_forall. intros r Hr. apply repeat_spec in Hr. now subst r. }
  assert (Hn : nrow example_field = npoints * npoints) by apply repeat_length.
  assert (Hpal : mapM to_rgb (firstn (ncol example_field) default_cols)
                 = Ok [[1; 0; 0]; [0; 0; 1]]%R) by reflexivity.
  destruct (plot_ax_cells [] [] example_field "Epoch 0" example_samples
              example_samples 0.5%R default_cols _ Hws
              ltac:(cbn; lia) Hn ltac:(cbn; lia) Hpal
              ltac:(discriminate) ltac:(discriminate))
    as (ax & Hax & _).
  exists ax. split; [exact Hax|].
  destruct (plot_ax_layers _ _ _ _ _ _ _ _ ax Hax)
    as (_ & _ & _ & _ & Hc & _ & _ & _ & _ & s1 & s2 & Hs & _).
  split; [exact Hc|]. rewrite Hs. reflexivity.
Defined.

Lemma script_figure_witness :
  Generator_ok example_generator /\
  exists axes,
    script ridge_autograd false binary32 example_generator
      (fun _ _ => 1%R) (fun _ => 0%R) (fun _ _ => 1%R) (fun _ => 0%R) = Ok axes /\
    length axes = 6.
Proof.
  assert (Hg : Generator_ok example_generator)
    by (intros k n; apply Permutation_refl).
  split; [exact Hg|].
  destruct (script_figure ridge_autograd false
              (fun m x y _ => ridge_autograd_fits m x y)
              binary32 example_generator (fun _ _ => 1%R) (fun _ => 0%R)
              (fun _ _ => 1%R) (fun _ => 0%R) Hg)
    as (d & L & axes & _ & _ & Hrun & Hlen & _).
  exists axes. split; [exact Hrun|exact Hlen].
Defined.

Lemma plot_ax_colours_valid_witness :
  well_shaped example_field /\
  nrow example_field = npoints * npoints /\
  Forall (distribution (ncol example_field)) (rows example_field) /\
  exists ax,
    plot_ax [] [] example_field "Epoch 0" example_samples example_samples
      0.5%R default_cols = Ok ax /\
    Forall (fun ch => (0 <= ch <= 1)%R) (nth 0 (nth 0 (ax_mesh_cols ax) []) []).
Proof.
  assert (Hws : well_shaped example_field).
  { apply Forall_forall. intros r Hr. apply repeat_spec in Hr. now subst r. }
  assert (Hn : nrow example_field = npoints * npoints) by apply repeat_length.
  assert (Hpal : mapM to_rgb (firstn (ncol example_field) default_cols)
                 = Ok [[1; 0; 0]; [0; 0; 1]]%R) by reflexivity.
  assert (Hdist : Forall (distribution (ncol example_field)) (rows example_field)).
  { apply Forall_forall. intros r Hr. apply repeat_spec in Hr. subst r.
    split; [reflexivity|].
    split; [repeat (apply Forall_cons; [lra|]); apply Forall_nil|]. cbn. lra. }
  split; [exact Hws|]. split; [exact Hn|]. split; [exact Hdist|].
  destruct (plot_ax_cells [] [] example_field "Epoch 0" example_samples
              example_samples 0.5%R default_cols _ Hws
              ltac:(cbn; lia) Hn ltac:(cbn; lia) Hpal
              ltac:(discriminate) ltac:(discriminate))
    as (ax & Hax & _).
  exists ax. split; [exact Hax|].
  destruct (plot_ax_colours_valid _ _ _ _ _ _ _ _ ax Hws ltac:(cbn; lia) Hn Hdist Hax)
    as (_ & Hcell).
  exact (proj2 (Hcell 0 0 ltac:(unfold npoints; lia) ltac:(unfold npoints; lia))).
Defined.

Lemma add_scatter_points_witness :
  Forall (fun s => length (fst s) = 2) example_samples /\
  exists s,
    add_scatter example_samples "o" default_cols = Ok s /\
    sc_marker s = "o"%string /\
    length (sc_x s) = 2 /\ length (sc_cmap s) = 2.
Proof.
  assert (H : Forall (fun s => length (fst s) = 2) example_samples)
    by (repeat constructor).
  split; [exact H|].
  pose proof (add_scatter_points example_samples "o" default_cols H) as T.
  destruct (add_scatter example_samples "o" default_cols) as [s|e].
  - exists s. split; [reflexivity|].
    destruct T as (_ & Hm & Hx & _ & Hc & Hpt & Hl & _).
    split; [exact Hm|]. split; [exact Hx|].
    rewrite Hl.
    assert (Hcs : sc_c s = [0; 1]).
    { destruct (Hpt 0 _ _ eq_refl) as (_ & H0 & _).
      destruct (Hpt 1 _ _ eq_refl) as (_ & H1 & _).
      destruct (sc_c s) as [|a [|b [|? ?]]]; try discriminate Hc.
      cbn in H0, H1. congruence. }
    rewrite Hcs. reflexivity.
  - destruct T as [T _]. discriminate T.
Defined.
